(** * Tokamak DAO v2: governance contracts

    A shallow embedding of the Solidity contracts of the repository
    (vTON, DelegateRegistry, Timelock, SecurityCouncil, and the cancellation
    rule of DAOGovernor) together with the properties of the governance
    specification that concern them.

    Conventions.
    - [uint256] values are naturals ([N]) up to [MAX_UINT256]; Solidity 0.8
      arithmetic is checked, so [+], [-] and [*] revert with [Panic 0x11]
      instead of wrapping.  Explicit narrowing casts truncate.
    - An external function is a Rocq function from the call environment
      ([msg.sender], [block.timestamp], [block.number]), its arguments and
      the contract storage to a [result]: [Ok] with the new storage, or
      [Revert] with the error.  A revert discards every write of the call,
      so the storage after a reverted call is the storage before it.
    - Solidity mappings are finite maps read with a default. *)

From Stdlib Require Import NArith ZArith Lia.
From stdpp Require Import gmap list strings.

Open Scope N_scope.

(** ** EVM prelude *)

Abbreviation address := N.

Definition MAX_UINT256 : N := 2 ^ 256 - 1.

Inductive result (E A : Type) : Type :=
| Ok (a : A)
| Revert (e : E).
Arguments Ok {E A} a.
Arguments Revert {E A} e.

Global Instance result_ret {E} : MRet (result E) := fun _ a => Ok a.
Global Instance result_bind {E} : MBind (result E) := fun _ _ f m =>
  match m with
  | Ok a => f a
  | Revert e => Revert e
  end.

Global Instance result_fmap {E} : FMap (result E) := fun _ _ f m =>
  match m with
  | Ok a => Ok (f a)
  | Revert e => Revert e
  end.

(** [if (!b) revert e;] *)
Definition require {E} (b : bool) (e : E) : result E unit :=
  if b then Ok tt else Revert e.

(** Checked uint256 arithmetic: [panic] is the contract's [Panic(0x11)]. *)
Definition add_checked {E} (panic : E) (a b : N) : result E N :=
  if a + b <=? MAX_UINT256 then Ok (a + b) else Revert panic.

Definition sub_checked {E} (panic : E) (a b : N) : result E N :=
  if b <=? a then Ok (a - b) else Revert panic.

Definition mul_checked {E} (panic : E) (a b : N) : result E N :=
  if a * b <=? MAX_UINT256 then Ok (a * b) else Revert panic.

(** Reading a [mapping(K => uint256)] / [mapping(K => bool)]. *)
Definition getN `{Countable K} (m : gmap K N) (k : K) : N := default 0 (m !! k).
Definition getB `{Countable K} (m : gmap K bool) (k : K) : bool := default false (m !! k).

(** The state after a call: a reverted call leaves the storage as it was. *)
Definition state_after {E S} (r : result E S) (before : S) : S :=
  match r with
  | Ok s => s
  | Revert _ => before
  end.

Record Env := {
  msg_sender : address;
  block_timestamp : N;
  block_number : N
}.

(** ** The ERC20 ledger *)

Module Ledger.

(** Modelled from the spec: the OpenZeppelin ERC20 / ERC20Votes base
    contracts that vTON inherits are a library that is not under src/; the
    spec says that standard transfer / approve / transferFrom semantics
    apply.  The ledger keeps balances, allowances and the total supply.
    The token-level vote checkpoints of ERC20Votes are not part of it. *)
Record t := {
  _balances : gmap address N;
  _allowances : gmap (address * address) N;
  _totalSupply : N
}.

Inductive error :=
| ERC20InvalidSender
| ERC20InvalidReceiver
| ERC20InsufficientBalance
| ERC20InsufficientAllowance
| ERC20ExceededSafeSupply
| Panic (code : N).

Definition MAX_SUPPLY : N := 2 ^ 208 - 1.

Definition empty : t :=
  {| _balances := ∅; _allowances := ∅; _totalSupply := 0 |}.

Definition balanceOf (l : t) (a : address) : N := getN (_balances l) a.
Definition allowance (l : t) (o s : address) : N := getN (_allowances l) (o, s).
Definition totalSupply (l : t) : N := _totalSupply l.

(** [_mint(account, value)]: checked addition on the supply, supply
    ceiling, unchecked credit of the balance. *)
Definition _mint (account : address) (value : N) (l : t) : result error t :=
  _ ← require (negb (account =? 0)) ERC20InvalidReceiver;
  supply ← add_checked (Panic 17) (_totalSupply l) value;
  _ ← require (supply <=? MAX_SUPPLY) ERC20ExceededSafeSupply;
  Ok {| _balances := <[account := balanceOf l account + value]> (_balances l);
        _allowances := _allowances l;
        _totalSupply := supply |}.

(** Modelled from the spec: [_transfer(from, to, value)] of the missing ERC20
    library: the sender is debited, failing on an insufficient balance, and
    the recipient is credited. *)
Definition _transfer (from to : address) (value : N) (l : t) : result error t :=
  _ ← require (negb (from =? 0)) ERC20InvalidSender;
  _ ← require (negb (to =? 0)) ERC20InvalidReceiver;
  _ ← require (value <=? balanceOf l from) ERC20InsufficientBalance;
  let b1 := <[from := balanceOf l from - value]> (_balances l) in
  let b2 := <[to := getN b1 to + value]> b1 in
  Ok {| _balances := b2; _allowances := _allowances l; _totalSupply := _totalSupply l |}.

(** Modelled from the spec: [_spendAllowance(owner, spender, value)] of the
    missing ERC20 library: an infinite allowance is not decreased. *)
Definition _spendAllowance (o s : address) (value : N) (l : t) : result error t :=
  let cur := allowance l o s in
  if cur =? MAX_UINT256 then Ok l
  else
    _ ← require (value <=? cur) ERC20InsufficientAllowance;
    Ok {| _balances := _balances l;
          _allowances := <[(o, s) := cur - value]> (_allowances l);
          _totalSupply := _totalSupply l |}.

(** Modelled from the spec: [transfer(to, value)] of the missing ERC20
    library, called by [caller]. *)
Definition transfer (caller to : address) (value : N) (l : t) : result error t :=
  _transfer caller to value l.

(** Modelled from the spec: [transferFrom(from, to, value)] of the missing
    ERC20 library, called by [spender]. *)
Definition transferFrom (spender from to : address) (value : N) (l : t) : result error t :=
  l1 ← _spendAllowance from spender value l;
  _transfer from to value l1.

(** Modelled from the spec: [approve(spender, value)] of the missing ERC20
    library, called by [o]. *)
Definition approve (o spender : address) (value : N) (l : t) : t :=
  {| _balances := _balances l;
     _allowances := <[(o, spender) := value]> (_allowances l);
     _totalSupply := _totalSupply l |}.

End Ledger.

(** ** vTON: the governance token *)

Module VTON.

Inductive error :=
| NotMinter
| InvalidEmissionRatio
| ZeroAddress
| OwnableUnauthorizedAccount
| OwnableInvalidOwner
| Panic (code : N)
| LedgerError (e : Ledger.error).

Inductive event :=
| Transfer (from to : address) (value : N)
| Minted (to : address) (amount : N)
| EmissionRatioUpdated (oldRatio newRatio : N)
| MinterUpdated (minter : address) (allowed : bool).

Definition MAX_EMISSION_RATIO : N := 10 ^ 18.

Record state := {
  owner : address;
  emissionRatio : N;
  _minters : gmap address bool;
  ledger : Ledger.t
}.

Definition lift {A} (r : result Ledger.error A) : result error A :=
  match r with
  | Ok a => Ok a
  | Revert e => Revert (LedgerError e)
  end.

(** [constructor(initialOwner)]: the [Ownable] base constructor runs first;
    the emission ratio starts at 100%. *)
Definition constructor (initialOwner : address) : result error state :=
  _ ← require (negb (initialOwner =? 0)) OwnableInvalidOwner;
  _ ← require (negb (initialOwner =? 0)) ZeroAddress;
  Ok {| owner := initialOwner;
        emissionRatio := MAX_EMISSION_RATIO;
        _minters := ∅;
        ledger := Ledger.empty |}.

(** [mint(to, amount)] *)
Definition mint (env : Env) (to : address) (amount : N) (st : state)
  : result error (state * list event) :=
  _ ← require (getB (_minters st) (msg_sender env)) NotMinter;
  _ ← require (negb (to =? 0)) ZeroAddress;
  prod ← mul_checked (Panic 17) amount (emissionRatio st);
  let adjustedAmount := prod / MAX_EMISSION_RATIO in
  if adjustedAmount =? 0 then Ok (st, [])
  else
    l ← lift (Ledger._mint to adjustedAmount (ledger st));
    Ok ({| owner := owner st;
           emissionRatio := emissionRatio st;
           _minters := _minters st;
           ledger := l |},
        [Transfer 0 to adjustedAmount; Minted to adjustedAmount]).

(** [setEmissionRatio(ratio)], [onlyOwner]. *)
Definition setEmissionRatio (env : Env) (ratio : N) (st : state)
  : result error (state * list event) :=
  _ ← require (msg_sender env =? owner st) OwnableUnauthorizedAccount;
  _ ← require (ratio <=? MAX_EMISSION_RATIO) InvalidEmissionRatio;
  Ok ({| owner := owner st;
         emissionRatio := ratio;
         _minters := _minters st;
         ledger := ledger st |},
      [EmissionRatioUpdated (emissionRatio st) ratio]).

(** [setMinter(minter, allowed)], [onlyOwner]. *)
Definition setMinter (env : Env) (minter : address) (allowed : bool) (st : state)
  : result error (state * list event) :=
  _ ← require (msg_sender env =? owner st) OwnableUnauthorizedAccount;
  _ ← require (negb (minter =? 0)) ZeroAddress;
  Ok ({| owner := owner st;
         emissionRatio := emissionRatio st;
         _minters := <[minter := allowed]> (_minters st);
         ledger := ledger st |},
      [MinterUpdated minter allowed]).

(** [isMinter(account)] *)
Definition isMinter (st : state) (account_ : address) : bool := getB (_minters st) account_.

Definition balanceOf (st : state) (a : address) : N := Ledger.balanceOf (ledger st) a.
Definition totalSupply (st : state) : N := Ledger.totalSupply (ledger st).

Definition set_ledger (l : Ledger.t) (st : state) : state :=
  {| owner := owner st; emissionRatio := emissionRatio st;
     _minters := _minters st; ledger := l |}.

(** The inherited ERC20 entry points. *)
Definition transfer (env : Env) (to : address) (value : N) (st : state)
  : result error (state * list event) :=
  l ← lift (Ledger.transfer (msg_sender env) to value (ledger st));
  Ok (set_ledger l st, [Transfer (msg_sender env) to value]).

Definition transferFrom (env : Env) (from to : address) (value : N) (st : state)
  : result error (state * list event) :=
  l ← lift (Ledger.transferFrom (msg_sender env) from to value (ledger st));
  Ok (set_ledger l st, [Transfer from to value]).

Definition approve (env : Env) (spender : address) (value : N) (st : state)
  : result error (state * list event) :=
  Ok (set_ledger (Ledger.approve (msg_sender env) spender value (ledger st)) st, []).

(** The calls that change the token's storage. *)
Inductive call :=
| Mint (to : address) (amount : N)
| SetEmissionRatio (ratio : N)
| SetMinter (minter : address) (allowed : bool)
| TransferCall (to : address) (value : N)
| TransferFromCall (from to : address) (value : N)
| ApproveCall (spender : address) (value : N).

Definition exec (env : Env) (c : call) (st : state) : result error (state * list event) :=
  match c with
  | Mint to amount => mint env to amount st
  | SetEmissionRatio r => setEmissionRatio env r st
  | SetMinter m a => setMinter env m a st
  | TransferCall to v => transfer env to v st
  | TransferFromCall f t v => transferFrom env f t v st
  | ApproveCall sp v => approve env sp v st
  end.

(** States reachable from the constructor by successful calls (a reverted
    call changes nothing). *)
Inductive reachable : state → Prop :=
| reach_init o st : constructor o = Ok st → reachable st
| reach_step env c st st' evs :
    reachable st → exec env c st = Ok (st', evs) → reachable st'.

End VTON.

(** ** VTONFaucet: the testnet faucet *)

Module Faucet.

(** [InvalidVTONAddress] stands for the failure of
    [require(_vton != address(0), "Invalid vTON address")]. *)
Inductive error :=
| InvalidClaimAmount
| FaucetPaused
| OwnableUnauthorizedAccount
| OwnableInvalidOwner
| InvalidVTONAddress
| Panic (code : N)
| TokenError (e : VTON.error).

Record storage := {
  this : address;
  owner : address;
  vton : address;
  claimAmount : N;
  totalClaimed : N;
  paused : bool
}.

(** The faucet next to the token it mints from. *)
Record world := {
  faucet : storage;
  token : VTON.state
}.

Definition lift {A} (r : result VTON.error A) : result error A :=
  match r with
  | Ok a => Ok a
  | Revert e => Revert (TokenError e)
  end.

(** [constructor(_vton, _owner)]: the [Ownable] base constructor runs first;
    the claim amount starts at [1000 ether]. *)
Definition constructor (self _vton _owner : address) : result error storage :=
  _ ← require (negb (_owner =? 0)) OwnableInvalidOwner;
  _ ← require (negb (_vton =? 0)) InvalidVTONAddress;
  Ok {| this := self; owner := _owner; vton := _vton;
        claimAmount := 1000 * 10 ^ 18; totalClaimed := 0; paused := false |}.

(** [claim()]: the faucet is the caller of [vton.mint]. *)
Definition claim (env : Env) (w : world) : result error world :=
  let s := faucet w in
  _ ← require (negb (paused s)) FaucetPaused;
  total ← add_checked (Panic 17) (totalClaimed s) (claimAmount s);
  minted ← lift (VTON.mint {| msg_sender := this s;
                              block_timestamp := block_timestamp env;
                              block_number := block_number env |}
                   (msg_sender env) (claimAmount s) (token w));
  Ok {| faucet := {| this := this s; owner := owner s; vton := vton s;
                     claimAmount := claimAmount s; totalClaimed := total;
                     paused := paused s |};
        token := fst minted |}.

(** [canClaim()] *)
Definition canClaim (s : storage) : bool := negb (paused s).

(** [setClaimAmount(_amount)], [onlyOwner]. *)
Definition setClaimAmount (env : Env) (_amount : N) (s : storage) : result error storage :=
  _ ← require (msg_sender env =? owner s) OwnableUnauthorizedAccount;
  _ ← require (negb (_amount =? 0)) InvalidClaimAmount;
  Ok {| this := this s; owner := owner s; vton := vton s;
        claimAmount := _amount; totalClaimed := totalClaimed s; paused := paused s |}.

(** [setPaused(_paused)], [onlyOwner]. *)
Definition setPaused (env : Env) (_paused : bool) (s : storage) : result error storage :=
  _ ← require (msg_sender env =? owner s) OwnableUnauthorizedAccount;
  Ok {| this := this s; owner := owner s; vton := vton s;
        claimAmount := claimAmount s; totalClaimed := totalClaimed s; paused := _paused |}.

(** The calls of the faucet, and the calls made to the token beside it. *)
Inductive call :=
| Claim
| SetClaimAmount (_amount : N)
| SetPaused (_paused : bool)
| Token (c : VTON.call).

Definition exec (env : Env) (c : call) (w : world) : result error world :=
  match c with
  | Claim => claim env w
  | SetClaimAmount a =>
      s ← setClaimAmount env a (faucet w); Ok {| faucet := s; token := token w |}
  | SetPaused p =>
      s ← setPaused env p (faucet w); Ok {| faucet := s; token := token w |}
  | Token c =>
      r ← lift (VTON.exec env c (token w)); Ok {| faucet := faucet w; token := fst r |}
  end.

(** A sequence of transactions; a reverted one leaves the world as it was. *)
Fixpoint run (txs : list (Env * call)) (w : world) : world :=
  match txs with
  | [] => w
  | (env, c) :: rest => run rest (state_after (exec env c w) w)
  end.

End Faucet.

(** ** DelegateRegistry: delegation accounting *)

Module Registry.

Inductive error :=
| NotRegisteredDelegator
| AlreadyRegisteredDelegator
| DelegatorNotActive
| DelegationCapExceeded
| InsufficientDelegation
| ZeroAmount
| ZeroAddress
| InvalidCap
| SelfDelegationNotAllowed
| EmptyProfile
| DelegationExpired
| OwnableUnauthorizedAccount
| OwnableInvalidOwner
| ReentrancyGuardReentrantCall
| CheckpointUnorderedInsertion
| Panic (code : N)
| TokenError (e : Ledger.error).

Definition MAX_CAP : N := 10000.
Definition DEFAULT_CAP : N := 2000.
Definition DEFAULT_PERIOD : N := 7 * 86400.

Record DelegatorInfo := {
  profile : string;
  votingPhilosophy : string;
  interests : string;
  registeredAt : N;
  isActive : bool
}.

Record DelegationInfo := {
  delegator : address;
  amount : N;
  delegatedAt : N;
  expiresAt : N
}.

(** The value of a mapping slot that was never written (or was deleted). *)
Definition noDelegator : DelegatorInfo :=
  {| profile := ""; votingPhilosophy := ""; interests := "";
     registeredAt := 0; isActive := false |}.

Definition noDelegation : DelegationInfo :=
  {| delegator := 0; amount := 0; delegatedAt := 0; expiresAt := 0 |}.

Record storage := {
  this : address;
  owner : address;
  _status : bool;
  delegationCap : N;
  delegationPeriodRequirement : N;
  autoExpiryPeriod : N;
  _delegators : gmap address DelegatorInfo;
  _delegations : gmap (address * address) DelegationInfo;
  _totalDelegated : gmap address N;
  _totalDelegatedBy : gmap address N;
  _votingPowerCheckpoints : gmap address (list (N * N));
  _delegatorList : list address;
  _delegationTimestamps : gmap (address * address) N;
  _delegatorsToOwners : gmap address (list address)
}.

(** The registry storage together with the vTON ledger it calls into. *)
Record world := {
  reg : storage;
  vTON : Ledger.t
}.

Definition set_delegationCap (v : N) (s : storage) : storage :=
  {| this := this s; owner := owner s; _status := _status s;
     delegationCap := v;
     delegationPeriodRequirement := delegationPeriodRequirement s;
     autoExpiryPeriod := autoExpiryPeriod s;
     _delegators := _delegators s; _delegations := _delegations s;
     _totalDelegated := _totalDelegated s; _totalDelegatedBy := _totalDelegatedBy s;
     _votingPowerCheckpoints := _votingPowerCheckpoints s;
     _delegatorList := _delegatorList s;
     _delegationTimestamps := _delegationTimestamps s;
     _delegatorsToOwners := _delegatorsToOwners s |}.

Definition set_delegationPeriodRequirement (v : N) (s : storage) : storage :=
  {| this := this s; owner := owner s; _status := _status s;
     delegationCap := delegationCap s;
     delegationPeriodRequirement := v;
     autoExpiryPeriod := autoExpiryPeriod s;
     _delegators := _delegators s; _delegations := _delegations s;
     _totalDelegated := _totalDelegated s; _totalDelegatedBy := _totalDelegatedBy s;
     _votingPowerCheckpoints := _votingPowerCheckpoints s;
     _delegatorList := _delegatorList s;
     _delegationTimestamps := _delegationTimestamps s;
     _delegatorsToOwners := _delegatorsToOwners s |}.

Definition set_autoExpiryPeriod (v : N) (s : storage) : storage :=
  {| this := this s; owner := owner s; _status := _status s;
     delegationCap := delegationCap s;
     delegationPeriodRequirement := delegationPeriodRequirement s;
     autoExpiryPeriod := v;
     _delegators := _delegators s; _delegations := _delegations s;
     _totalDelegated := _totalDelegated s; _totalDelegatedBy := _totalDelegatedBy s;
     _votingPowerCheckpoints := _votingPowerCheckpoints s;
     _delegatorList := _delegatorList s;
     _delegationTimestamps := _delegationTimestamps s;
     _delegatorsToOwners := _delegatorsToOwners s |}.

Definition set_delegators (v : gmap address DelegatorInfo) (l : list address)
    (s : storage) : storage :=
  {| this := this s; owner := owner s; _status := _status s;
     delegationCap := delegationCap s;
     delegationPeriodRequirement := delegationPeriodRequirement s;
     autoExpiryPeriod := autoExpiryPeriod s;
     _delegators := v; _delegations := _delegations s;
     _totalDelegated := _totalDelegated s; _totalDelegatedBy := _totalDelegatedBy s;
     _votingPowerCheckpoints := _votingPowerCheckpoints s;
     _delegatorList := l;
     _delegationTimestamps := _delegationTimestamps s;
     _delegatorsToOwners := _delegatorsToOwners s |}.

(** The slots written by [delegate], [undelegate] and [redelegate]. *)
Definition set_accounting
    (dels : gmap (address * address) DelegationInfo)
    (total totalBy : gmap address N)
    (cps : gmap address (list (N * N)))
    (stamps : gmap (address * address) N)
    (owners : gmap address (list address))
    (s : storage) : storage :=
  {| this := this s; owner := owner s; _status := _status s;
     delegationCap := delegationCap s;
     delegationPeriodRequirement := delegationPeriodRequirement s;
     autoExpiryPeriod := autoExpiryPeriod s;
     _delegators := _delegators s; _delegations := dels;
     _totalDelegated := total; _totalDelegatedBy := totalBy;
     _votingPowerCheckpoints := cps;
     _delegatorList := _delegatorList s;
     _delegationTimestamps := stamps;
     _delegatorsToOwners := owners |}.

Definition lift {A} (r : result Ledger.error A) : result error A :=
  match r with
  | Ok a => Ok a
  | Revert e => Revert (TokenError e)
  end.

(** *** Views *)

Definition getDelegatorInfo (s : storage) (d : address) : DelegatorInfo :=
  default noDelegator (_delegators s !! d).

Definition isRegisteredDelegator (s : storage) (a : address) : bool :=
  negb (registeredAt (getDelegatorInfo s a) =? 0) && isActive (getDelegatorInfo s a).

Definition getTotalDelegated (s : storage) (d : address) : N := getN (_totalDelegated s) d.

Definition getTotalDelegatedBy (s : storage) (o : address) : N := getN (_totalDelegatedBy s) o.

(** [_delegations[owner][delegator]] *)
Definition getDelegation (s : storage) (o d : address) : DelegationInfo :=
  default noDelegation (_delegations s !! (o, d)).

(** [_delegationTimestamps[delegator][owner]] *)
Definition delegationTimestamp (s : storage) (d o : address) : N :=
  getN (_delegationTimestamps s) (d, o).

(** [_delegatorsToOwners[delegator]] *)
Definition ownersOf (s : storage) (d : address) : list address :=
  default [] (_delegatorsToOwners s !! d).

(** [getAllDelegators()] *)
Definition getAllDelegators (s : storage) : list address := _delegatorList s.

(** *** Constructor *)

Definition constructor (self vTON_ initialOwner : address) : result error storage :=
  _ ← require (negb (initialOwner =? 0)) OwnableInvalidOwner;
  _ ← require (negb ((vTON_ =? 0) || (initialOwner =? 0))) ZeroAddress;
  Ok {| this := self; owner := initialOwner; _status := false;
        delegationCap := DEFAULT_CAP;
        delegationPeriodRequirement := DEFAULT_PERIOD;
        autoExpiryPeriod := 0;
        _delegators := ∅; _delegations := ∅;
        _totalDelegated := ∅; _totalDelegatedBy := ∅;
        _votingPowerCheckpoints := ∅;
        _delegatorList := [];
        _delegationTimestamps := ∅;
        _delegatorsToOwners := ∅ |}.

(** *** Delegator registration *)

Definition registerDelegator (env : Env) (profile_ philosophy_ interests_ : string)
    (s : storage) : result error storage :=
  _ ← require (negb (String.length profile_ =? 0)%nat) EmptyProfile;
  _ ← require (registeredAt (getDelegatorInfo s (msg_sender env)) =? 0)
        AlreadyRegisteredDelegator;
  Ok (set_delegators
        (<[msg_sender env :=
             {| profile := profile_; votingPhilosophy := philosophy_;
                interests := interests_;
                registeredAt := block_timestamp env; isActive := true |}]>
           (_delegators s))
        (_delegatorList s ++ [msg_sender env]) s).

Definition updateDelegator (env : Env) (profile_ philosophy_ interests_ : string)
    (s : storage) : result error storage :=
  _ ← require (negb (String.length profile_ =? 0)%nat) EmptyProfile;
  let info := getDelegatorInfo s (msg_sender env) in
  _ ← require (negb (registeredAt info =? 0)) NotRegisteredDelegator;
  Ok (set_delegators
        (<[msg_sender env :=
             {| profile := profile_; votingPhilosophy := philosophy_;
                interests := interests_;
                registeredAt := registeredAt info; isActive := isActive info |}]>
           (_delegators s))
        (_delegatorList s) s).

Definition deactivateDelegator (env : Env) (s : storage) : result error storage :=
  let info := getDelegatorInfo s (msg_sender env) in
  _ ← require (negb (registeredAt info =? 0)) NotRegisteredDelegator;
  Ok (set_delegators
        (<[msg_sender env :=
             {| profile := profile info; votingPhilosophy := votingPhilosophy info;
                interests := interests info;
                registeredAt := registeredAt info; isActive := false |}]>
           (_delegators s))
        (_delegatorList s) s).

(** *** Voting-power checkpoints *)

(** Modelled from the spec: OpenZeppelin's [Checkpoints.Trace208.push] is a
    library outside the repository; the spec says that a block-indexed
    checkpoint is appended.  A push at the key of the last checkpoint
    overwrites its value, a push at a smaller key reverts. *)
Definition checkpoint_push (key value : N) (trace : list (N * N))
    : result error (list (N * N)) :=
  match last trace with
  | Some (lastKey, _) =>
      if key <? lastKey then Revert CheckpointUnorderedInsertion
      else if lastKey =? key then Ok (removelast trace ++ [(key, value)])
      else Ok (trace ++ [(key, value)])
  | None => Ok [(key, value)]
  end.

(** [_updateVotingPowerCheckpoint(delegator)] given the new totals: the
    casts to [uint208] and [uint48] truncate. *)
Definition _updateVotingPowerCheckpoint (env : Env) (d : address)
    (total : gmap address N) (cps : gmap address (list (N * N)))
    : result error (gmap address (list (N * N))) :=
  let newPower := getN total d `mod` 2 ^ 208 in
  trace ← checkpoint_push (block_number env `mod` 2 ^ 48) newPower (default [] (cps !! d));
  Ok (<[d := trace]> cps).

(** *** Delegation *)

(** The record written by [delegate] and by the receiving side of
    [redelegate]: the amount is topped up, [delegatedAt] is reset, and the
    expiry is rewritten only when auto-expiry is enabled. *)
Definition topUp (env : Env) (s : storage) (d : address) (old : DelegationInfo)
    (amount_ : N) : result error DelegationInfo :=
  amt ← add_checked (Panic 17) (amount old) amount_;
  expires ← (if 0 <? autoExpiryPeriod s
             then add_checked (Panic 17) (block_timestamp env) (autoExpiryPeriod s)
             else Ok (expiresAt old));
  Ok {| delegator := d; amount := amt;
        delegatedAt := block_timestamp env; expiresAt := expires |}.

(** [delegate(delegator, amount)], [nonReentrant].  The token is vTON, whose
    transfers run no code of the sender or the recipient, so nothing
    happens between the transfer and the writes that follow it. *)
Definition delegate (env : Env) (delegator_ : address) (amount_ : N) (w : world)
    : result error world :=
  let s := reg w in
  let sender := msg_sender env in
  _ ← require (negb (_status s)) ReentrancyGuardReentrantCall;
  _ ← require (negb (delegator_ =? 0)) ZeroAddress;
  _ ← require (negb (amount_ =? 0)) ZeroAmount;
  _ ← require (negb (delegator_ =? sender)) SelfDelegationNotAllowed;
  let info := getDelegatorInfo s delegator_ in
  _ ← require (negb ((registeredAt info =? 0) || negb (isActive info))) DelegatorNotActive;
  (* delegation cap *)
  let totalSupply := Ledger.totalSupply (vTON w) in
  scaled ← mul_checked (Panic 17) totalSupply (delegationCap s);
  let maxDelegation := scaled / MAX_CAP in
  newTotal ← add_checked (Panic 17) (getN (_totalDelegated s) delegator_) amount_;
  _ ← require (newTotal <=? maxDelegation) DelegationCapExceeded;
  (* escrow the tokens *)
  tok ← lift (Ledger.transferFrom (this s) sender (this s) amount_ (vTON w));
  (* delegation record *)
  rec ← topUp env s delegator_ (getDelegation s sender delegator_) amount_;
  let dels := <[(sender, delegator_) := rec]> (_delegations s) in
  (* totals *)
  let total := <[delegator_ := newTotal]> (_totalDelegated s) in
  by_ ← add_checked (Panic 17) (getN (_totalDelegatedBy s) sender) amount_;
  let totalBy := <[sender := by_]> (_totalDelegatedBy s) in
  (* owners list and timestamp *)
  let owners :=
    if delegationTimestamp s delegator_ sender =? 0
    then <[delegator_ := ownersOf s delegator_ ++ [sender]]> (_delegatorsToOwners s)
    else _delegatorsToOwners s in
  let stamps := <[(delegator_, sender) := block_timestamp env]> (_delegationTimestamps s) in
  cps ← _updateVotingPowerCheckpoint env delegator_ total (_votingPowerCheckpoints s);
  Ok {| reg := set_accounting dels total totalBy cps stamps owners s; vTON := tok |}.

(** [undelegate(delegator, amount)], [nonReentrant]. *)
Definition undelegate (env : Env) (delegator_ : address) (amount_ : N) (w : world)
    : result error world :=
  let s := reg w in
  let sender := msg_sender env in
  _ ← require (negb (_status s)) ReentrancyGuardReentrantCall;
  _ ← require (negb (delegator_ =? 0)) ZeroAddress;
  _ ← require (negb (amount_ =? 0)) ZeroAmount;
  let old := getDelegation s sender delegator_ in
  _ ← require (amount_ <=? amount old) InsufficientDelegation;
  let left := amount old - amount_ in
  let dels :=
    if left =? 0 then delete (sender, delegator_) (_delegations s)
    else <[(sender, delegator_) :=
             {| delegator := delegator old; amount := left;
                delegatedAt := delegatedAt old; expiresAt := expiresAt old |}]>
           (_delegations s) in
  let stamps :=
    if left =? 0 then delete (delegator_, sender) (_delegationTimestamps s)
    else _delegationTimestamps s in
  (* totals *)
  t ← sub_checked (Panic 17) (getN (_totalDelegated s) delegator_) amount_;
  let total := <[delegator_ := t]> (_totalDelegated s) in
  by_ ← sub_checked (Panic 17) (getN (_totalDelegatedBy s) sender) amount_;
  let totalBy := <[sender := by_]> (_totalDelegatedBy s) in
  cps ← _updateVotingPowerCheckpoint env delegator_ total (_votingPowerCheckpoints s);
  (* return the tokens *)
  tok ← lift (Ledger.transfer (this s) sender amount_ (vTON w));
  Ok {| reg := set_accounting dels total totalBy cps stamps (_delegatorsToOwners s) s;
        vTON := tok |}.

(** [redelegate(fromDelegator, toDelegator, amount)], [nonReentrant].
    The two records are updated one after the other, so that
    [fromDelegator == toDelegator] reads back its own write. *)
Definition redelegate (env : Env) (fromDelegator toDelegator : address) (amount_ : N)
    (w : world) : result error world :=
  let s := reg w in
  let sender := msg_sender env in
  _ ← require (negb (_status s)) ReentrancyGuardReentrantCall;
  _ ← require (negb ((fromDelegator =? 0) || (toDelegator =? 0))) ZeroAddress;
  _ ← require (negb (amount_ =? 0)) ZeroAmount;
  _ ← require (negb (toDelegator =? sender)) SelfDelegationNotAllowed;
  let toInfo := getDelegatorInfo s toDelegator in
  _ ← require (negb ((registeredAt toInfo =? 0) || negb (isActive toInfo))) DelegatorNotActive;
  let old := getDelegation s sender fromDelegator in
  _ ← require (amount_ <=? amount old) InsufficientDelegation;
  (* delegation cap of the new delegator *)
  let totalSupply := Ledger.totalSupply (vTON w) in
  scaled ← mul_checked (Panic 17) totalSupply (delegationCap s);
  let maxDelegation := scaled / MAX_CAP in
  newTotal ← add_checked (Panic 17) (getN (_totalDelegated s) toDelegator) amount_;
  _ ← require (newTotal <=? maxDelegation) DelegationCapExceeded;
  (* from side *)
  let left := amount old - amount_ in
  let dels1 :=
    if left =? 0 then delete (sender, fromDelegator) (_delegations s)
    else <[(sender, fromDelegator) :=
             {| delegator := delegator old; amount := left;
                delegatedAt := delegatedAt old; expiresAt := expiresAt old |}]>
           (_delegations s) in
  let stamps1 :=
    if left =? 0 then delete (fromDelegator, sender) (_delegationTimestamps s)
    else _delegationTimestamps s in
  t1 ← sub_checked (Panic 17) (getN (_totalDelegated s) fromDelegator) amount_;
  let total1 := <[fromDelegator := t1]> (_totalDelegated s) in
  (* to side *)
  rec ← topUp env s toDelegator (default noDelegation (dels1 !! (sender, toDelegator))) amount_;
  let dels2 := <[(sender, toDelegator) := rec]> dels1 in
  t2 ← add_checked (Panic 17) (getN total1 toDelegator) amount_;
  let total2 := <[toDelegator := t2]> total1 in
  let stamps2 := <[(toDelegator, sender) := block_timestamp env]> stamps1 in
  (* checkpoints *)
  cps1 ← _updateVotingPowerCheckpoint env fromDelegator total2 (_votingPowerCheckpoints s);
  cps2 ← _updateVotingPowerCheckpoint env toDelegator total2 cps1;
  Ok {| reg := set_accounting dels2 total2 (_totalDelegatedBy s) cps2 stamps2
                 (_delegatorsToOwners s) s;
        vTON := vTON w |}.

(** *** Voting power *)

(** One iteration of the loop of [getVotingPower]. *)
Definition votingPowerStep (now cutoffTime : N) (s : storage) (d : address)
    (votingPower : N) (o : address) : result error N :=
  let delegatedAt_ := delegationTimestamp s d o in
  if (0 <? delegatedAt_) && (delegatedAt_ <=? cutoffTime) then
    let delegation := getDelegation s o d in
    if 0 <? amount delegation then
      if (expiresAt delegation =? 0) || (now <? expiresAt delegation)
      then add_checked (Panic 17) votingPower (amount delegation)
      else Ok votingPower
    else Ok votingPower
  else Ok votingPower.

(** [for (i = 0; i < len; i++)] over the owners of the delegator. *)
Fixpoint votingPowerLoop (now cutoffTime : N) (s : storage) (d : address)
    (owners : list address) (votingPower : N) : result error N :=
  match owners with
  | [] => Ok votingPower
  | o :: rest =>
      v ← votingPowerStep now cutoffTime s d votingPower o;
      votingPowerLoop now cutoffTime s d rest v
  end.

(** [getVotingPower(delegator, blockNumber, snapshotBlock)]: the two block
    arguments are unused. *)
Definition getVotingPower (env : Env) (d : address) (blockNumber snapshotBlock : N)
    (s : storage) : result error N :=
  cutoffTime ← sub_checked (Panic 17) (block_timestamp env) (delegationPeriodRequirement s);
  votingPowerLoop (block_timestamp env) cutoffTime s d (ownersOf s d) 0.

(** *** Admin functions *)

Definition setDelegationCap (env : Env) (cap : N) (s : storage) : result error storage :=
  _ ← require (msg_sender env =? owner s) OwnableUnauthorizedAccount;
  _ ← require (cap <=? MAX_CAP) InvalidCap;
  Ok (set_delegationCap cap s).

Definition setDelegationPeriodRequirement (env : Env) (period : N) (s : storage)
    : result error storage :=
  _ ← require (msg_sender env =? owner s) OwnableUnauthorizedAccount;
  Ok (set_delegationPeriodRequirement period s).

Definition setAutoExpiryPeriod (env : Env) (period : N) (s : storage)
    : result error storage :=
  _ ← require (msg_sender env =? owner s) OwnableUnauthorizedAccount;
  Ok (set_autoExpiryPeriod period s).

(** *** Calls and runs *)

(** The state-changing calls of the registry, and the token calls that
    change the ledger it reads ([TokenMint] stands for a mint of the
    already ratio-adjusted amount). *)
Inductive call :=
| RegisterDelegator (profile_ philosophy_ interests_ : string)
| UpdateDelegator (profile_ philosophy_ interests_ : string)
| DeactivateDelegator
| Delegate (delegator_ : address) (amount_ : N)
| Undelegate (delegator_ : address) (amount_ : N)
| Redelegate (fromDelegator toDelegator : address) (amount_ : N)
| SetDelegationCap (cap : N)
| SetDelegationPeriodRequirement (period : N)
| SetAutoExpiryPeriod (period : N)
| TokenMint (to : address) (value : N)
| TokenTransfer (to : address) (value : N)
| TokenApprove (spender : address) (value : N)
| TokenTransferFrom (from to : address) (value : N).

Definition on_reg (w : world) (r : result error storage) : result error world :=
  s ← r; Ok {| reg := s; vTON := vTON w |}.

Definition on_token (w : world) (r : result Ledger.error Ledger.t) : result error world :=
  l ← lift r; Ok {| reg := reg w; vTON := l |}.

Definition exec (env : Env) (c : call) (w : world) : result error world :=
  match c with
  | RegisterDelegator p v i => on_reg w (registerDelegator env p v i (reg w))
  | UpdateDelegator p v i => on_reg w (updateDelegator env p v i (reg w))
  | DeactivateDelegator => on_reg w (deactivateDelegator env (reg w))
  | Delegate d a => delegate env d a w
  | Undelegate d a => undelegate env d a w
  | Redelegate f t a => redelegate env f t a w
  | SetDelegationCap c => on_reg w (setDelegationCap env c (reg w))
  | SetDelegationPeriodRequirement p => on_reg w (setDelegationPeriodRequirement env p (reg w))
  | SetAutoExpiryPeriod p => on_reg w (setAutoExpiryPeriod env p (reg w))
  | TokenMint to v => on_token w (Ledger._mint to v (vTON w))
  | TokenTransfer to v => on_token w (Ledger.transfer (msg_sender env) to v (vTON w))
  | TokenApprove sp v => on_token w (Ok (Ledger.approve (msg_sender env) sp v (vTON w)))
  | TokenTransferFrom f t v =>
      on_token w (Ledger.transferFrom (msg_sender env) f t v (vTON w))
  end.

(** A sequence of transactions; a reverted one leaves the world as it was. *)
Fixpoint run (txs : list (Env * call)) (w : world) : world :=
  match txs with
  | [] => w
  | (env, c) :: rest => run rest (state_after (exec env c w) w)
  end.

(** No successful transaction of the sequence lowers the delegation cap. *)
Fixpoint cap_never_lowered (txs : list (Env * call)) (w : world) : Prop :=
  match txs with
  | [] => True
  | (env, c) :: rest =>
      match exec env c w with
      | Ok w' =>
          delegationCap (reg w) <= delegationCap (reg w') ∧ cap_never_lowered rest w'
      | Revert _ => cap_never_lowered rest w
      end
  end.

(** A freshly deployed registry next to a ledger. *)
Definition deployed (self vTON_ initialOwner : address) (l : Ledger.t) (w : world) : Prop :=
  ∃ s, constructor self vTON_ initialOwner = Ok s ∧ w = {| reg := s; vTON := l |}.

(** The delegation cap bound of a delegator. *)
Definition capBound (w : world) : N :=
  Ledger.totalSupply (vTON w) * delegationCap (reg w) / MAX_CAP.

Definition cap_respected (w : world) : Prop :=
  ∀ d, getTotalDelegated (reg w) d <= capBound w.

(** The sum of the amounts of the delegation records whose key
    [(owner, delegator)] satisfies [P]. *)
Definition amountSum (P : address * address → Prop) `{∀ k, Decision (P k)}
    (m : gmap (address * address) DelegationInfo) : N :=
  map_fold (λ k v acc, if decide (P k) then acc + amount v else acc) 0 m.

(** The sum of the amounts of the delegation records of an owner. *)
Definition delegatedSum (o : address) (m : gmap (address * address) DelegationInfo) : N :=
  amountSum (λ k, k.1 = o) m.

(** The sum of the amounts of the delegation records made to a delegator. *)
Definition delegatedToSum (d : address) (m : gmap (address * address) DelegationInfo) : N :=
  amountSum (λ k, k.2 = d) m.

(** What an owner holds: the free balance plus what is in escrow. *)
Definition holdings (w : world) (o : address) : N :=
  Ledger.balanceOf (vTON w) o + delegatedSum o (_delegations (reg w)).

End Registry.

(** ** Timelock: delayed execution *)

Module Timelock.

Inductive error :=
| NotAdmin
| NotGovernor
| NotSecurityCouncil
| TransactionNotQueued
| TransactionAlreadyQueued
| TransactionNotReady
| TransactionExpired
| TransactionAlreadyCanceled
| ExecutionFailed
| ZeroAddress
| InvalidDelay
| ReentrancyGuardReentrantCall
| Panic (code : N).

Definition MINIMUM_DELAY : N := 3600.
Definition MAXIMUM_DELAY : N := 30 * 86400.
Definition GRACE_PERIOD : N := 14 * 86400.

Abbreviation bytes := (list N).
Abbreviation bytes32 := N.

Record state := {
  admin : address;
  governor : address;
  securityCouncil : address;
  delay : N;
  _status : bool;
  queuedTransactions : gmap bytes32 bool;
  canceledTransactions : gmap bytes32 bool;
  transactionEta : gmap bytes32 N
}.

(** What the external call [target.call{value: value}(data)] does: whether
    it succeeds and what it returns.  What the callee does, calls back into
    the timelock included, is outside [executeTransaction]: the function
    writes nothing after the call, so a callback has the effect of a call
    made right after it. *)
Record CallOutcome := {
  success : bool;
  returndata : bytes
}.

Definition set_queue (q c : gmap bytes32 bool) (e : gmap bytes32 N) (st : state) : state :=
  {| admin := admin st; governor := governor st;
     securityCouncil := securityCouncil st; delay := delay st;
     _status := _status st;
     queuedTransactions := q; canceledTransactions := c; transactionEta := e |}.

Definition set_roles (a g c : address) (d : N) (st : state) : state :=
  {| admin := a; governor := g; securityCouncil := c; delay := d;
     _status := _status st;
     queuedTransactions := queuedTransactions st;
     canceledTransactions := canceledTransactions st;
     transactionEta := transactionEta st |}.

Definition constructor (admin_ : address) (delay_ : N) : result error state :=
  _ ← require (negb (admin_ =? 0)) ZeroAddress;
  _ ← require (negb ((delay_ <? MINIMUM_DELAY) || (MAXIMUM_DELAY <? delay_))) InvalidDelay;
  Ok {| admin := admin_; governor := 0; securityCouncil := 0; delay := delay_;
        _status := false;
        queuedTransactions := ∅; canceledTransactions := ∅; transactionEta := ∅ |}.

Section Hashing.

(** [keccak256(abi.encode(target, value, data, eta))] *)
Variable getTransactionHash : address → N → bytes → N → bytes32.

(** [queueTransaction(target, value, data)], [onlyGovernor]. *)
Definition queueTransaction (env : Env) (target : address) (value : N) (data : bytes)
    (st : state) : result error (state * bytes32) :=
  _ ← require (msg_sender env =? governor st) NotGovernor;
  eta ← add_checked (Panic 17) (block_timestamp env) (delay st);
  let txHash := getTransactionHash target value data eta in
  _ ← require (negb (getB (queuedTransactions st) txHash)) TransactionAlreadyQueued;
  Ok (set_queue (<[txHash := true]> (queuedTransactions st))
                (canceledTransactions st)
                (<[txHash := eta]> (transactionEta st)) st,
      txHash).

(** [executeTransaction(target, value, data, eta)], [onlyGovernor],
    [nonReentrant]; [outcome] is the result of the call to the target. *)
Definition executeTransaction (env : Env) (target : address) (value : N) (data : bytes)
    (eta : N) (outcome : CallOutcome) (st : state) : result error (state * bytes) :=
  _ ← require (msg_sender env =? governor st) NotGovernor;
  _ ← require (negb (_status st)) ReentrancyGuardReentrantCall;
  let txHash := getTransactionHash target value data eta in
  _ ← require (getB (queuedTransactions st) txHash) TransactionNotQueued;
  _ ← require (negb (getB (canceledTransactions st) txHash)) TransactionAlreadyCanceled;
  _ ← require (negb (block_timestamp env <? eta)) TransactionNotReady;
  deadline ← add_checked (Panic 17) eta GRACE_PERIOD;
  _ ← require (negb (deadline <? block_timestamp env)) TransactionExpired;
  let st' := set_queue (<[txHash := false]> (queuedTransactions st))
                       (canceledTransactions st) (transactionEta st) st in
  _ ← require (success outcome) ExecutionFailed;
  Ok (st', returndata outcome).

(** [cancelTransaction(target, value, data, eta)], [onlySecurityCouncil]. *)
Definition cancelTransaction (env : Env) (target : address) (value : N) (data : bytes)
    (eta : N) (st : state) : result error state :=
  _ ← require (msg_sender env =? securityCouncil st) NotSecurityCouncil;
  let txHash := getTransactionHash target value data eta in
  _ ← require (getB (queuedTransactions st) txHash) TransactionNotQueued;
  Ok (set_queue (queuedTransactions st)
                (<[txHash := true]> (canceledTransactions st))
                (transactionEta st) st).

End Hashing.

(** [cancelTransactionByHash(txHash)], [onlySecurityCouncil]. *)
Definition cancelTransactionByHash (env : Env) (txHash : bytes32) (st : state)
    : result error state :=
  _ ← require (msg_sender env =? securityCouncil st) NotSecurityCouncil;
  _ ← require (getB (queuedTransactions st) txHash) TransactionNotQueued;
  Ok (set_queue (queuedTransactions st)
                (<[txHash := true]> (canceledTransactions st))
                (transactionEta st) st).

Definition setGovernor (env : Env) (newGovernor : address) (st : state) : result error state :=
  _ ← require (msg_sender env =? admin st) NotAdmin;
  _ ← require (negb (newGovernor =? 0)) ZeroAddress;
  Ok (set_roles (admin st) newGovernor (securityCouncil st) (delay st) st).

Definition setSecurityCouncil (env : Env) (newCouncil : address) (st : state)
    : result error state :=
  _ ← require (msg_sender env =? admin st) NotAdmin;
  _ ← require (negb (newCouncil =? 0)) ZeroAddress;
  Ok (set_roles (admin st) (governor st) newCouncil (delay st) st).

Definition setDelay (env : Env) (newDelay : N) (st : state) : result error state :=
  _ ← require (msg_sender env =? admin st) NotAdmin;
  _ ← require (negb ((newDelay <? MINIMUM_DELAY) || (MAXIMUM_DELAY <? newDelay))) InvalidDelay;
  Ok (set_roles (admin st) (governor st) (securityCouncil st) newDelay st).

Definition setAdmin (env : Env) (newAdmin : address) (st : state) : result error state :=
  _ ← require (msg_sender env =? admin st) NotAdmin;
  _ ← require (negb (newAdmin =? 0)) ZeroAddress;
  Ok (set_roles newAdmin (governor st) (securityCouncil st) (delay st) st).

Definition isQueued (st : state) (txHash : bytes32) : bool :=
  getB (queuedTransactions st) txHash && negb (getB (canceledTransactions st) txHash).

(** [isReady(txHash)]: the conjunction is short-circuited, so the deadline
    is only computed for an eta that has come. *)
Definition isReady (env : Env) (txHash : bytes32) (st : state) : result error bool :=
  if negb (getB (queuedTransactions st) txHash) || getB (canceledTransactions st) txHash
  then Ok false
  else
    let eta := getN (transactionEta st) txHash in
    if eta <=? block_timestamp env then
      deadline ← add_checked (Panic 17) eta GRACE_PERIOD;
      Ok (block_timestamp env <=? deadline)
    else Ok false.

Section Calls.

Variable getTransactionHash : address → N → bytes → N → bytes32.

(** The state-changing entry points of the timelock. *)
Inductive call :=
| QueueTransaction (target : address) (value : N) (data : bytes)
| ExecuteTransaction (target : address) (value : N) (data : bytes) (eta : N)
    (outcome : CallOutcome)
| CancelTransaction (target : address) (value : N) (data : bytes) (eta : N)
| CancelTransactionByHash (txHash : bytes32)
| SetGovernor (newGovernor : address)
| SetSecurityCouncil (newCouncil : address)
| SetDelay (newDelay : N)
| SetAdmin (newAdmin : address).

Definition exec (env : Env) (c : call) (st : state) : result error state :=
  match c with
  | QueueTransaction t v d => fst <$> queueTransaction getTransactionHash env t v d st
  | ExecuteTransaction t v d eta o =>
      fst <$> executeTransaction getTransactionHash env t v d eta o st
  | CancelTransaction t v d eta => cancelTransaction getTransactionHash env t v d eta st
  | CancelTransactionByHash h => cancelTransactionByHash env h st
  | SetGovernor g => setGovernor env g st
  | SetSecurityCouncil c => setSecurityCouncil env c st
  | SetDelay d => setDelay env d st
  | SetAdmin a => setAdmin env a st
  end.

(** A sequence of transactions; a reverted one leaves the state as it was. *)
Fixpoint run (txs : list (Env * call)) (st : state) : state :=
  match txs with
  | [] => st
  | (env, c) :: rest => run rest (state_after (exec env c st) st)
  end.

End Calls.

(** The four conditions on the entry of a transaction hash that the
    specification lists for execution. *)
Definition executable (st : state) (now : N) (txHash : bytes32) (eta : N) : Prop :=
  getB (queuedTransactions st) txHash = true ∧
  getB (canceledTransactions st) txHash = false ∧
  eta <= now ∧ now <= eta + GRACE_PERIOD.

End Timelock.

(** ** SecurityCouncil: the emergency multi-signature body *)

Module Council.

Inductive error :=
| NotMember
| AlreadyMember
| NotEnoughMembers
| InvalidThreshold
| ActionNotFound
| ActionAlreadyExecuted
| ActionNotApproved
| AlreadyApproved
| ZeroAddress
| CannotRemoveLastFoundationMember
| OnlyDAOCanModifyMembers
| ExecutionFailed
| ReentrancyGuardReentrantCall
| EnforcedPause
| ExpectedPause
| Panic (code : N).

Definition MIN_MEMBERS : N := 2.

Abbreviation bytes := (list N).

Inductive ActionType :=
| CancelProposal
| EmergencyUpgrade
| PauseProtocol
| UnpauseProtocol
| Custom.

Record Member := {
  account : address;
  isFoundation : bool;
  addedAt : N
}.

Record EmergencyAction := {
  id : N;
  actionType : ActionType;
  target : address;
  data : bytes;
  reason : string;
  createdAt : N;
  executedAt : N;
  executed : bool;
  approvers : list address
}.

(** The value of [_actions[id]] for an id that was never written. *)
Definition noAction : EmergencyAction :=
  {| id := 0; actionType := CancelProposal; target := 0; data := []; reason := "";
     createdAt := 0; executedAt := 0; executed := false; approvers := [] |}.

Record state := {
  daoGovernor : address;
  timelockAddress : address;
  protocolTarget : address;
  threshold : N;
  _actionCount : N;
  _members : list Member;
  _isMember : gmap address bool;
  _memberIndex : gmap address N;
  _actions : gmap N EmergencyAction;
  _pendingActionIds : list N;
  _approvals : gmap (N * address) bool;
  _paused : bool;
  _status : bool
}.

Definition set_membership (t : N) (ms : list Member) (im : gmap address bool)
    (ix : gmap address N) (st : state) : state :=
  {| daoGovernor := daoGovernor st; timelockAddress := timelockAddress st;
     protocolTarget := protocolTarget st;
     threshold := t; _actionCount := _actionCount st;
     _members := ms; _isMember := im; _memberIndex := ix;
     _actions := _actions st; _pendingActionIds := _pendingActionIds st;
     _approvals := _approvals st; _paused := _paused st; _status := _status st |}.

Definition set_actions (n : N) (acts : gmap N EmergencyAction) (pending : list N)
    (apr : gmap (N * address) bool) (st : state) : state :=
  {| daoGovernor := daoGovernor st; timelockAddress := timelockAddress st;
     protocolTarget := protocolTarget st;
     threshold := threshold st; _actionCount := n;
     _members := _members st; _isMember := _isMember st;
     _memberIndex := _memberIndex st;
     _actions := acts; _pendingActionIds := pending;
     _approvals := apr; _paused := _paused st; _status := _status st |}.

Definition set_paused (p : bool) (st : state) : state :=
  {| daoGovernor := daoGovernor st; timelockAddress := timelockAddress st;
     protocolTarget := protocolTarget st;
     threshold := threshold st; _actionCount := _actionCount st;
     _members := _members st; _isMember := _isMember st;
     _memberIndex := _memberIndex st;
     _actions := _actions st; _pendingActionIds := _pendingActionIds st;
     _approvals := _approvals st; _paused := p; _status := _status st |}.

Definition set_config (dao tgt : address) (st : state) : state :=
  {| daoGovernor := dao; timelockAddress := timelockAddress st;
     protocolTarget := tgt;
     threshold := threshold st; _actionCount := _actionCount st;
     _members := _members st; _isMember := _isMember st;
     _memberIndex := _memberIndex st;
     _actions := _actions st; _pendingActionIds := _pendingActionIds st;
     _approvals := _approvals st; _paused := _paused st; _status := _status st |}.

(** *** Views *)

Definition memberCount (st : state) : N := N.of_nat (length (_members st)).

Definition foundationMemberCount (st : state) : N :=
  N.of_nat (length (filter (λ m, isFoundation m = true) (_members st))).

(** [externalMemberCount()]: a checked subtraction. *)
Definition externalMemberCount (st : state) : result error N :=
  sub_checked (Panic 17) (memberCount st) (foundationMemberCount st).

Definition isMember (st : state) (a : address) : bool := getB (_isMember st) a.

Definition getEmergencyAction (st : state) (actionId : N) : EmergencyAction :=
  default noAction (_actions st !! actionId).

Definition getPendingActions (st : state) : list N := _pendingActionIds st.

Definition isActionApproved (st : state) (actionId : N) : bool :=
  threshold st <=? N.of_nat (length (approvers (getEmergencyAction st actionId))).

(** *** Internal functions *)

(** [_addMember(member, isFoundation)] *)
Definition _addMember (env : Env) (member : address) (isFoundation_ : bool) (st : state)
    : state :=
  set_membership (threshold st)
    (_members st ++ [{| account := member; isFoundation := isFoundation_;
                        addedAt := block_timestamp env |}])
    (<[member := true]> (_isMember st))
    (<[member := memberCount st]> (_memberIndex st)) st.

(** [_removeMember(member)]: swap with the last member, then pop. *)
Definition _removeMember (member : address) (st : state) : result error state :=
  let index := getN (_memberIndex st) member in
  lastIndex ← sub_checked (Panic 17) (memberCount st) 1;
  '(ms, ix) ←
    (if index =? lastIndex then Ok (_members st, _memberIndex st)
     else
       match _members st !! N.to_nat lastIndex with
       | None => Revert (Panic 50)
       | Some lastMember =>
           _ ← require (index <? memberCount st) (Panic 50);
           Ok (<[N.to_nat index := lastMember]> (_members st),
               <[account lastMember := index]> (_memberIndex st))
       end);
  Ok (set_membership (threshold st) (removelast ms)
        (<[member := false]> (_isMember st)) (delete member ix) st).

(** The position of the first occurrence, as the loop finds it. *)
Fixpoint indexOf (x : N) (l : list N) : option nat :=
  match l with
  | [] => None
  | y :: rest => if y =? x then Some 0%nat else S <$> indexOf x rest
  end.

(** [_removePendingAction(actionId)]: overwrite the first occurrence with
    the last element, then pop. *)
Definition _removePendingAction (actionId : N) (pending : list N) : list N :=
  match indexOf actionId pending, last pending with
  | Some i, Some x => removelast (<[i := x]> pending)
  | _, _ => pending
  end.

(** *** Constructor *)

Fixpoint addExternalMembers (env : Env) (externalMembers : list address) (st : state)
    : result error state :=
  match externalMembers with
  | [] => Ok st
  | m :: rest =>
      _ ← require (negb (m =? 0)) ZeroAddress;
      addExternalMembers env rest (_addMember env m false st)
  end.

Definition constructor (env : Env) (foundationMember : address)
    (externalMembers : list address) (daoGovernor_ timelock_ protocolTarget_ : address)
    : result error state :=
  _ ← require (negb ((foundationMember =? 0) || (daoGovernor_ =? 0) || (timelock_ =? 0)))
        ZeroAddress;
  let st0 := {| daoGovernor := 0; timelockAddress := 0; protocolTarget := 0;
                threshold := 0; _actionCount := 0;
                _members := []; _isMember := ∅; _memberIndex := ∅;
                _actions := ∅; _pendingActionIds := []; _approvals := ∅;
                _paused := false; _status := false |} in
  st1 ← addExternalMembers env externalMembers (_addMember env foundationMember true st0);
  let memberCount_ := memberCount st1 in
  Ok {| daoGovernor := daoGovernor_; timelockAddress := timelock_;
        protocolTarget := protocolTarget_;
        threshold := (memberCount_ * 2 + 2) / 3;
        _actionCount := _actionCount st1;
        _members := _members st1; _isMember := _isMember st1;
        _memberIndex := _memberIndex st1;
        _actions := _actions st1; _pendingActionIds := _pendingActionIds st1;
        _approvals := _approvals st1; _paused := _paused st1; _status := _status st1 |}.

(** *** Member management ([onlyDAO]) *)

Definition addMember (env : Env) (member : address) (isFoundation_ : bool) (st : state)
    : result error state :=
  _ ← require (msg_sender env =? daoGovernor st) OnlyDAOCanModifyMembers;
  _ ← require (negb (member =? 0)) ZeroAddress;
  _ ← require (negb (isMember st member)) AlreadyMember;
  Ok (_addMember env member isFoundation_ st).

Definition removeMember (env : Env) (member : address) (st : state) : result error state :=
  _ ← require (msg_sender env =? daoGovernor st) OnlyDAOCanModifyMembers;
  _ ← require (isMember st member) NotMember;
  _ ← require (negb (memberCount st <=? MIN_MEMBERS)) NotEnoughMembers;
  let index := getN (_memberIndex st) member in
  m ← match _members st !! N.to_nat index with
      | Some m => Ok m
      | None => Revert (Panic 50)
      end;
  _ ← require (negb (isFoundation m && (foundationMemberCount st =? 1)))
        CannotRemoveLastFoundationMember;
  st1 ← _removeMember member st;
  Ok (if memberCount st1 <? threshold st1
      then set_membership (memberCount st1) (_members st1) (_isMember st1)
             (_memberIndex st1) st1
      else st1).

Definition setThreshold (env : Env) (newThreshold : N) (st : state) : result error state :=
  _ ← require (msg_sender env =? daoGovernor st) OnlyDAOCanModifyMembers;
  _ ← require (negb ((newThreshold =? 0) || (memberCount st <? newThreshold)))
        InvalidThreshold;
  Ok (set_membership newThreshold (_members st) (_isMember st) (_memberIndex st) st).

Definition setDAOGovernor (env : Env) (newGovernor : address) (st : state)
    : result error state :=
  _ ← require (msg_sender env =? daoGovernor st) OnlyDAOCanModifyMembers;
  _ ← require (negb (newGovernor =? 0)) ZeroAddress;
  Ok (set_config newGovernor (protocolTarget st) st).

Definition setProtocolTarget (env : Env) (newTarget : address) (st : state)
    : result error state :=
  _ ← require (msg_sender env =? daoGovernor st) OnlyDAOCanModifyMembers;
  _ ← require (negb (newTarget =? 0)) ZeroAddress;
  Ok (set_config (daoGovernor st) newTarget st).

(** *** Emergency actions ([onlyMember]) *)

(** The common body of [proposeEmergencyAction] and of the three
    convenience functions: a new action with the caller as first approver. *)
Definition newAction (env : Env) (actionType_ : ActionType) (target_ : address)
    (data_ : bytes) (reason_ : string) (st : state) : result error (state * N) :=
  let actionId := _actionCount st in
  next ← add_checked (Panic 17) actionId 1;
  let action := {| id := actionId; actionType := actionType_; target := target_;
                   data := data_; reason := reason_;
                   createdAt := block_timestamp env; executedAt := 0;
                   executed := false; approvers := [msg_sender env] |} in
  Ok (set_actions next (<[actionId := action]> (_actions st))
        (_pendingActionIds st ++ [actionId])
        (<[(actionId, msg_sender env) := true]> (_approvals st)) st,
      actionId).

Definition proposeEmergencyAction (env : Env) (actionType_ : ActionType)
    (target_ : address) (data_ : bytes) (reason_ : string) (st : state)
    : result error (state * N) :=
  _ ← require (isMember st (msg_sender env)) NotMember;
  newAction env actionType_ target_ data_ reason_ st.

Definition with_approver (a : address) (act : EmergencyAction) : EmergencyAction :=
  {| id := id act; actionType := actionType act; target := target act;
     data := data act; reason := reason act; createdAt := createdAt act;
     executedAt := executedAt act; executed := executed act;
     approvers := approvers act ++ [a] |}.

Definition with_executed (e : bool) (at_ : N) (act : EmergencyAction) : EmergencyAction :=
  {| id := id act; actionType := actionType act; target := target act;
     data := data act; reason := reason act; createdAt := createdAt act;
     executedAt := at_; executed := e;
     approvers := approvers act |}.

Definition approveEmergencyAction (env : Env) (actionId : N) (st : state)
    : result error state :=
  _ ← require (isMember st (msg_sender env)) NotMember;
  let action := getEmergencyAction st actionId in
  _ ← require (negb (createdAt action =? 0)) ActionNotFound;
  _ ← require (negb (executed action)) ActionAlreadyExecuted;
  _ ← require (negb (getB (_approvals st) (actionId, msg_sender env))) AlreadyApproved;
  Ok (set_actions (_actionCount st)
        (<[actionId := with_approver (msg_sender env) action]> (_actions st))
        (_pendingActionIds st)
        (<[(actionId, msg_sender env) := true]> (_approvals st)) st).

(** [executeEmergencyAction(actionId)], [nonReentrant]; [callSucceeds] is
    the result of [action.target.call(action.data)], consulted only for the
    action types that make the call.  What the callee does, calls back into
    the council included, is outside this function: it writes nothing
    after the call, so a callback has the effect of a call made right
    after it. *)
Definition executeEmergencyAction (env : Env) (actionId : N) (callSucceeds : bool)
    (st : state) : result error state :=
  _ ← require (isMember st (msg_sender env)) NotMember;
  _ ← require (negb (_status st)) ReentrancyGuardReentrantCall;
  let action := getEmergencyAction st actionId in
  _ ← require (negb (createdAt action =? 0)) ActionNotFound;
  _ ← require (negb (executed action)) ActionAlreadyExecuted;
  _ ← require (negb (N.of_nat (length (approvers action)) <? threshold st))
        ActionNotApproved;
  let st1 := set_actions (_actionCount st)
               (<[actionId := with_executed true (block_timestamp env) action]> (_actions st))
               (_removePendingAction actionId (_pendingActionIds st))
               (_approvals st) st in
  match actionType action with
  | PauseProtocol =>
      _ ← require (negb (_paused st1)) EnforcedPause;
      Ok (set_paused true st1)
  | UnpauseProtocol =>
      _ ← require (_paused st1) ExpectedPause;
      Ok (set_paused false st1)
  | _ =>
      _ ← require callSucceeds ExecutionFailed;
      Ok st1
  end.

Definition cancelEmergencyAction (env : Env) (actionId : N) (st : state)
    : result error state :=
  _ ← require (isMember st (msg_sender env)) NotMember;
  let action := getEmergencyAction st actionId in
  _ ← require (negb (createdAt action =? 0)) ActionNotFound;
  _ ← require (negb (executed action)) ActionAlreadyExecuted;
  Ok (set_actions (_actionCount st)
        (<[actionId := with_executed true (executedAt action) action]> (_actions st))
        (_removePendingAction actionId (_pendingActionIds st))
        (_approvals st) st).

Section Encoding.

(** [abi.encodeWithSignature(signature, args)] *)
Variable encodeWithSignature : string → list N → bytes.

Definition cancelProposal (env : Env) (proposalId : N) (st : state)
    : result error (state * N) :=
  _ ← require (isMember st (msg_sender env)) NotMember;
  newAction env CancelProposal (timelockAddress st)
    (encodeWithSignature "cancelProposal(uint256)" [proposalId])
    "Cancel malicious proposal" st.

Definition pauseProtocol (env : Env) (reason_ : string) (st : state)
    : result error (state * N) :=
  _ ← require (isMember st (msg_sender env)) NotMember;
  newAction env PauseProtocol (protocolTarget st)
    (encodeWithSignature "pause()" []) reason_ st.

Definition unpauseProtocol (env : Env) (st : state) : result error (state * N) :=
  _ ← require (isMember st (msg_sender env)) NotMember;
  newAction env UnpauseProtocol (protocolTarget st)
    (encodeWithSignature "unpause()" []) "Unpause protocol" st.

(** *** Calls and reachable states *)

Inductive call :=
| AddMember (member : address) (isFoundation_ : bool)
| RemoveMember (member : address)
| SetThreshold (newThreshold : N)
| SetDAOGovernor (newGovernor : address)
| SetProtocolTarget (newTarget : address)
| ProposeEmergencyAction (actionType_ : ActionType) (target_ : address)
    (data_ : bytes) (reason_ : string)
| ApproveEmergencyAction (actionId : N)
| ExecuteEmergencyAction (actionId : N) (callSucceeds : bool)
| CancelEmergencyAction (actionId : N)
| CancelProposalCall (proposalId : N)
| PauseProtocolCall (reason_ : string)
| UnpauseProtocolCall.

Definition exec (env : Env) (c : call) (st : state) : result error state :=
  match c with
  | AddMember m f => addMember env m f st
  | RemoveMember m => removeMember env m st
  | SetThreshold t => setThreshold env t st
  | SetDAOGovernor g => setDAOGovernor env g st
  | SetProtocolTarget t => setProtocolTarget env t st
  | ProposeEmergencyAction ty tg d r => fst <$> proposeEmergencyAction env ty tg d r st
  | ApproveEmergencyAction i => approveEmergencyAction env i st
  | ExecuteEmergencyAction i ok => executeEmergencyAction env i ok st
  | CancelEmergencyAction i => cancelEmergencyAction env i st
  | CancelProposalCall p => fst <$> cancelProposal env p st
  | PauseProtocolCall r => fst <$> pauseProtocol env r st
  | UnpauseProtocolCall => fst <$> unpauseProtocol env st
  end.

(** The states the council can be in: the constructor's, and the result of
    a successful call on a reachable state. *)
Inductive reachable : state → Prop :=
| reach_init env f ext dao tl tgt st :
    constructor env f ext dao tl tgt = Ok st → reachable st
| reach_step env c st st' :
    reachable st → exec env c st = Ok st' → reachable st'.

(** A sequence of transactions; a reverted one leaves the state as it was. *)
Fixpoint run (txs : list (Env * call)) (st : state) : state :=
  match txs with
  | [] => st
  | (env, c) :: rest => run rest (state_after (exec env c st) st)
  end.

End Encoding.

End Council.

(** ** DAOGovernor: proposal cancellation *)

Module Governor.

Inductive ProposalState :=
| Pending
| Active
| Canceled
| Defeated
| Succeeded
| Queued
| Expired
| Executed.

Inductive error :=
| NotAuthorizedToCancel
| InvalidProposalState.

(** The states from which nothing further can happen to a proposal. *)
Definition terminal (s : ProposalState) : bool :=
  match s with
  | Executed | Canceled | Expired => true
  | _ => false
  end.

(** The states in which the guardian may cancel. *)
Definition guardianCancellable (s : ProposalState) : bool :=
  match s with
  | Pending | Active | Succeeded | Queued => true
  | _ => false
  end.

(** Modelled from the spec: [DAOGovernor.sol] is not under src/ (only its
    test suite is).  [cancel(id)] is permitted to the original proposer in
    every state except the terminal ones, which fail with
    [InvalidProposalState]; to the configured proposal guardian only while
    the state is Pending, Active, Succeeded or Queued; anyone else fails
    with [NotAuthorizedToCancel].  [current] is the derived state of the
    proposal at the time of the call; the result is its state afterwards. *)
Definition cancel (caller proposer proposalGuardian : address) (current : ProposalState)
    : result error ProposalState :=
  if caller =? proposer then
    if terminal current then Revert InvalidProposalState else Ok Canceled
  else if caller =? proposalGuardian then
    if guardianCancellable current then Ok Canceled else Revert InvalidProposalState
  else Revert NotAuthorizedToCancel.

End Governor.

(** ** Invariants *)

(** What holds of the council in every reachable state: the threshold is
    between one and the number of members; the pending ids are distinct
    and were all issued; an action that is not marked executed has no
    execution time; no call is in progress. *)
Definition council_inv (st : Council.state) : Prop :=
  1 <= Council.threshold st ∧
  Council.threshold st <= Council.memberCount st ∧
  NoDup (Council._pendingActionIds st) ∧
  (∀ i, i ∈ Council._pendingActionIds st → i < Council._actionCount st) ∧
  (∀ i a, Council._actions st !! i = Some a →
     Council.executed a = false → Council.executedAt a = 0) ∧
  Council._status st = false.

(** The member array and the two mappings beside it describe the same set:
    no account is listed twice, the membership flag is set exactly for the
    listed accounts, and the index mapping gives each listed account its
    position. *)
Definition council_members_inv (st : Council.state) : Prop :=
  NoDup (Council.account <$> Council._members st) ∧
  (∀ a, Council.isMember st a = true ↔ a ∈ (Council.account <$> Council._members st)) ∧
  (∀ i m, Council._members st !! i = Some m →
     getN (Council._memberIndex st) (Council.account m) = N.of_nat i).

(** The bookkeeping of the actions: stored actions carry their own id,
    which was issued; their approver lists have no duplicates and agree
    with the approval flags; and the pending list holds exactly the stored
    actions that are not marked executed. *)
Definition council_actions_inv (st : Council.state) : Prop :=
  (∀ i a, Council._actions st !! i = Some a →
     i < Council._actionCount st ∧ Council.id a = i ∧
     NoDup (Council.approvers a) ∧
     ∀ x, x ∈ Council.approvers a → getB (Council._approvals st) (i, x) = true) ∧
  (∀ i, i ∈ Council._pendingActionIds st ↔
     ∃ a, Council._actions st !! i = Some a ∧ Council.executed a = false).

(** What an action keeps for ever once it is stored. *)
Definition same_payload (a b : Council.EmergencyAction) : Prop :=
  Council.id a = Council.id b ∧
  Council.actionType a = Council.actionType b ∧
  Council.target a = Council.target b ∧
  Council.data a = Council.data b ∧
  Council.reason a = Council.reason b ∧
  Council.createdAt a = Council.createdAt b.

(** The calls by which an owner moves tokens into and out of escrow. *)
Definition delegation_call (c : Registry.call) : Prop :=
  match c with
  | Registry.Delegate _ _ | Registry.Undelegate _ _ | Registry.Redelegate _ _ _ => True
  | _ => False
  end.

(** What one entry of an owner in the owner list of a delegator adds to the
    voting power: the conditions of the loop body of [getVotingPower]. *)
Definition votingTerm (now cutoffTime : N) (s : Registry.storage) (d o : address) : N :=
  let delegatedAt_ := Registry.delegationTimestamp s d o in
  let delegation := Registry.getDelegation s o d in
  if (0 <? delegatedAt_) && (delegatedAt_ <=? cutoffTime)
     && (0 <? Registry.amount delegation)
     && ((Registry.expiresAt delegation =? 0) || (now <? Registry.expiresAt delegation))
  then Registry.amount delegation
  else 0.

Definition votingSum (now cutoffTime : N) (s : Registry.storage) (d : address)
    (owners : list address) : N :=
  foldr (λ o acc, votingTerm now cutoffTime s d o + acc) 0 owners.

(** How often an owner appears in a list of owners. *)
Definition listings (o : address) (owners : list address) : nat :=
  length (filter (λ x, x = o) owners).

(** The calls by which owner [o] moves stake into the pair (o, d):
    [delegate] to [d] and [redelegate] into [d].  Both write the time of
    the call as the timestamp of the pair. *)
Definition funds_pair (o d : address) (tx : Env * Registry.call) : bool :=
  (msg_sender tx.1 =? o) &&
  match tx.2 with
  | Registry.Delegate d' _ => d' =? d
  | Registry.Redelegate _ t _ => t =? d
  | _ => false
  end.

(** The two ways in which such a call, when it succeeds, leaves the owner
    list of [d] out of step with the pair: [delegate] appends the owner
    although the owner is listed already (a full withdrawal has cleared the
    timestamp), and [redelegate] moves stake into the pair of an owner who
    is not listed, without listing the owner. *)
Definition mislists (o d : address) (tx : Env * Registry.call) (w : Registry.world) : bool :=
  funds_pair o d tx &&
  match Registry.exec tx.1 tx.2 w with
  | Ok _ =>
      match tx.2 with
      | Registry.Delegate _ _ =>
          (Registry.delegationTimestamp (Registry.reg w) d o =? 0)
          && negb (Nat.eqb (listings o (Registry.ownersOf (Registry.reg w) d)) 0)
      | _ => Nat.eqb (listings o (Registry.ownersOf (Registry.reg w) d)) 0
      end
  | Revert _ => false
  end.

(** No transaction of the sequence mislists the owner [o] with [d]. *)
Fixpoint listed_in_step (o d : address) (txs : list (Env * Registry.call))
    (w : Registry.world) : bool :=
  match txs with
  | [] => true
  | (env, c) :: rest =>
      negb (mislists o d (env, c) w)
      && listed_in_step o d rest (state_after (Registry.exec env c w) w)
  end.

(** What holds of the registry and its ledger in every state reached from a
    deployment: the cap is at most 100%, the supply respects the ceiling of
    the token, no delegator holds more than the supply, and the total of a
    delegator is the sum of the records made to it. *)
Definition registry_inv (w : Registry.world) : Prop :=
  Registry.delegationCap (Registry.reg w) <= Registry.MAX_CAP ∧
  Ledger.totalSupply (Registry.vTON w) <= Ledger.MAX_SUPPLY ∧
  (∀ d, Registry.getTotalDelegated (Registry.reg w) d
        <= Ledger.totalSupply (Registry.vTON w)) ∧
  (∀ d, Registry.delegatedToSum d (Registry._delegations (Registry.reg w))
        = Registry.getTotalDelegated (Registry.reg w) d).

(** The delegation records after [amount_] has been taken out of the record
    under [k]: the withdrawing side of [undelegate] and [redelegate], which
    deletes a record that is left empty. *)
Definition withdrawn (k : address * address) (amount_ : N)
    (m : gmap (address * address) Registry.DelegationInfo)
    : gmap (address * address) Registry.DelegationInfo :=
  let old := default Registry.noDelegation (m !! k) in
  if Registry.amount old - amount_ =? 0 then delete k m
  else <[k := {| Registry.delegator := Registry.delegator old;
                 Registry.amount := Registry.amount old - amount_;
                 Registry.delegatedAt := Registry.delegatedAt old;
                 Registry.expiresAt := Registry.expiresAt old |}]> m.

(** The books of the registry: no call is in progress, and what an owner
    has delegated in total is the sum of the owner's records. *)
Definition registry_books_inv (w : Registry.world) : Prop :=
  Registry._status (Registry.reg w) = false ∧
  (∀ o, Registry.delegatedSum o (Registry._delegations (Registry.reg w))
        = Registry.getTotalDelegatedBy (Registry.reg w) o).

(** The sum of the amounts of all delegation records. *)
Definition escrowed (w : Registry.world) : N :=
  Registry.amountSum (λ _, True) (Registry._delegations (Registry.reg w)).

(** The registry holds at least what its records say, and has granted no
    allowance on its own balance. *)
Definition escrow_inv (w : Registry.world) : Prop :=
  escrowed w <= Ledger.balanceOf (Registry.vTON w) (Registry.this (Registry.reg w)) ∧
  (∀ sp, Ledger.allowance (Registry.vTON w) (Registry.this (Registry.reg w)) sp = 0).

(** Modelled from the spec: [latest()] of the checkpoint library outside
    the repository, the value of the last checkpoint of a series, zero for
    an empty one. *)
Definition latest (trace : list (N * N)) : N :=
  match last trace with
  | Some (_, v) => v
  | None => 0
  end.

(** The voting-power checkpoints of a delegator. *)
Definition checkpointsOf (s : Registry.storage) (d : address) : list (N * N) :=
  default [] (Registry._votingPowerCheckpoints s !! d).

(** The delegator was registered and has been deactivated. *)
Definition deactivated (s : Registry.storage) (d : address) : Prop :=
  Registry.registeredAt (Registry.getDelegatorInfo s d) ≠ 0 ∧
  Registry.isActive (Registry.getDelegatorInfo s d) = false.

(** What holds of the timelock in every state reached from its constructor:
    the delay is within its bounds, there is an admin, no call is in
    progress, and a canceled entry is still marked queued. *)
Definition timelock_inv (st : Timelock.state) : Prop :=
  Timelock.MINIMUM_DELAY <= Timelock.delay st ∧
  Timelock.delay st <= Timelock.MAXIMUM_DELAY ∧
  Timelock.admin st ≠ 0 ∧
  Timelock._status st = false ∧
  (∀ h, getB (Timelock.canceledTransactions st) h = true →
        getB (Timelock.queuedTransactions st) h = true).

(** ** Scenarios

    Concrete states and call environments used to exercise the contracts. *)

Definition env_at (sender : address) (now : N) : Env :=
  {| msg_sender := sender; block_timestamp := now; block_number := now / 12 |}.

(** A token owned by account 1 with account 2 as its minter, at the
    initial emission ratio of 100%. *)
Definition vton_with_minter : VTON.state :=
  {| VTON.owner := 1;
     VTON.emissionRatio := VTON.MAX_EMISSION_RATIO;
     VTON._minters := <[2 := true]> ∅;
     VTON.ledger := Ledger.empty |}.

(** A stand-in for [keccak256(abi.encode(...))]; nothing below depends on
    the choice of the hash function. *)
Definition scenario_hash (target : address) (value : N) (data : Timelock.bytes) (eta : N)
    : Timelock.bytes32 :=
  (target * 1000003 + value) * 1000003 + N.of_nat (length data) + eta.

(** A timelock administered by account 1, governed by account 7, with one
    transaction to target 9 queued for eta 5000. *)
Definition timelock_queued : Timelock.state :=
  {| Timelock.admin := 1;
     Timelock.governor := 7;
     Timelock.securityCouncil := 0;
     Timelock.delay := 3600;
     Timelock._status := false;
     Timelock.queuedTransactions := <[scenario_hash 9 0 [] 5000 := true]> ∅;
     Timelock.canceledTransactions := ∅;
     Timelock.transactionEta := <[scenario_hash 9 0 [] 5000 := 5000]> ∅ |}.

(** The timelock as its constructor leaves it, for admin 1 and a delay of
    two hours. *)
Definition timelock_fresh : Timelock.state :=
  {| Timelock.admin := 1;
     Timelock.governor := 0;
     Timelock.securityCouncil := 0;
     Timelock.delay := 7200;
     Timelock._status := false;
     Timelock.queuedTransactions := ∅;
     Timelock.canceledTransactions := ∅;
     Timelock.transactionEta := ∅ |}.

Definition call_fails : Timelock.CallOutcome :=
  {| Timelock.success := false; Timelock.returndata := [] |}.

Definition call_returns (ret : Timelock.bytes) : Timelock.CallOutcome :=
  {| Timelock.success := true; Timelock.returndata := ret |}.

(** A stand-in for [abi.encodeWithSignature]; nothing below depends on the
    encoding. *)
Definition scenario_encode (signature : string) (args : list N) : Council.bytes :=
  N.of_nat (String.length signature) :: args.

(** The council of the deployment: foundation member 11, external members
    12 and 13, governed by the DAO at address 20. *)
Definition council_three : Council.state :=
  {| Council.daoGovernor := 20;
     Council.timelockAddress := 21;
     Council.protocolTarget := 22;
     Council.threshold := 2;
     Council._actionCount := 0;
     Council._members :=
       [ {| Council.account := 11; Council.isFoundation := true; Council.addedAt := 1000 |};
         {| Council.account := 12; Council.isFoundation := false; Council.addedAt := 1000 |};
         {| Council.account := 13; Council.isFoundation := false; Council.addedAt := 1000 |} ];
     Council._isMember := <[13 := true]> (<[12 := true]> (<[11 := true]> ∅));
     Council._memberIndex := <[13 := 2]> (<[12 := 1]> (<[11 := 0]> ∅));
     Council._actions := ∅;
     Council._pendingActionIds := [];
     Council._approvals := ∅;
     Council._paused := false;
     Council._status := false |}.

(** The same council after member 11 proposed a custom action at time 1100. *)
Definition council_pending : Council.state :=
  Council.set_actions 1
    (<[0 := {| Council.id := 0; Council.actionType := Council.Custom;
               Council.target := 30; Council.data := [7]; Council.reason := "Test";
               Council.createdAt := 1100; Council.executedAt := 0;
               Council.executed := false; Council.approvers := [11] |}]> ∅)
    [0]
    (<[(0, 11) := true]> ∅)
    council_three.

(** [council_pending] after members 12 and 13 proposed one more action
    each: the actions 0, 1 and 2 are pending. *)
Definition council_three_pending : Council.state :=
  Council.run scenario_encode
    [ (env_at 12 1150, Council.ProposeEmergencyAction Council.Custom 30 [8] "Second");
      (env_at 13 1160, Council.ProposeEmergencyAction Council.Custom 30 [9] "Third") ]
    council_pending.

(** One token, in its smallest unit ([1 ether]). *)
Definition ether : N := 10 ^ 18.

(** A registry deployed at address 100 for the token at address 50, owned
    by account 1, next to an empty ledger. *)
Definition registry_fresh : Registry.world :=
  {| Registry.reg :=
       {| Registry.this := 100; Registry.owner := 1; Registry._status := false;
          Registry.delegationCap := Registry.DEFAULT_CAP;
          Registry.delegationPeriodRequirement := Registry.DEFAULT_PERIOD;
          Registry.autoExpiryPeriod := 0;
          Registry._delegators := ∅; Registry._delegations := ∅;
          Registry._totalDelegated := ∅; Registry._totalDelegatedBy := ∅;
          Registry._votingPowerCheckpoints := ∅;
          Registry._delegatorList := [];
          Registry._delegationTimestamps := ∅;
          Registry._delegatorsToOwners := ∅ |};
     Registry.vTON := Ledger.empty |}.

(** The set-up of the registry test suite: users 31 and 32 hold 10000
    tokens each and have approved the registry; 41 and 42 register as
    delegators; user 31 registers as well. *)
Definition registry_setup : list (Env * Registry.call) :=
  [ (env_at 1 1000000, Registry.TokenMint 31 (10000 * ether));
    (env_at 1 1000000, Registry.TokenMint 32 (10000 * ether));
    (env_at 31 1000000, Registry.TokenApprove 100 MAX_UINT256);
    (env_at 32 1000000, Registry.TokenApprove 100 MAX_UINT256);
    (env_at 41 1000000, Registry.RegisterDelegator "Alice" "Philosophy" "Interests");
    (env_at 42 1000000, Registry.RegisterDelegator "Bob" "Philosophy" "Interests");
    (env_at 31 1000000, Registry.RegisterDelegator "User1" "Philosophy" "Interests") ].

Definition registry_ready : Registry.world := Registry.run registry_setup registry_fresh.

(** User 31 delegates the whole headroom of delegator 41: 20% of the supply
    of 20000 tokens. *)
Definition registry_at_cap : Registry.world :=
  Registry.run [ (env_at 31 1000000, Registry.Delegate 41 (4000 * ether)) ] registry_ready.

(** User 31 delegates the whole headroom of delegator 41 (20% of the supply
    of 20000), then the owner lowers the cap to 10%. *)
Definition registry_cap_lowered : Registry.world :=
  Registry.run
    [ (env_at 31 1000000, Registry.Delegate 41 (4000 * ether));
      (env_at 1 1000100, Registry.SetDelegationCap 1000) ]
    registry_ready.

(** User 31 delegates 1000 tokens to 41, takes 400 back, moves 300 on to 42,
    and tries to withdraw more than is left (which reverts). *)
Definition owner_moves : list (Env * Registry.call) :=
  [ (env_at 31 1000000, Registry.Delegate 41 (1000 * ether));
    (env_at 31 1700000, Registry.Undelegate 41 (400 * ether));
    (env_at 31 1800000, Registry.Redelegate 41 42 (300 * ether));
    (env_at 31 1900000, Registry.Undelegate 41 (301 * ether)) ].



(** User 31 delegates 100 tokens to 42, moves them all to 41, to which it
    never delegated before, and then tops the delegation up by 50. *)
Definition registry_moved_in : Registry.world :=
  Registry.run
    [ (env_at 31 1000000, Registry.Delegate 42 (100 * ether));
      (env_at 31 1000100, Registry.Redelegate 42 41 (100 * ether));
      (env_at 31 1000200, Registry.Delegate 41 (50 * ether)) ]
    registry_ready.

(** User 31 delegates 1000 tokens to 41, withdraws them all, and delegates
    them again. *)
Definition registry_redeposited : Registry.world :=
  Registry.run
    [ (env_at 31 1000000, Registry.Delegate 41 (1000 * ether));
      (env_at 31 1000100, Registry.Undelegate 41 (1000 * ether));
      (env_at 31 1000200, Registry.Delegate 41 (1000 * ether)) ]
    registry_ready.




(** User 31 holds the whole supply the token allows and has approved the
    registry; 41 registers as a delegator; the owner raises the delegation
    cap to 100%. *)
Definition relisting_setup : list (Env * Registry.call) :=
  [ (env_at 1 1000000, Registry.TokenMint 31 Ledger.MAX_SUPPLY);
    (env_at 31 1000000, Registry.TokenApprove 100 MAX_UINT256);
    (env_at 41 1000000, Registry.RegisterDelegator "Alice" "Philosophy" "Interests");
    (env_at 1 1000000, Registry.SetDelegationCap Registry.MAX_CAP) ].

(** User 31 delegates everything to 41 and withdraws it in full. *)
Definition relisting_cycle : list (Env * Registry.call) :=
  [ (env_at 31 1000000, Registry.Delegate 41 Ledger.MAX_SUPPLY);
    (env_at 31 1000000, Registry.Undelegate 41 Ledger.MAX_SUPPLY) ].

(** The set-up, [n + 1] such cycles, and a last [delegate]. *)
Definition relisting_history (n : nat) : list (Env * Registry.call) :=
  relisting_setup ++ relisting_cycle ++ concat (replicate n relisting_cycle)
  ++ [ (env_at 31 1000000, Registry.Delegate 41 Ledger.MAX_SUPPLY) ].

(** The world after the set-up and one cycle, with [owners] as the owner
    list of 41: every further cycle leads to such a world again. *)
Definition relisted (owners : list address) : Registry.world :=
  let w := Registry.run (relisting_setup ++ relisting_cycle) registry_fresh in
  {| Registry.reg :=
       Registry.set_accounting
         (Registry._delegations (Registry.reg w))
         (Registry._totalDelegated (Registry.reg w))
         (Registry._totalDelegatedBy (Registry.reg w))
         (Registry._votingPowerCheckpoints (Registry.reg w))
         (Registry._delegationTimestamps (Registry.reg w))
         (<[41 := owners]> ∅)
         (Registry.reg w);
     Registry.vTON := Registry.vTON w |}.

(** The first transactions of a timelock: the admin, account 1, installs
    the governor 7 and the security council 8; account 5, which has no
    role, tries to set the delay to zero. *)
Definition timelock_history : list (Env * Timelock.call) :=
  [ (env_at 1 1000, Timelock.SetGovernor 7);
    (env_at 1 1100, Timelock.SetSecurityCouncil 8);
    (env_at 5 1200, Timelock.SetDelay 0) ].

(** What follows the deployment of [council_three]: member 11 proposes a
    custom action, member 12 approves and executes it, account 14, not a
    member, tries to approve it, and the DAO adds member 14 and removes
    member 12. *)
Definition council_history : list (Env * Council.call) :=
  [ (env_at 11 1100, Council.ProposeEmergencyAction Council.Custom 30 [7] "Test");
    (env_at 12 1200, Council.ApproveEmergencyAction 0);
    (env_at 12 1300, Council.ExecuteEmergencyAction 0 true);
    (env_at 14 1400, Council.ApproveEmergencyAction 0);
    (env_at 20 1500, Council.AddMember 14 false);
    (env_at 20 1600, Council.RemoveMember 12) ].

(** The token [vton_with_minter] after minter 2 has minted 1000 tokens to
    account 31. *)
Definition vton_minted : VTON.state :=
  {| VTON.owner := 1;
     VTON.emissionRatio := VTON.MAX_EMISSION_RATIO;
     VTON._minters := <[2 := true]> ∅;
     VTON.ledger := {| Ledger._balances := <[31 := 1000 * ether]> ∅;
                       Ledger._allowances := ∅;
                       Ledger._totalSupply := 1000 * ether |} |}.

(** A faucet at address 60 owned by account 1, next to a fresh token that
    account 1 owns as well. *)
Definition faucet_fresh : Faucet.world :=
  {| Faucet.faucet :=
       {| Faucet.this := 60; Faucet.owner := 1; Faucet.vton := 50;
          Faucet.claimAmount := 1000 * ether; Faucet.totalClaimed := 0;
          Faucet.paused := false |};
     Faucet.token :=
       {| VTON.owner := 1; VTON.emissionRatio := VTON.MAX_EMISSION_RATIO;
          VTON._minters := ∅; VTON.ledger := Ledger.empty |} |}.

(** The owner makes the faucet a minter and halves the emission ratio;
    user 31 claims; the owner pauses the faucet and user 32 is turned
    away. *)
Definition faucet_history : list (Env * Faucet.call) :=
  [ (env_at 1 1000, Faucet.Token (VTON.SetMinter 60 true));
    (env_at 1 1100, Faucet.Token (VTON.SetEmissionRatio (5 * 10 ^ 17)));
    (env_at 31 1200, Faucet.Claim);
    (env_at 1 1300, Faucet.SetPaused true);
    (env_at 32 1400, Faucet.Claim) ].

(** The owner sets the emission ratio to zero, makes the faucet a minter
    and raises the claim amount to [2^255]; user 31 claims (nothing is
    minted, the counter goes to [2^255]); the owner takes the minter role
    away again. *)
Definition faucet_overflow_history : list (Env * Faucet.call) :=
  [ (env_at 1 1000, Faucet.Token (VTON.SetEmissionRatio 0));
    (env_at 1 1100, Faucet.Token (VTON.SetMinter 60 true));
    (env_at 1 1200, Faucet.SetClaimAmount (2 ^ 255));
    (env_at 31 1300, Faucet.Claim);
    (env_at 1 1400, Faucet.Token (VTON.SetMinter 60 false)) ].

(** Member 11 of [council_three] asks for a pause, member 12 approves and
    executes it. *)
Definition council_pause_history : list (Env * Council.call) :=
  [ (env_at 11 1100, Council.PauseProtocolCall "Incident");
    (env_at 12 1200, Council.ApproveEmergencyAction 0);
    (env_at 12 1300, Council.ExecuteEmergencyAction 0 true) ].

(** * Properties *)

(** ** Arithmetic and map lemmas *)

Lemma add_checked_ok {E} (p : E) a b : a + b <= MAX_UINT256 → add_checked p a b = Ok (a + b).
Proof. intros H. unfold add_checked. by rewrite (proj2 (N.leb_le _ _) H). Qed.

Lemma add_checked_overflow {E} (p : E) a b :
  MAX_UINT256 < a + b → add_checked p a b = Revert p.
Proof. intros H. unfold add_checked. by rewrite (proj2 (N.leb_gt _ _) H). Qed.

Lemma add_checked_inv {E} (p : E) a b c :
  add_checked p a b = Ok c → c = a + b ∧ a + b <= MAX_UINT256.
Proof.
  unfold add_checked. destruct (a + b <=? MAX_UINT256) eqn:Hle; [|done].
  intros [= <-]. split; [done|]. by apply N.leb_le.
Qed.

Lemma sub_checked_inv {E} (p : E) a b c :
  sub_checked p a b = Ok c → c = a - b ∧ b <= a.
Proof.
  unfold sub_checked. destruct (b <=? a) eqn:Hle; [|done].
  intros [= <-]. split; [done|]. by apply N.leb_le.
Qed.

Lemma mul_checked_inv {E} (p : E) a b c :
  mul_checked p a b = Ok c → c = a * b ∧ a * b <= MAX_UINT256.
Proof.
  unfold mul_checked. destruct (a * b <=? MAX_UINT256) eqn:Hle; [|done].
  intros [= <-]. split; [done|]. by apply N.leb_le.
Qed.

Lemma getN_insert_eq `{Countable K} (m : gmap K N) k v : getN (<[k:=v]> m) k = v.
Proof. unfold getN. by rewrite lookup_insert_eq. Qed.

Lemma getN_insert_ne `{Countable K} (m : gmap K N) k k' v :
  k ≠ k' → getN (<[k:=v]> m) k' = getN m k'.
Proof. intros. unfold getN. by rewrite lookup_insert_ne. Qed.

Lemma getB_insert_eq `{Countable K} (m : gmap K bool) k v : getB (<[k:=v]> m) k = v.
Proof. unfold getB. by rewrite lookup_insert_eq. Qed.


(** ** vTON: minting under the emission ratio *)

Lemma vton_ratio_bounded st :
  VTON.reachable st → VTON.emissionRatio st <= VTON.MAX_EMISSION_RATIO.
Proof.
  induction 1 as [o st Hc | env c st st' evs _ IH Hex].
  - unfold VTON.constructor in Hc. destruct (negb (o =? 0)); simpl in Hc; [|done].
    injection Hc as <-. simpl. lia.
  - destruct c as [to amount | ratio | m a | to v | f t v | sp v]; simpl in Hex.
    + unfold VTON.mint in Hex.
      destruct (require _ VTON.NotMinter); simpl in Hex; [|done].
      destruct (require _ VTON.ZeroAddress); simpl in Hex; [|done].
      destruct (mul_checked _ _ _) as [p|]; simpl in Hex; [|done].
      destruct (p / VTON.MAX_EMISSION_RATIO =? 0).
      * by injection Hex as <- _.
      * destruct (VTON.lift _) as [l|]; simpl in Hex; [|done].
        by injection Hex as <- _.
    + unfold VTON.setEmissionRatio in Hex.
      destruct (require _ VTON.OwnableUnauthorizedAccount); simpl in Hex; [|done].
      destruct (ratio <=? VTON.MAX_EMISSION_RATIO) eqn:Hle; simpl in Hex; [|done].
      injection Hex as <- _. simpl. by apply N.leb_le.
    + unfold VTON.setMinter in Hex.
      destruct (require _ VTON.OwnableUnauthorizedAccount); simpl in Hex; [|done].
      destruct (require _ VTON.ZeroAddress); simpl in Hex; [|done].
      by injection Hex as <- _.
    + unfold VTON.transfer in Hex.
      destruct (VTON.lift _) as [l|]; simpl in Hex; [|done]. by injection Hex as <- _.
    + unfold VTON.transferFrom in Hex.
      destruct (VTON.lift _) as [l|]; simpl in Hex; [|done]. by injection Hex as <- _.
    + unfold VTON.approve in Hex. by injection Hex as <- _.
Qed.

Lemma vton_with_minter_reachable : VTON.reachable vton_with_minter.
Proof.
  eapply (VTON.reach_step (env_at 1 1000) (VTON.SetMinter 2 true)).
  - by apply (VTON.reach_init 1).
  - reflexivity.
Defined.

(** Claim C7 as stated fails: a mint of 2^200 units at the 100% ratio
    should credit 2^200 units, which the supply ceiling allows, but the
    product [amount * emissionRatio] overflows uint256 and the call reverts. *)
Lemma mint_overflow_counterexample :
  VTON.reachable vton_with_minter ∧
  getB (VTON._minters vton_with_minter) 2 = true ∧
  2 ^ 200 <= MAX_UINT256 ∧
  2 ^ 200 * VTON.emissionRatio vton_with_minter / 10 ^ 18 = 2 ^ 200 ∧
  VTON.totalSupply vton_with_minter + 2 ^ 200 <= Ledger.MAX_SUPPLY ∧
  VTON.mint (env_at 2 1000) 3 (2 ^ 200) vton_with_minter = Revert (VTON.Panic 17).
Proof.
  split; [exact vton_with_minter_reachable|].
  repeat split; try reflexivity; by vm_compute.
Qed.

(** Claim C7, amended: for an authorized minter, a nonzero recipient and
    an amount whose product with the emission ratio fits in uint256, the
    adjusted amount [amount * emissionRatio / 1e18] (truncating division)
    never exceeds the requested amount; when it is zero the call succeeds
    without changing the state and without any event; otherwise, when the
    supply ceiling allows it, exactly the adjusted amount is credited to
    the recipient and added to the supply, and [Minted] is emitted. *)
Theorem mint_adjusted_amount st env to amount :
  VTON.reachable st →
  getB (VTON._minters st) (msg_sender env) = true →
  to ≠ 0 →
  amount * VTON.emissionRatio st <= MAX_UINT256 →
  let adjusted := amount * VTON.emissionRatio st / VTON.MAX_EMISSION_RATIO in
  adjusted <= amount ∧
  (adjusted = 0 → VTON.mint env to amount st = Ok (st, [])) ∧
  (adjusted ≠ 0 → VTON.totalSupply st + adjusted <= Ledger.MAX_SUPPLY →
   ∃ st', VTON.mint env to amount st
            = Ok (st', [VTON.Transfer 0 to adjusted; VTON.Minted to adjusted]) ∧
          VTON.balanceOf st' to = VTON.balanceOf st to + adjusted ∧
          (∀ a, a ≠ to → VTON.balanceOf st' a = VTON.balanceOf st a) ∧
          VTON.totalSupply st' = VTON.totalSupply st + adjusted).
Proof.
  intros Hreach Hminter Hto Hfit adjusted.
  pose proof (vton_ratio_bounded st Hreach) as Hratio.
  assert (Hto' : negb (to =? 0) = true).
  { apply negb_true_iff, N.eqb_neq, Hto. }
  assert (Hhead : ∀ k : N → result VTON.error (VTON.state * list VTON.event),
    (_ ← require (getB (VTON._minters st) (msg_sender env)) VTON.NotMinter;
     _ ← require (negb (to =? 0)) VTON.ZeroAddress;
     p ← mul_checked (VTON.Panic 17) amount (VTON.emissionRatio st); k p)
    = k (amount * VTON.emissionRatio st)).
  { intros k. rewrite Hminter, Hto'. simpl. unfold mul_checked.
    by rewrite (proj2 (N.leb_le _ _) Hfit). }
  split; [|split].
  - subst adjusted. apply N.Div0.div_le_upper_bound.
    unfold VTON.MAX_EMISSION_RATIO in *. nia.
  - intros Hz. unfold VTON.mint. rewrite Hhead. fold adjusted. by rewrite Hz.
  - intros Hnz Hcap. unfold VTON.mint. rewrite Hhead. fold adjusted.
    rewrite (proj2 (N.eqb_neq _ _) Hnz).
    unfold Ledger._mint. rewrite Hto'. simpl.
    unfold VTON.totalSupply, Ledger.totalSupply in Hcap.
    rewrite add_checked_ok.
    2:{ unfold Ledger.MAX_SUPPLY, MAX_UINT256 in *. lia. }
    simpl. rewrite (proj2 (N.leb_le _ _) Hcap). simpl.
    eexists. split; [reflexivity|].
    unfold VTON.balanceOf, VTON.totalSupply, Ledger.balanceOf, Ledger.totalSupply. simpl.
    split; [apply getN_insert_eq|]. split; [|done].
    intros a Ha. by apply getN_insert_ne.
Qed.

Lemma mint_adjusted_amount_witness :
  let adjusted := 1000 * VTON.emissionRatio vton_with_minter / VTON.MAX_EMISSION_RATIO in
  adjusted <= 1000 ∧
  (adjusted = 0 → VTON.mint (env_at 2 1000) 3 1000 vton_with_minter
                  = Ok (vton_with_minter, [])) ∧
  (adjusted ≠ 0 → VTON.totalSupply vton_with_minter + adjusted <= Ledger.MAX_SUPPLY →
   ∃ st', VTON.mint (env_at 2 1000) 3 1000 vton_with_minter
            = Ok (st', [VTON.Transfer 0 3 adjusted; VTON.Minted 3 adjusted]) ∧
          VTON.balanceOf st' 3 = VTON.balanceOf vton_with_minter 3 + adjusted ∧
          (∀ a, a ≠ 3 → VTON.balanceOf st' a = VTON.balanceOf vton_with_minter a) ∧
          VTON.totalSupply st' = VTON.totalSupply vton_with_minter + adjusted).
Proof.
  apply (mint_adjusted_amount vton_with_minter (env_at 2 1000) 3 1000).
  - exact vton_with_minter_reachable.
  - reflexivity.
  - discriminate.
  - by vm_compute.
Defined.

(** ** Timelock: the execution window *)

(** The scenario state is what deployment, [setGovernor] and
    [queueTransaction] at time 1400 produce. *)
Lemma timelock_queued_built :
  (st0 ← Timelock.constructor 1 3600;
   st1 ← Timelock.setGovernor (env_at 1 1000) 7 st0;
   Timelock.queueTransaction scenario_hash (env_at 7 1400) 9 0 [] st1)
  = Ok (timelock_queued, scenario_hash 9 0 [] 5000).
Proof. reflexivity. Qed.

(** Claim C5 as stated fails: the entry is queued, not canceled, and the
    call is made at eta, inside the grace window, yet the execution reverts
    because the call to the target fails. *)
Lemma execute_call_failure_counterexample :
  Timelock.executable timelock_queued 5000 (scenario_hash 9 0 [] 5000) 5000 ∧
  Timelock.executeTransaction scenario_hash (env_at 7 5000) 9 0 [] 5000 call_fails
    timelock_queued = Revert Timelock.ExecutionFailed.
Proof.
  split; [|reflexivity].
  unfold Timelock.executable. repeat split; try reflexivity; by vm_compute.
Qed.

(** Claim C5, amended: called by the governor outside a re-entrant call,
    for an eta whose grace deadline fits in uint256, [executeTransaction]
    succeeds if and only if the entry is queued, not canceled,
    [eta <= now <= eta + GRACE_PERIOD] and the call to the target succeeds;
    otherwise it reverts with the error of the first failing condition
    (not queued, already canceled, not ready, expired, execution failed);
    on success the entry is no longer queued and a second execution of the
    same tuple reverts with [TransactionNotQueued]. *)
Theorem executeTransaction_window
    (hash : address → N → Timelock.bytes → N → Timelock.bytes32)
    st env target value data eta outcome :
  msg_sender env = Timelock.governor st →
  Timelock._status st = false →
  eta + Timelock.GRACE_PERIOD <= MAX_UINT256 →
  let h := hash target value data eta in
  let now := block_timestamp env in
  let queued := getB (Timelock.queuedTransactions st) h in
  let canceled := getB (Timelock.canceledTransactions st) h in
  let r := Timelock.executeTransaction hash env target value data eta outcome st in
  ((∃ st' ret, r = Ok (st', ret))
     ↔ Timelock.executable st now h eta ∧ Timelock.success outcome = true) ∧
  (queued = false → r = Revert Timelock.TransactionNotQueued) ∧
  (queued = true → canceled = true → r = Revert Timelock.TransactionAlreadyCanceled) ∧
  (queued = true → canceled = false → now < eta →
     r = Revert Timelock.TransactionNotReady) ∧
  (queued = true → canceled = false → eta <= now → eta + Timelock.GRACE_PERIOD < now →
     r = Revert Timelock.TransactionExpired) ∧
  (Timelock.executable st now h eta → Timelock.success outcome = false →
     r = Revert Timelock.ExecutionFailed) ∧
  (∀ st' ret, r = Ok (st', ret) →
     ret = Timelock.returndata outcome ∧
     getB (Timelock.queuedTransactions st') h = false ∧
     ∀ env' outcome', msg_sender env' = Timelock.governor st →
       Timelock.executeTransaction hash env' target value data eta outcome' st'
       = Revert Timelock.TransactionNotQueued).
Proof.
  intros Hgov Hst Hfit h now queued canceled r.
  assert (Hr : r =
    if queued then
      if canceled then Revert Timelock.TransactionAlreadyCanceled
      else if now <? eta then Revert Timelock.TransactionNotReady
      else if eta + Timelock.GRACE_PERIOD <? now then Revert Timelock.TransactionExpired
      else if Timelock.success outcome
           then Ok (Timelock.set_queue (<[h := false]> (Timelock.queuedTransactions st))
                      (Timelock.canceledTransactions st) (Timelock.transactionEta st) st,
                    Timelock.returndata outcome)
           else Revert Timelock.ExecutionFailed
    else Revert Timelock.TransactionNotQueued).
  { subst r. unfold Timelock.executeTransaction.
    rewrite Hgov, N.eqb_refl, Hst. simpl. fold h queued canceled now.
    destruct queued; simpl; [|done].
    destruct canceled; simpl; [done|].
    destruct (now <? eta); simpl; [done|].
    rewrite add_checked_ok by done. simpl.
    destruct (eta + Timelock.GRACE_PERIOD <? now); simpl; [done|].
    by destruct (Timelock.success outcome). }
  unfold Timelock.executable. fold queued canceled.
  split_and!.
  - split.
    + intros (st' & ret & Hok). rewrite Hr in Hok.
      destruct queued; [|done]. destruct canceled; [done|].
      destruct (N.ltb_spec now eta); [done|].
      destruct (N.ltb_spec (eta + Timelock.GRACE_PERIOD) now); [done|].
      by destruct (Timelock.success outcome).
    + intros ((Hq & Hc & H1 & H2) & Hs). rewrite Hr, Hq, Hc, Hs.
      rewrite (proj2 (N.ltb_ge _ _) H1), (proj2 (N.ltb_ge _ _) H2). eauto.
  - intros Hq. by rewrite Hr, Hq.
  - intros Hq Hc. by rewrite Hr, Hq, Hc.
  - intros Hq Hc Hlt. by rewrite Hr, Hq, Hc, (proj2 (N.ltb_lt _ _) Hlt).
  - intros Hq Hc Hge Hlt.
    by rewrite Hr, Hq, Hc, (proj2 (N.ltb_ge _ _) Hge), (proj2 (N.ltb_lt _ _) Hlt).
  - intros (Hq & Hc & H1 & H2) Hs. rewrite Hr, Hq, Hc, Hs.
    by rewrite (proj2 (N.ltb_ge _ _) H1), (proj2 (N.ltb_ge _ _) H2).
  - intros st' ret H. rewrite Hr in H.
    destruct queued; [|done]. destruct canceled; [done|].
    destruct (now <? eta); [done|].
    destruct (eta + Timelock.GRACE_PERIOD <? now); [done|].
    destruct (Timelock.success outcome); [|done]. injection H as <- <-.
    split_and!; [done|simpl; apply getB_insert_eq|].
    intros env' outcome' Hgov'.
    unfold Timelock.executeTransaction. simpl.
    rewrite Hgov', N.eqb_refl, Hst. simpl. fold h.
    by rewrite getB_insert_eq.
Qed.

Lemma executeTransaction_window_witness :
  msg_sender (env_at 7 5000) = Timelock.governor timelock_queued ∧
  Timelock._status timelock_queued = false ∧
  5000 + Timelock.GRACE_PERIOD <= MAX_UINT256 ∧
  ((∃ st' ret,
      Timelock.executeTransaction scenario_hash (env_at 7 5000) 9 0 [] 5000
        (call_returns [42]) timelock_queued = Ok (st', ret))
   ↔ Timelock.executable timelock_queued 5000 (scenario_hash 9 0 [] 5000) 5000 ∧
     Timelock.success (call_returns [42]) = true) ∧
  Timelock.executeTransaction scenario_hash (env_at 7 4999) 9 0 [] 5000
    (call_returns [42]) timelock_queued = Revert Timelock.TransactionNotReady ∧
  Timelock.executeTransaction scenario_hash (env_at 7 (5000 + Timelock.GRACE_PERIOD + 1))
    9 0 [] 5000 (call_returns [42]) timelock_queued
  = Revert Timelock.TransactionExpired.
Proof.
  assert (H1 : ∀ now, msg_sender (env_at 7 now) = Timelock.governor timelock_queued)
    by reflexivity.
  assert (H2 : Timelock._status timelock_queued = false) by reflexivity.
  assert (H3 : 5000 + Timelock.GRACE_PERIOD <= MAX_UINT256) by (by vm_compute).
  split_and!; [exact (H1 5000) | exact H2 | exact H3 | | |].
  - exact (proj1 (executeTransaction_window scenario_hash timelock_queued
                    (env_at 7 5000) 9 0 [] 5000 (call_returns [42]) (H1 _) H2 H3)).
  - destruct (executeTransaction_window scenario_hash timelock_queued
                (env_at 7 4999) 9 0 [] 5000 (call_returns [42]) (H1 _) H2 H3)
      as (_ & _ & _ & Hearly & _).
    apply Hearly; by vm_compute.
  - destruct (executeTransaction_window scenario_hash timelock_queued
                (env_at 7 (5000 + Timelock.GRACE_PERIOD + 1)) 9 0 [] 5000
                (call_returns [42]) (H1 _) H2 H3)
      as (_ & _ & _ & _ & Hlate & _).
    apply Hlate; by vm_compute.
Defined.

(** ** SecurityCouncil: threshold and emergency actions *)

Ltac unroll H :=
  repeat first
    [ match type of H with
      | mbind _ (require ?b ?e) = Ok _ =>
          let Hb := fresh "Hreq" in
          destruct b eqn:Hb; [simpl in H | discriminate H]
      end
    | match type of H with
      | mbind _ ?m = Ok _ =>
          let E := fresh "Hcall" in
          destruct m eqn:E; [simpl in H | discriminate H]
      end ].

Lemma indexOf_middle x l1 l2 :
  x ∉ l1 → Council.indexOf x (l1 ++ x :: l2) = Some (length l1).
Proof.
  induction l1 as [|y l1 IH]; simpl; intros Hx.
  - by rewrite N.eqb_refl.
  - apply not_elem_of_cons in Hx as [Hne Hx].
    rewrite (proj2 (N.eqb_neq y x)) by done. by rewrite IH.
Qed.

Lemma indexOf_absent x l : x ∉ l → Council.indexOf x l = None.
Proof.
  induction l as [|y l IH]; simpl; intros Hx; [done|].
  apply not_elem_of_cons in Hx as [Hne Hx].
  rewrite (proj2 (N.eqb_neq y x)) by done. by rewrite IH.
Qed.

(** Swap-and-pop on the first occurrence: the tail loses its last element,
    which takes the place of the removed one. *)
Lemma removePending_middle x l1 l2 :
  x ∉ l1 →
  Council._removePendingAction x (l1 ++ x :: l2)
  = l1 ++ match last l2 with Some y => y :: removelast l2 | None => [] end.
Proof.
  intros Hx. unfold Council._removePendingAction.
  rewrite indexOf_middle by done. rewrite last_app, last_cons.
  destruct (last l2) as [y|] eqn:Hlast.
  - rewrite <- (Nat.add_0_r (length l1)), insert_app_r. simpl.
    rewrite removelast_app by done.
    destruct l2 as [|z l2]; [simpl in Hlast; discriminate|]. reflexivity.
  - destruct l2 as [|z l2].
    + rewrite <- (Nat.add_0_r (length l1)), insert_app_r. simpl.
      by rewrite removelast_last, app_nil_r.
    + exfalso. assert (is_Some (last (z :: l2))) as [? Hs] by by apply last_is_Some.
      congruence.
Qed.

Lemma removePending_spec x l :
  NoDup l →
  NoDup (Council._removePendingAction x l) ∧
  (x ∉ Council._removePendingAction x l) ∧
  (∀ y, y ∈ Council._removePendingAction x l → y ∈ l).
Proof.
  intros Hnd. destruct (decide (x ∈ l)) as [Hin|Hout].
  - apply list_elem_of_split in Hin as (l1 & l2 & ->).
    apply NoDup_app in Hnd as (Hnd1 & Hdisj & Hnd2).
    apply NoDup_cons in Hnd2 as (Hx2 & Hnd2).
    assert (Hx1 : x ∉ l1).
    { intros Hx. apply (Hdisj x Hx). left. }
    rewrite removePending_middle by done.
    assert (Hperm : match last l2 with Some y => y :: removelast l2 | None => [] end ≡ₚ l2).
    { destruct (last l2) as [y|] eqn:Hlast.
      - apply last_Some in Hlast as [l' ->]. rewrite removelast_last.
        by rewrite Permutation_cons_append.
      - destruct l2 as [|z l2]; [done|].
        assert (is_Some (last (z :: l2))) as [? Hs] by by apply last_is_Some.
        congruence. }
    rewrite Hperm. split_and!.
    + apply NoDup_app. split_and!; [done| |done].
      intros y Hy1 Hy2. apply (Hdisj y Hy1). by right.
    + rewrite elem_of_app. intros [?|?]; done.
    + intros y. rewrite Hperm, !elem_of_app, elem_of_cons.
      intros [?|?]; [by left | by right; right].
  - unfold Council._removePendingAction. rewrite indexOf_absent by done. done.
Qed.

Lemma ceil_two_thirds n :
  1 <= n →
  let t := (n * 2 + 2) / 3 in
  1 <= t ∧ t <= n ∧ n * 2 <= 3 * t ∧ 3 * t < n * 2 + 3.
Proof.
  intros Hn t.
  pose proof (N.div_mod (n * 2 + 2) 3 ltac:(done)) as Hdm.
  pose proof (N.mod_lt (n * 2 + 2) 3 ltac:(done)) as Hlt.
  fold t in Hdm. clearbody t.
  generalize dependent ((n * 2 + 2) `mod` 3). intros r Hdm Hlt. lia.
Qed.

Lemma addExternalMembers_count env ext st st1 :
  Council.addExternalMembers env ext st = Ok st1 →
  Council.memberCount st1 = Council.memberCount st + N.of_nat (length ext) ∧
  Council.threshold st1 = Council.threshold st ∧
  Council._actionCount st1 = Council._actionCount st ∧
  Council._actions st1 = Council._actions st ∧
  Council._pendingActionIds st1 = Council._pendingActionIds st ∧
  Council._status st1 = Council._status st.
Proof.
  revert st. induction ext as [|m ext IH]; simpl; intros st H.
  - injection H as <-. split_and!; try done. lia.
  - unroll H. apply IH in H as (Hc & Ht & Hn & Ha & Hp & Hs).
    rewrite Hc, Ht, Hn, Ha, Hp, Hs. split_and!; try done.
    unfold Council.memberCount. simpl. rewrite length_app. simpl. lia.
Qed.

Lemma council_constructor_inv env f ext dao tl tgt st :
  Council.constructor env f ext dao tl tgt = Ok st → council_inv st.
Proof.
  unfold Council.constructor. intros H. unroll H.
  apply addExternalMembers_count in Hcall as (Hc & Ht & Hn & Ha & Hp & Hs).
  injection H as <-. unfold council_inv, Council.memberCount in *. simpl in *.
  pose proof (ceil_two_thirds (N.of_nat (length (Council._members a)))) as Hceil.
  simpl in Hceil. rewrite Hp, Ha, Hs.
  split_and!; try (apply Hceil; lia); try done.
  - constructor.
  - intros i Hi. by apply elem_of_nil in Hi.
Qed.

Lemma removelast_length {A} (l : list A) : length (removelast l) = pred (length l).
Proof.
  induction l as [|x [|y l] IH]; [done..|].
  change (removelast (x :: y :: l)) with (x :: removelast (y :: l)).
  simpl length in *. by rewrite IH.
Qed.

Lemma removeMember_internal_count member st st1 :
  Council._removeMember member st = Ok st1 →
  Council.memberCount st1 = Council.memberCount st - 1 ∧
  Council.threshold st1 = Council.threshold st ∧
  Council._actionCount st1 = Council._actionCount st ∧
  Council._actions st1 = Council._actions st ∧
  Council._pendingActionIds st1 = Council._pendingActionIds st ∧
  Council._status st1 = Council._status st.
Proof.
  unfold Council._removeMember. intros H. unroll H.
  destruct a0 as [ms ix]. injection H as <-. simpl.
  split_and!; try done.
  assert (Hlen : length ms = length (Council._members st)).
  { destruct (_ =? a) in Hcall0.
    - by injection Hcall0 as <- _.
    - destruct (Council._members st !! N.to_nat a); [|done].
      unroll Hcall0. injection Hcall0 as <- _. apply length_insert. }
  unfold Council.memberCount. simpl. rewrite removelast_length, Hlen. lia.
Qed.

Lemma council_newAction_inv env ty tg d r st st' i :
  council_inv st → Council.newAction env ty tg d r st = Ok (st', i) → council_inv st'.
Proof.
  intros (Ht1 & Ht2 & Hnd & Hlt & Hex & Hst) H.
  unfold Council.newAction in H. unroll H.
  apply add_checked_inv in Hcall as [-> _]. injection H as <- <-.
  unfold council_inv. simpl. split_and!; try done.
  - apply NoDup_app. split_and!; [done| |apply NoDup_singleton].
    intros x Hx ->%list_elem_of_singleton. apply Hlt in Hx. lia.
  - intros x [Hx| ->%list_elem_of_singleton]%elem_of_app; [apply Hlt in Hx|]; lia.
  - intros j a. rewrite lookup_insert. case_decide.
    + by intros [= <-].
    + apply Hex.
Qed.

Lemma council_unexecuted_has_no_time st i :
  council_inv st →
  Council.executed (Council.getEmergencyAction st i) = false →
  Council.executedAt (Council.getEmergencyAction st i) = 0.
Proof.
  intros (_ & _ & _ & _ & Hex & _). unfold Council.getEmergencyAction.
  destruct (Council._actions st !! i) as [a|] eqn:Ha; simpl; [|done].
  by apply (Hex i).
Qed.

Lemma council_step_inv enc env c st st' :
  council_inv st → Council.exec enc env c st = Ok st' → council_inv st'.
Proof.
  intros Hinv H. pose proof Hinv as (Ht1 & Ht2 & Hnd & Hlt & Hex & Hst).
  destruct c; simpl in H.
  - (* addMember *)
    unfold Council.addMember in H. unroll H. injection H as <-.
    unfold council_inv, Council.memberCount in *. simpl.
    rewrite length_app. simpl. split_and!; try done. lia.
  - (* removeMember *)
    unfold Council.removeMember in H. unroll H.
    apply removeMember_internal_count in Hcall0 as (Hc & Ht & Hn & Ha & Hp & Hs).
    apply negb_true_iff, N.leb_gt in Hreq1. unfold Council.MIN_MEMBERS in Hreq1.
    injection H as <-. destruct (N.ltb_spec (Council.memberCount a0) (Council.threshold a0)).
    + unfold council_inv, Council.memberCount in *. simpl.
      rewrite Hn, Ha, Hp, Hs. split_and!; try done. lia.
    + unfold council_inv. rewrite Hn, Ha, Hp, Hs. split_and!; try done; lia.
  - (* setThreshold *)
    unfold Council.setThreshold in H. unroll H. injection H as <-.
    apply negb_true_iff, orb_false_iff in Hreq0 as [Hz Hle].
    apply N.eqb_neq in Hz. apply N.ltb_ge in Hle.
    unfold council_inv, Council.memberCount in *. simpl. split_and!; try done. lia.
  - unfold Council.setDAOGovernor in H. unroll H. by injection H as <-.
  - unfold Council.setProtocolTarget in H. unroll H. by injection H as <-.
  - (* proposeEmergencyAction *)
    unfold Council.proposeEmergencyAction in H.
    destruct (require _ _); simpl in H; [|done].
    destruct (Council.newAction _ _ _ _ _ _) as [[s i]|] eqn:Hn; simpl in H; [|done].
    injection H as <-. by eapply council_newAction_inv.
  - (* approveEmergencyAction *)
    unfold Council.approveEmergencyAction in H. unroll H. injection H as <-.
    unfold council_inv. simpl. split_and!; try done.
    intros j a. rewrite lookup_insert. case_decide as Hj; [|apply Hex].
    intros [= <-]. simpl. intros _. apply negb_true_iff in Hreq1.
    by apply council_unexecuted_has_no_time.
  - (* executeEmergencyAction *)
    unfold Council.executeEmergencyAction in H. unroll H.
    pose proof (removePending_spec actionId _ Hnd) as (Hnd' & _ & Hsub).
    assert (Hacts : ∀ j a,
      <[actionId := Council.with_executed true (block_timestamp env)
                      (Council.getEmergencyAction st actionId)]> (Council._actions st) !! j
        = Some a → Council.executed a = false → Council.executedAt a = 0).
    { intros j a. rewrite lookup_insert. case_decide as Hj; [|apply Hex].
      by intros [= <-]. }
    destruct (Council.actionType _); unroll H; injection H as <-;
      unfold council_inv; simpl; split_and!; try done;
      intros j Hj; apply Hlt, Hsub, Hj.
  - (* cancelEmergencyAction *)
    unfold Council.cancelEmergencyAction in H. unroll H. injection H as <-.
    pose proof (removePending_spec actionId _ Hnd) as (Hnd' & _ & Hsub).
    unfold council_inv. simpl. split_and!; try done.
    + intros j Hj. apply Hlt, Hsub, Hj.
    + intros j a. rewrite lookup_insert. case_decide as Hj; [|apply Hex].
      by intros [= <-].
  - unfold Council.cancelProposal in H.
    destruct (require _ _); simpl in H; [|done].
    destruct (Council.newAction _ _ _ _ _ _) as [[s i]|] eqn:Hn; simpl in H; [|done].
    injection H as <-. by eapply council_newAction_inv.
  - unfold Council.pauseProtocol in H.
    destruct (require _ _); simpl in H; [|done].
    destruct (Council.newAction _ _ _ _ _ _) as [[s i]|] eqn:Hn; simpl in H; [|done].
    injection H as <-. by eapply council_newAction_inv.
  - unfold Council.unpauseProtocol in H.
    destruct (require _ _); simpl in H; [|done].
    destruct (Council.newAction _ _ _ _ _ _) as [[s i]|] eqn:Hn; simpl in H; [|done].
    injection H as <-. by eapply council_newAction_inv.
Qed.

Lemma council_reachable_inv enc st : Council.reachable enc st → council_inv st.
Proof.
  induction 1 as [env f ext dao tl tgt st Hc | env c st st' _ IH Hex].
  - by eapply council_constructor_inv.
  - by eapply council_step_inv.
Qed.

Lemma council_three_built :
  Council.constructor (env_at 1 1000) 11 [12; 13] 20 21 22 = Ok council_three.
Proof. reflexivity. Defined.

Lemma council_pending_built :
  Council.exec scenario_encode (env_at 11 1100)
    (Council.ProposeEmergencyAction Council.Custom 30 [7] "Test") council_three
  = Ok council_pending.
Proof. reflexivity. Defined.

Lemma council_pending_reachable : Council.reachable scenario_encode council_pending.
Proof.
  eapply Council.reach_step; [|exact council_pending_built].
  eapply Council.reach_init. exact council_three_built.
Defined.

(** Claim C6: the constructor sets the threshold to the ceiling of two
    thirds of the member count; [setThreshold], called by the DAO, accepts
    exactly the values from 1 to the member count and reverts with
    [InvalidThreshold] otherwise; a successful [removeMember] leaves the
    threshold at the minimum of its old value and the new member count;
    and in every reachable state the threshold is between 1 and the member
    count. *)
Theorem council_threshold_bounds (enc : string → list N → Council.bytes) :
  (∀ env f ext dao tl tgt st,
     Council.constructor env f ext dao tl tgt = Ok st →
     let n := Council.memberCount st in
     let t := Council.threshold st in
     t = (n * 2 + 2) / 3 ∧ n * 2 <= 3 * t ∧ 3 * t < n * 2 + 3) ∧
  (∀ env t st,
     msg_sender env = Council.daoGovernor st →
     (1 <= t ∧ t <= Council.memberCount st →
        ∃ st', Council.setThreshold env t st = Ok st' ∧
               Council.threshold st' = t ∧
               Council.memberCount st' = Council.memberCount st) ∧
     (¬ (1 <= t ∧ t <= Council.memberCount st) →
        Council.setThreshold env t st = Revert Council.InvalidThreshold)) ∧
  (∀ env m st st',
     Council.removeMember env m st = Ok st' →
     Council.memberCount st' = Council.memberCount st - 1 ∧
     Council.threshold st' = N.min (Council.threshold st) (Council.memberCount st')) ∧
  (∀ st, Council.reachable enc st →
     1 <= Council.threshold st ∧ Council.threshold st <= Council.memberCount st).
Proof.
  split_and!.
  - intros env f ext dao tl tgt st H n t. subst n t.
    unfold Council.constructor in H. unroll H.
    apply addExternalMembers_count in Hcall as (Hc & _).
    injection H as <-. unfold Council.memberCount in *. simpl in *.
    pose proof (ceil_two_thirds (N.of_nat (length (Council._members a)))) as Hceil.
    simpl in Hceil. split; [done|]. apply Hceil. lia.
  - intros env t st Hdao. unfold Council.setThreshold.
    rewrite Hdao, N.eqb_refl. simpl. split.
    + intros [H1 H2].
      rewrite (proj2 (N.eqb_neq t 0)) by lia.
      rewrite (proj2 (N.ltb_ge _ _) H2). simpl. eauto.
    + intros Hn. destruct (N.eqb_spec t 0) as [->|Hz]; [done|]. simpl.
      destruct (N.ltb_spec (Council.memberCount st) t); [done|].
      exfalso. apply Hn. lia.
  - intros env m st st' H. unfold Council.removeMember in H. unroll H.
    apply removeMember_internal_count in Hcall0 as (Hc & Ht & _).
    injection H as <-.
    destruct (N.ltb_spec (Council.memberCount a0) (Council.threshold a0)).
    + unfold Council.memberCount in *. simpl. lia.
    + lia.
  - intros st Hr. apply council_reachable_inv in Hr as (H1 & H2 & _). done.
Qed.

Lemma council_threshold_bounds_witness :
  Council.threshold council_three = (3 * 2 + 2) / 3 ∧
  (∃ st', Council.setThreshold (env_at 20 1200) 3 council_three = Ok st' ∧
          Council.threshold st' = 3 ∧
          Council.memberCount st' = Council.memberCount council_three) ∧
  Council.setThreshold (env_at 20 1200) 4 council_three = Revert Council.InvalidThreshold ∧
  (∃ st', Council.removeMember (env_at 20 1200) 13 council_three = Ok st' ∧
          Council.memberCount st' = Council.memberCount council_three - 1 ∧
          Council.threshold st'
          = N.min (Council.threshold council_three) (Council.memberCount st')) ∧
  1 <= Council.threshold council_pending ∧
  Council.threshold council_pending <= Council.memberCount council_pending.
Proof.
  destruct (council_threshold_bounds scenario_encode) as (Ha & Hb & Hc & Hd).
  split_and!.
  - exact (proj1 (Ha _ _ _ _ _ _ _ council_three_built)).
  - apply (Hb (env_at 20 1200) 3 council_three); [reflexivity|]. by vm_compute.
  - apply (Hb (env_at 20 1200) 4 council_three); [reflexivity|].
    intros [_ H]. by vm_compute in H.
  - eexists. split; [reflexivity|]. eapply (Hc (env_at 20 1200) 13). reflexivity.
  - exact (proj1 (Hd _ council_pending_reachable)).
  - exact (proj2 (Hd _ council_pending_reachable)).
Defined.

(** ** DAOGovernor: who may cancel, and when *)

(** Claim C8: the original proposer cancels from every state except
    Executed, Canceled and Expired, where the call fails with
    [InvalidProposalState] (so Defeated can still be canceled); the
    proposal guardian (when not the proposer) cancels exactly in Pending,
    Active, Succeeded and Queued, and fails with [InvalidProposalState] in
    Defeated and Expired; every other caller fails with
    [NotAuthorizedToCancel]. *)
Theorem cancel_authority caller proposer guardian (s : Governor.ProposalState) :
  (caller = proposer →
     (Governor.cancel caller proposer guardian s = Revert Governor.InvalidProposalState
        ↔ s = Governor.Executed ∨ s = Governor.Canceled ∨ s = Governor.Expired) ∧
     (s ≠ Governor.Executed → s ≠ Governor.Canceled → s ≠ Governor.Expired →
        Governor.cancel caller proposer guardian s = Ok Governor.Canceled)) ∧
  (caller = guardian → caller ≠ proposer →
     (Governor.cancel caller proposer guardian s = Ok Governor.Canceled
        ↔ s = Governor.Pending ∨ s = Governor.Active ∨
          s = Governor.Succeeded ∨ s = Governor.Queued) ∧
     (s = Governor.Defeated ∨ s = Governor.Expired →
        Governor.cancel caller proposer guardian s
        = Revert Governor.InvalidProposalState)) ∧
  (caller ≠ proposer → caller ≠ guardian →
     Governor.cancel caller proposer guardian s = Revert Governor.NotAuthorizedToCancel).
Proof.
  unfold Governor.cancel. split_and!.
  - intros ->. rewrite N.eqb_refl. split.
    + destruct s; simpl; split; intros H; try done; try tauto;
        destruct H as [H|[H|H]]; discriminate H.
    + by destruct s.
  - intros -> Hne. rewrite (proj2 (N.eqb_neq _ _) Hne), N.eqb_refl. split.
    + destruct s; simpl; split; intros H; try done; try tauto;
        destruct H as [H|[H|[H|H]]]; discriminate H.
    + by intros [-> | ->].
  - intros H1 H2.
    by rewrite (proj2 (N.eqb_neq _ _) H1), (proj2 (N.eqb_neq _ _) H2).
Qed.

Lemma cancel_authority_witness :
  Governor.cancel 5 5 6 Governor.Defeated = Ok Governor.Canceled ∧
  Governor.cancel 6 5 6 Governor.Defeated = Revert Governor.InvalidProposalState ∧
  Governor.cancel 7 5 6 Governor.Active = Revert Governor.NotAuthorizedToCancel.
Proof.
  split_and!.
  - apply (proj1 (cancel_authority 5 5 6 Governor.Defeated)); done.
  - apply (proj1 (proj2 (cancel_authority 6 5 6 Governor.Defeated))); auto; done.
  - apply (proj2 (proj2 (cancel_authority 7 5 6 Governor.Active))); done.
Defined.

(** ** DelegateRegistry *)

Lemma registry_fresh_deployed : Registry.deployed 100 50 1 Ledger.empty registry_fresh.
Proof. eexists. split; reflexivity. Defined.

(** *** Self-delegation *)

(** Claim C4 fails on the code: in the scenario of the test
    [test_SelfDelegationAllowed], a registered, active delegator with
    balance and allowance who delegates to itself is turned away. *)
Lemma self_delegation_reverts :
  Registry.isRegisteredDelegator (Registry.reg registry_ready) 31 = true ∧
  Ledger.balanceOf (Registry.vTON registry_ready) 31 = 10000 * ether ∧
  Ledger.allowance (Registry.vTON registry_ready) 31 100 = MAX_UINT256 ∧
  1000 * ether <= Registry.capBound registry_ready ∧
  Registry.delegate (env_at 31 1000000) 31 (1000 * ether) registry_ready
  = Revert Registry.SelfDelegationNotAllowed.
Proof. split_and!; try reflexivity. by vm_compute. Qed.

(** The guard does not depend on the state: every nonzero self-delegation
    is refused. *)
Lemma delegate_to_self env amount w :
  Registry._status (Registry.reg w) = false →
  msg_sender env ≠ 0 → amount ≠ 0 →
  Registry.delegate env (msg_sender env) amount w
  = Revert Registry.SelfDelegationNotAllowed.
Proof.
  intros Hst Hs Ha. unfold Registry.delegate. rewrite Hst. simpl.
  rewrite (proj2 (N.eqb_neq _ _) Hs), (proj2 (N.eqb_neq _ _) Ha). simpl.
  by rewrite N.eqb_refl.
Qed.

(** *** Ledger and sum lemmas *)

Lemma ledger_transfer_supply from to v l l' :
  Ledger._transfer from to v l = Ok l' → Ledger.totalSupply l' = Ledger.totalSupply l.
Proof. unfold Ledger._transfer. intros H. unroll H. by injection H as <-. Qed.

Lemma ledger_transferFrom_supply sp from to v l l' :
  Ledger.transferFrom sp from to v l = Ok l' →
  Ledger.totalSupply l' = Ledger.totalSupply l.
Proof.
  unfold Ledger.transferFrom. intros H. unroll H.
  apply ledger_transfer_supply in H. rewrite H.
  unfold Ledger._spendAllowance in Hcall.
  destruct (_ =? MAX_UINT256); [by injection Hcall as <-|].
  unroll Hcall. by injection Hcall as <-.
Qed.

Lemma ledger_mint_supply a v l l' :
  Ledger._mint a v l = Ok l' → Ledger.totalSupply l' = Ledger.totalSupply l + v.
Proof.
  unfold Ledger._mint. intros H. unroll H. apply add_checked_inv in Hcall as [-> _].
  by injection H as <-.
Qed.

Lemma lift_inv {A} (r : result Ledger.error A) a : Registry.lift r = Ok a → r = Ok a.
Proof. destruct r; simpl; congruence. Qed.

Section AmountSum.

Context (P : address * address → Prop) `{∀ k, Decision (P k)}.
Implicit Types (k : address * address) (v : Registry.DelegationInfo).
Implicit Types (m : gmap (address * address) Registry.DelegationInfo).

Lemma amountSum_step_comm k1 k2 v1 v2 (y : N) :
  (if decide (P k1) then (if decide (P k2) then y + Registry.amount v2 else y)
                         + Registry.amount v1
   else (if decide (P k2) then y + Registry.amount v2 else y))
  = (if decide (P k2) then (if decide (P k1) then y + Registry.amount v1 else y)
                           + Registry.amount v2
     else (if decide (P k1) then y + Registry.amount v1 else y)).
Proof. repeat case_decide; lia. Qed.

Lemma amountSum_insert_fresh k v m :
  m !! k = None →
  Registry.amountSum P (<[k:=v]> m)
  = Registry.amountSum P m + (if decide (P k) then Registry.amount v else 0).
Proof.
  intros Hk. unfold Registry.amountSum.
  rewrite map_fold_insert_L; [|intros; apply amountSum_step_comm|done].
  case_decide; lia.
Qed.

Lemma amountSum_delete_Some k v m :
  m !! k = Some v →
  Registry.amountSum P (delete k m) + (if decide (P k) then Registry.amount v else 0)
  = Registry.amountSum P m.
Proof.
  intros Hk. unfold Registry.amountSum.
  rewrite (map_fold_delete_L _ _ k v m); [|intros; apply amountSum_step_comm|done].
  case_decide; lia.
Qed.

Lemma amountSum_delete k m :
  P k →
  Registry.amountSum P (delete k m)
    + Registry.amount (default Registry.noDelegation (m !! k))
  = Registry.amountSum P m.
Proof.
  intros HP. destruct (m !! k) as [v|] eqn:Hk; simpl.
  - rewrite <- (amountSum_delete_Some k v m Hk). by rewrite decide_True.
  - rewrite delete_id by done. lia.
Qed.

Lemma amountSum_insert k v m :
  P k →
  Registry.amountSum P (<[k:=v]> m)
    + Registry.amount (default Registry.noDelegation (m !! k))
  = Registry.amountSum P m + Registry.amount v.
Proof.
  intros HP. rewrite <- insert_delete_eq.
  rewrite amountSum_insert_fresh by apply lookup_delete_eq.
  rewrite decide_True by done.
  pose proof (amountSum_delete k m HP). lia.
Qed.

Lemma amountSum_delete_out k m :
  ¬ P k → Registry.amountSum P (delete k m) = Registry.amountSum P m.
Proof.
  intros HP. destruct (m !! k) as [v|] eqn:Hk.
  - rewrite <- (amountSum_delete_Some k v m Hk). rewrite decide_False by done. lia.
  - by rewrite delete_id.
Qed.

Lemma amountSum_insert_out k v m :
  ¬ P k → Registry.amountSum P (<[k:=v]> m) = Registry.amountSum P m.
Proof.
  intros HP. rewrite <- insert_delete_eq.
  rewrite amountSum_insert_fresh by apply lookup_delete_eq.
  rewrite decide_False by done. rewrite amountSum_delete_out by done. lia.
Qed.

Lemma amountSum_lookup_le k m :
  P k → Registry.amount (default Registry.noDelegation (m !! k)) <= Registry.amountSum P m.
Proof. intros HP. pose proof (amountSum_delete k m HP). lia. Qed.

End AmountSum.

Lemma delegatedSum_delete (o : address) (k : address * address)
    (m : gmap (address * address) Registry.DelegationInfo) :
  k.1 = o →
  Registry.delegatedSum o (delete k m)
    + Registry.amount (default Registry.noDelegation (m !! k))
  = Registry.delegatedSum o m.
Proof. apply (amountSum_delete (λ k, k.1 = o)). Qed.

Lemma delegatedSum_insert (o : address) (k : address * address) (v : Registry.DelegationInfo)
    (m : gmap (address * address) Registry.DelegationInfo) :
  k.1 = o →
  Registry.delegatedSum o (<[k:=v]> m)
    + Registry.amount (default Registry.noDelegation (m !! k))
  = Registry.delegatedSum o m + Registry.amount v.
Proof. apply (amountSum_insert (λ k, k.1 = o)). Qed.

Lemma ledger_transfer_balances from to v l l' :
  Ledger._transfer from to v l = Ok l' → from ≠ to →
  Ledger.balanceOf l' from + v = Ledger.balanceOf l from ∧
  Ledger.balanceOf l' to = Ledger.balanceOf l to + v.
Proof.
  unfold Ledger._transfer. intros H Hne. unroll H. injection H as <-.
  apply N.leb_le in Hreq1. unfold Ledger.balanceOf in *. simpl.
  rewrite getN_insert_eq, getN_insert_ne, getN_insert_eq by done.
  rewrite getN_insert_ne by done. lia.
Qed.

Lemma ledger_spendAllowance_balances o s v l l' :
  Ledger._spendAllowance o s v l = Ok l' → Ledger._balances l' = Ledger._balances l.
Proof.
  unfold Ledger._spendAllowance. intros H.
  destruct (_ =? MAX_UINT256); [by injection H as <-|].
  unroll H. by injection H as <-.
Qed.

Lemma ledger_transferFrom_balances sp from to v l l' :
  Ledger.transferFrom sp from to v l = Ok l' → from ≠ to →
  Ledger.balanceOf l' from + v = Ledger.balanceOf l from ∧
  Ledger.balanceOf l' to = Ledger.balanceOf l to + v.
Proof.
  unfold Ledger.transferFrom. intros H Hne. unroll H.
  apply ledger_spendAllowance_balances in Hcall.
  apply ledger_transfer_balances in H; [|done].
  unfold Ledger.balanceOf in *. by rewrite Hcall in H.
Qed.

Lemma topUp_amount env s d old a rec :
  Registry.topUp env s d old a = Ok rec →
  Registry.amount rec = Registry.amount old + a ∧
  Registry.delegatedAt rec = block_timestamp env.
Proof.
  unfold Registry.topUp. intros H. unroll H.
  apply add_checked_inv in Hcall as [-> _]. by injection H as <-.
Qed.

(** *** The registry invariant *)

Lemma ledger_mint_bound a v l l' :
  Ledger._mint a v l = Ok l' → Ledger.totalSupply l' <= Ledger.MAX_SUPPLY.
Proof.
  unfold Ledger._mint. intros H. unroll H. injection H as <-.
  by apply N.leb_le in Hreq0.
Qed.

Lemma registry_inv_deployed self tok o l w :
  Registry.deployed self tok o l w →
  Ledger.totalSupply l <= Ledger.MAX_SUPPLY →
  registry_inv w.
Proof.
  intros (s & Hc & ->) Hl. unfold Registry.constructor in Hc. unroll Hc.
  injection Hc as <-. unfold registry_inv, Registry.getTotalDelegated, getN. simpl.
  split_and!; [by vm_compute|done| |].
  - intros d. rewrite lookup_empty. simpl. lia.
  - intros d. rewrite lookup_empty. simpl.
    unfold Registry.delegatedToSum, Registry.amountSum. by rewrite map_fold_empty.
Qed.

(** Writing the record of the pair [(o, d)] and moving the total of [d] by
    the same amount keeps sums and totals equal. *)
Lemma delegatedToSum_write (o d : address) (rec : Registry.DelegationInfo) (t : N)
    (dels : gmap (address * address) Registry.DelegationInfo)
    (total : gmap address N) :
  (∀ d', Registry.delegatedToSum d' dels = getN total d') →
  t + Registry.amount (default Registry.noDelegation (dels !! (o, d)))
    = getN total d + Registry.amount rec →
  ∀ d', Registry.delegatedToSum d' (<[(o, d) := rec]> dels) = getN (<[d := t]> total) d'.
Proof.
  intros Hsum Ht d'. destruct (decide (d = d')) as [<-|Hne].
  - rewrite getN_insert_eq.
    pose proof (amountSum_insert (λ k, k.2 = d) (o, d) rec dels eq_refl) as Hi.
    specialize (Hsum d). unfold Registry.delegatedToSum in *. lia.
  - rewrite getN_insert_ne by done. rewrite <- Hsum.
    apply (amountSum_insert_out (λ k, k.2 = d')). simpl. congruence.
Qed.

Lemma delegatedToSum_erase (o d : address) (t : N)
    (dels : gmap (address * address) Registry.DelegationInfo)
    (total : gmap address N) :
  (∀ d', Registry.delegatedToSum d' dels = getN total d') →
  t + Registry.amount (default Registry.noDelegation (dels !! (o, d))) = getN total d →
  ∀ d', Registry.delegatedToSum d' (delete (o, d) dels) = getN (<[d := t]> total) d'.
Proof.
  intros Hsum Ht d'. destruct (decide (d = d')) as [<-|Hne].
  - rewrite getN_insert_eq.
    pose proof (amountSum_delete (λ k, k.2 = d) (o, d) dels eq_refl) as Hi.
    specialize (Hsum d). unfold Registry.delegatedToSum in *. lia.
  - rewrite getN_insert_ne by done. rewrite <- Hsum.
    apply (amountSum_delete_out (λ k, k.2 = d')). simpl. congruence.
Qed.

Lemma capped_below_supply supply cap :
  cap <= Registry.MAX_CAP → supply * cap / Registry.MAX_CAP <= supply.
Proof.
  intros Hc. apply N.Div0.div_le_upper_bound. unfold Registry.MAX_CAP in *. nia.
Qed.

Lemma registry_inv_step env c w w' :
  registry_inv w → Registry.exec env c w = Ok w' → registry_inv w'.
Proof.
  intros (Hcap & Hsup & Htot & Hsum) H.
  unfold Registry.getTotalDelegated in *.
  destruct c; simpl in H.
  - unfold Registry.on_reg, Registry.registerDelegator in H. unroll H. unroll Hcall.
    injection Hcall as <-. by injection H as <-.
  - unfold Registry.on_reg, Registry.updateDelegator in H. unroll H. unroll Hcall.
    injection Hcall as <-. by injection H as <-.
  - unfold Registry.on_reg, Registry.deactivateDelegator in H. unroll H. unroll Hcall.
    injection Hcall as <-. by injection H as <-.
  - (* delegate *)
    unfold Registry.delegate in H. unroll H. injection H as <-.
    apply mul_checked_inv in Hcall as [-> _].
    apply add_checked_inv in Hcall0 as [-> _].
    apply N.leb_le in Hreq4.
    apply lift_inv, ledger_transferFrom_supply in Hcall1.
    apply topUp_amount in Hcall2 as [Hamt _].
    pose proof (capped_below_supply (Ledger.totalSupply (Registry.vTON w)) _ Hcap) as Hb.
    unfold registry_inv, Registry.getTotalDelegated. simpl. rewrite Hcall1.
    split_and!; [done|done| |].
    + intros d. destruct (decide (delegator_ = d)) as [<-|Hne].
      * rewrite getN_insert_eq. lia.
      * by rewrite getN_insert_ne.
    + apply delegatedToSum_write; [done|].
      unfold Registry.getDelegation in Hamt. lia.
  - (* undelegate *)
    unfold Registry.undelegate in H. unroll H. injection H as <-.
    apply N.leb_le in Hreq2.
    apply sub_checked_inv in Hcall as [-> Hle].
    apply lift_inv, ledger_transfer_supply in Hcall2.
    unfold registry_inv, Registry.getTotalDelegated. simpl. rewrite Hcall2.
    unfold Registry.getDelegation in *.
    split_and!; [done|done| |].
    + intros d. destruct (decide (delegator_ = d)) as [<-|Hne].
      * rewrite getN_insert_eq. specialize (Htot delegator_). lia.
      * by rewrite getN_insert_ne.
    + destruct (Registry.amount _ - amount_ =? 0) eqn:Hleft.
      * apply delegatedToSum_erase; [done|]. apply N.eqb_eq in Hleft. lia.
      * apply delegatedToSum_write; [done|]. simpl. lia.
  - (* redelegate *)
    unfold Registry.redelegate in H. unroll H. injection H as <-.
    apply mul_checked_inv in Hcall as [-> _].
    apply add_checked_inv in Hcall0 as [-> _].
    apply N.leb_le in Hreq4. apply N.leb_le in Hreq5.
    apply sub_checked_inv in Hcall1 as [-> Hle].
    apply topUp_amount in Hcall2 as [Hamt _].
    apply add_checked_inv in Hcall3 as [-> _].
    pose proof (capped_below_supply (Ledger.totalSupply (Registry.vTON w)) _ Hcap) as Hb.
    unfold registry_inv, Registry.getTotalDelegated. simpl.
    unfold Registry.getDelegation in *.
    split_and!; [done|done| |].
    + intros d. pose proof (Htot d) as Hd. pose proof (Htot fromDelegator) as Hf.
      destruct (decide (toDelegator = d)) as [<-|Hne].
      * rewrite getN_insert_eq.
        destruct (decide (fromDelegator = toDelegator)) as [->|Hft].
        -- rewrite getN_insert_eq. lia.
        -- rewrite getN_insert_ne by done. lia.
      * rewrite getN_insert_ne by done.
        destruct (decide (fromDelegator = d)) as [<-|Hfd].
        -- rewrite getN_insert_eq. lia.
        -- by rewrite getN_insert_ne.
    + apply delegatedToSum_write; [|lia].
      destruct (Registry.amount _ - amount_ =? 0) eqn:Hleft.
      * apply delegatedToSum_erase; [done|]. apply N.eqb_eq in Hleft. lia.
      * apply delegatedToSum_write; [done|]. simpl. lia.
  - (* setDelegationCap *)
    unfold Registry.on_reg, Registry.setDelegationCap in H. unroll H. unroll Hcall.
    injection Hcall as <-. injection H as <-. apply N.leb_le in Hreq0.
    by unfold registry_inv.
  - unfold Registry.on_reg, Registry.setDelegationPeriodRequirement in H. unroll H.
    unroll Hcall. injection Hcall as <-. by injection H as <-.
  - unfold Registry.on_reg, Registry.setAutoExpiryPeriod in H. unroll H.
    unroll Hcall. injection Hcall as <-. by injection H as <-.
  - unfold Registry.on_token in H. unroll H. injection H as <-.
    apply lift_inv in Hcall. pose proof (ledger_mint_bound _ _ _ _ Hcall) as Hb.
    apply ledger_mint_supply in Hcall.
    unfold registry_inv, Registry.getTotalDelegated. simpl.
    split_and!; [done|done| |done].
    intros d. specialize (Htot d). lia.
  - unfold Registry.on_token in H. unroll H. injection H as <-.
    apply lift_inv, ledger_transfer_supply in Hcall.
    unfold registry_inv, Registry.getTotalDelegated. simpl. by rewrite Hcall.
  - unfold Registry.on_token in H. unroll H. injection H as <-.
    injection Hcall as <-. by unfold registry_inv.
  - unfold Registry.on_token in H. unroll H. injection H as <-.
    apply lift_inv, ledger_transferFrom_supply in Hcall.
    unfold registry_inv, Registry.getTotalDelegated. simpl. by rewrite Hcall.
Qed.

Lemma registry_inv_run txs w : registry_inv w → registry_inv (Registry.run txs w).
Proof.
  revert w. induction txs as [|[env c] txs IH]; simpl; intros w Hinv; [done|].
  apply IH. destruct (Registry.exec env c w) as [w'|e] eqn:Hex; simpl; [|done].
  by eapply registry_inv_step.
Qed.

(** In a state that satisfies the invariant no delegation record exceeds the
    supply ceiling of the token. *)
Lemma registry_inv_amount w o d :
  registry_inv w →
  Registry.amount (Registry.getDelegation (Registry.reg w) o d) <= Ledger.MAX_SUPPLY.
Proof.
  intros (_ & Hsup & Htot & Hsum).
  pose proof (amountSum_lookup_le (λ k, k.2 = d) (o, d)
                (Registry._delegations (Registry.reg w)) eq_refl) as Hle.
  specialize (Hsum d). specialize (Htot d).
  unfold Registry.delegatedToSum, Registry.getDelegation in *. lia.
Qed.

(** *** The delegation cap *)

Lemma capBound_mono w w' :
  Ledger.totalSupply (Registry.vTON w) <= Ledger.totalSupply (Registry.vTON w') →
  Registry.delegationCap (Registry.reg w) <= Registry.delegationCap (Registry.reg w') →
  Registry.capBound w <= Registry.capBound w'.
Proof.
  intros Hs Hc. unfold Registry.capBound. apply N.Div0.div_le_mono. nia.
Qed.

(** A successful call that does not lower the cap keeps every total under
    the cap bound. *)
Lemma cap_step env c w w' :
  Registry.cap_respected w →
  Registry.delegationCap (Registry.reg w) <= Registry.delegationCap (Registry.reg w') →
  Registry.exec env c w = Ok w' →
  Registry.cap_respected w'.
Proof.
  intros Hinv Hcap H.
  assert (Hsame : ∀ w1,
    Registry._totalDelegated (Registry.reg w1) = Registry._totalDelegated (Registry.reg w) →
    Registry.capBound w <= Registry.capBound w1 → Registry.cap_respected w1).
  { intros w1 Ht Hb d. unfold Registry.getTotalDelegated. rewrite Ht.
    etrans; [apply Hinv|done]. }
  destruct c; simpl in H.
  - unfold Registry.on_reg, Registry.registerDelegator in H. unroll H. unroll Hcall.
    injection Hcall as <-. injection H as <-. by apply Hsame.
  - unfold Registry.on_reg, Registry.updateDelegator in H. unroll H. unroll Hcall.
    injection Hcall as <-. injection H as <-. by apply Hsame.
  - unfold Registry.on_reg, Registry.deactivateDelegator in H. unroll H. unroll Hcall.
    injection Hcall as <-. injection H as <-. by apply Hsame.
  - (* delegate *)
    unfold Registry.delegate in H. unroll H. injection H as <-.
    apply mul_checked_inv in Hcall as [-> _].
    apply N.leb_le in Hreq4.
    apply lift_inv, ledger_transferFrom_supply in Hcall1.
    intros d. unfold Registry.getTotalDelegated, Registry.capBound. simpl.
    rewrite Hcall1. destruct (decide (delegator_ = d)) as [<-|Hne].
    + by rewrite getN_insert_eq.
    + rewrite getN_insert_ne by done. apply Hinv.
  - (* undelegate *)
    unfold Registry.undelegate in H. unroll H. injection H as <-.
    apply sub_checked_inv in Hcall as [-> Hle].
    apply lift_inv, ledger_transfer_supply in Hcall2.
    intros d. unfold Registry.getTotalDelegated, Registry.capBound. simpl.
    rewrite Hcall2. destruct (decide (delegator_ = d)) as [<-|Hne].
    + rewrite getN_insert_eq. etrans; [|apply (Hinv delegator_)].
      unfold Registry.getTotalDelegated. lia.
    + rewrite getN_insert_ne by done. apply Hinv.
  - (* redelegate *)
    unfold Registry.redelegate in H. unroll H. injection H as <-.
    apply mul_checked_inv in Hcall as [-> _].
    apply add_checked_inv in Hcall0 as [-> _].
    apply N.leb_le in Hreq5.
    apply sub_checked_inv in Hcall1 as [-> Hle].
    apply add_checked_inv in Hcall3 as [-> _].
    intros d. unfold Registry.getTotalDelegated, Registry.capBound. simpl.
    pose proof (Hinv d) as Hd. pose proof (Hinv fromDelegator) as Hf.
    unfold Registry.getTotalDelegated, Registry.capBound in Hd, Hf.
    destruct (decide (toDelegator = d)) as [<-|Hne].
    + rewrite getN_insert_eq.
      destruct (decide (fromDelegator = toDelegator)) as [->|Hft].
      * rewrite getN_insert_eq. etrans; [|exact Hd]. lia.
      * by rewrite getN_insert_ne.
    + rewrite getN_insert_ne by done.
      destruct (decide (fromDelegator = d)) as [<-|Hfd].
      * rewrite getN_insert_eq. etrans; [|exact Hf]. lia.
      * by rewrite getN_insert_ne.
  - (* setDelegationCap *)
    unfold Registry.on_reg, Registry.setDelegationCap in H. unroll H. unroll Hcall.
    injection Hcall as <-. injection H as <-. apply Hsame; [done|].
    by apply capBound_mono.
  - unfold Registry.on_reg, Registry.setDelegationPeriodRequirement in H. unroll H. unroll Hcall.
    injection Hcall as <-. injection H as <-. by apply Hsame.
  - unfold Registry.on_reg, Registry.setAutoExpiryPeriod in H. unroll H. unroll Hcall.
    injection Hcall as <-. injection H as <-. by apply Hsame.
  - unfold Registry.on_token in H. unroll H. injection H as <-.
    apply lift_inv, ledger_mint_supply in Hcall.
    apply Hsame; [done|]. apply capBound_mono; simpl; [lia|done].
  - unfold Registry.on_token in H. unroll H. injection H as <-.
    apply lift_inv, ledger_transfer_supply in Hcall.
    apply Hsame; [done|]. apply capBound_mono; simpl; [lia|done].
  - unfold Registry.on_token in H. unroll H. injection H as <-.
    injection Hcall as <-.
    apply Hsame; [done|]. apply capBound_mono; simpl; [|done].
    unfold Ledger.totalSupply, Ledger.approve. simpl. lia.
  - unfold Registry.on_token in H. unroll H. injection H as <-.
    apply lift_inv, ledger_transferFrom_supply in Hcall.
    apply Hsame; [done|]. apply capBound_mono; simpl; [lia|done].
Qed.

(** Claim C1 as stated fails: after a delegation that uses the whole
    headroom of a delegator, the owner lowers the cap from 20% to 10%; the
    total delegated to the delegator (4000 tokens) is then above the bound
    [totalSupply * delegationCap / 10000] (2000 tokens). *)
Lemma cap_lowered_counterexample :
  Registry.getTotalDelegated (Registry.reg registry_cap_lowered) 41 = 4000 * ether ∧
  Registry.delegationCap (Registry.reg registry_cap_lowered) = 1000 ∧
  Registry.capBound registry_cap_lowered = 2000 * ether ∧
  ¬ Registry.cap_respected registry_cap_lowered.
Proof.
  split_and!; [by vm_compute..|].
  intros H. specialize (H 41). vm_compute in H. by apply H.
Qed.

(** Claim C1, amended: the bound
    [totalDelegated(D) <= totalSupply * delegationCap / 10000] holds for
    every delegator in a freshly deployed registry and is preserved by every
    sequence of registry and token calls in which no successful
    [setDelegationCap] lowers the cap; and, in every state reached from a
    deployment, a [delegate] call that passes the earlier guards and would
    push the total of its delegator past the bound reverts, with
    [DelegationCapExceeded] (with the arithmetic panic when the new total
    does not even fit in uint256), leaving registry and balances as they
    were. *)
Theorem delegation_cap_bound :
  (∀ self tok o l w, Registry.deployed self tok o l w → Registry.cap_respected w) ∧
  (∀ txs w,
     Registry.cap_respected w → Registry.cap_never_lowered txs w →
     Registry.cap_respected (Registry.run txs w)) ∧
  (∀ env d amount w,
     registry_inv w →
     Registry._status (Registry.reg w) = false →
     d ≠ 0 → amount ≠ 0 → d ≠ msg_sender env →
     Registry.isRegisteredDelegator (Registry.reg w) d = true →
     Registry.capBound w < Registry.getTotalDelegated (Registry.reg w) d + amount →
     Registry.delegate env d amount w
     = Revert (if Registry.getTotalDelegated (Registry.reg w) d + amount <=? MAX_UINT256
               then Registry.DelegationCapExceeded
               else Registry.Panic 17) ∧
     state_after (Registry.delegate env d amount w) w = w).
Proof.
  split_and!.
  - intros self tok o l w (s & Hc & ->) d.
    unfold Registry.constructor in Hc. unroll Hc. injection Hc as <-.
    unfold Registry.getTotalDelegated, getN. simpl. rewrite lookup_empty. simpl. lia.
  - induction txs as [|[env c] txs IH]; simpl; intros w Hinv Hcap; [done|].
    destruct (Registry.exec env c w) as [w'|e] eqn:Hex; simpl; [|by apply IH].
    destruct Hcap as [Hc Hrest]. apply IH; [|done]. by eapply cap_step.
  - intros env d amount w (Hcap & Hsup & _) Hst Hd Ha Hself Hreg Hover.
    match goal with |- ?call = Revert ?e ∧ _ =>
      assert (call = Revert e) as Hrev; [|by rewrite Hrev] end.
    unfold Registry.delegate. rewrite Hst. simpl.
    rewrite (proj2 (N.eqb_neq _ _) Hd), (proj2 (N.eqb_neq _ _) Ha),
      (proj2 (N.eqb_neq _ _) Hself). simpl.
    unfold Registry.isRegisteredDelegator in Hreg.
    apply andb_true_iff in Hreg as [Hr1 Hr2]. apply negb_true_iff in Hr1.
    rewrite Hr1, Hr2. simpl.
    unfold mul_checked. rewrite (proj2 (N.leb_le _ _)); simpl.
    2:{ etrans; [apply N.mul_le_mono; [exact Hsup|exact Hcap]|]. by vm_compute. }
    unfold Registry.getTotalDelegated, Registry.capBound in *.
    destruct (N.leb_spec (getN (Registry._totalDelegated (Registry.reg w)) d + amount)
                MAX_UINT256) as [Hfit|Hbig].
    + rewrite (add_checked_ok _ _ _ Hfit). simpl.
      by rewrite (proj2 (N.leb_gt _ _) Hover).
    + by rewrite (add_checked_overflow _ _ _ Hbig).
Qed.

Lemma registry_ready_inv : registry_inv registry_ready.
Proof.
  apply registry_inv_run.
  apply (registry_inv_deployed 100 50 1 Ledger.empty); [|by vm_compute].
  eexists. split; reflexivity.
Defined.

Lemma delegation_cap_bound_witness :
  Registry.cap_respected
    (Registry.run
       (registry_setup ++ [(env_at 31 1000000, Registry.Delegate 41 (4000 * ether))])
       registry_fresh) ∧
  Registry.delegate (env_at 32 1000300) 41 (1 * ether) registry_at_cap
  = Revert Registry.DelegationCapExceeded ∧
  state_after (Registry.delegate (env_at 32 1000300) 41 (1 * ether) registry_at_cap)
    registry_at_cap = registry_at_cap.
Proof.
  destruct delegation_cap_bound as (Hinit & Hrun & Hrev).
  split.
  - apply Hrun.
    + exact (Hinit _ _ _ _ _ registry_fresh_deployed).
    + by vm_compute.
  - apply (Hrev (env_at 32 1000300) 41 (1 * ether) registry_at_cap).
    + apply registry_inv_run, registry_ready_inv.
    + by vm_compute.
    + discriminate.
    + discriminate.
    + discriminate.
    + by vm_compute.
    + by vm_compute.
Defined.

(** *** Conservation of an owner's holdings *)

(** One successful delegation call of an owner other than the registry
    itself leaves the owner's holdings as they were. *)
Lemma holdings_step env c w w' :
  delegation_call c →
  msg_sender env ≠ Registry.this (Registry.reg w) →
  Registry.exec env c w = Ok w' →
  Registry.holdings w' (msg_sender env) = Registry.holdings w (msg_sender env) ∧
  Registry.this (Registry.reg w') = Registry.this (Registry.reg w).
Proof.
  intros Hc Hne H. destruct c; try done; simpl in H.
  - (* delegate *)
    unfold Registry.delegate in H. unroll H. injection H as <-.
    apply lift_inv, ledger_transferFrom_balances in Hcall1 as [Hb _]; [|done].
    apply topUp_amount in Hcall2 as [Hamt _].
    unfold Registry.holdings. simpl. split; [|done].
    pose proof (delegatedSum_insert (msg_sender env) (msg_sender env, delegator_) a2
                  (Registry._delegations (Registry.reg w)) eq_refl) as Hsum.
    unfold Registry.getDelegation in Hamt. lia.
  - (* undelegate *)
    unfold Registry.undelegate in H. unroll H. injection H as <-.
    apply lift_inv, ledger_transfer_balances in Hcall2 as [_ Hb]; [|done].
    apply N.leb_le in Hreq2.
    unfold Registry.holdings. simpl. split; [|done].
    unfold Registry.getDelegation in *.
    destruct (Registry.amount _ - amount_ =? 0) eqn:Hleft.
    + pose proof (delegatedSum_delete (msg_sender env) (msg_sender env, delegator_)
                    (Registry._delegations (Registry.reg w)) eq_refl) as Hsum.
      apply N.eqb_eq in Hleft. lia.
    + match goal with |- context [<[_ := ?v]> _] =>
        pose proof (delegatedSum_insert (msg_sender env) (msg_sender env, delegator_) v
                      (Registry._delegations (Registry.reg w)) eq_refl) as Hsum end.
      simpl in Hsum. lia.
  - (* redelegate *)
    unfold Registry.redelegate in H. unroll H. injection H as <-.
    apply N.leb_le in Hreq4.
    apply topUp_amount in Hcall2 as [Hamt _].
    unfold Registry.holdings. simpl. split; [|done]. f_equal.
    unfold Registry.getDelegation in *.
    match goal with |- context [<[(msg_sender env, toDelegator) := a2]> ?m1] =>
      pose proof (delegatedSum_insert (msg_sender env) (msg_sender env, toDelegator) a2
                    m1 eq_refl) as Hsum2; set (dels1 := m1) in * end.
    assert (Hsum1 : Registry.delegatedSum (msg_sender env) dels1 + amount_
                    = Registry.delegatedSum (msg_sender env)
                        (Registry._delegations (Registry.reg w))).
    { subst dels1. destruct (Registry.amount _ - amount_ =? 0) eqn:Hleft.
      - pose proof (delegatedSum_delete (msg_sender env) (msg_sender env, fromDelegator)
                      (Registry._delegations (Registry.reg w)) eq_refl) as Hsum.
        apply N.eqb_eq in Hleft. lia.
      - match goal with |- context [<[_ := ?v]> _] =>
          pose proof (delegatedSum_insert (msg_sender env) (msg_sender env, fromDelegator) v
                        (Registry._delegations (Registry.reg w)) eq_refl) as Hsum end.
        simpl in Hsum. lia. }
    lia.
Qed.

(** Claim C2: for an owner other than the registry contract itself, the
    token balance plus the sum of the amounts of the owner's delegation
    records is the same after any sequence of [delegate], [undelegate] and
    [redelegate] calls made by the owner (each call either succeeds or
    reverts and changes nothing). *)
Theorem holdings_conserved o txs w :
  o ≠ Registry.this (Registry.reg w) →
  Forall (λ tx : Env * Registry.call, msg_sender tx.1 = o ∧ delegation_call tx.2) txs →
  Registry.holdings (Registry.run txs w) o = Registry.holdings w o.
Proof.
  intros Hne Hall. revert w Hne.
  induction Hall as [|[env c] txs [Hs Hc] _ IH]; intros w Hne; [done|].
  simpl in *. subst o.
  destruct (Registry.exec env c w) as [w'|e] eqn:Hex; simpl; [|by apply IH].
  destruct (holdings_step env c w w' Hc Hne Hex) as [Hh Ht].
  rewrite IH; [done|]. by rewrite Ht.
Qed.

Lemma holdings_conserved_witness :
  Registry.holdings (Registry.run owner_moves registry_ready) 31
  = Registry.holdings registry_ready 31.
Proof.
  apply holdings_conserved.
  - vm_compute. discriminate.
  - unfold owner_moves. repeat constructor.
Defined.

(** In the scenario the tokens did move: 300 are left with 41, 300 are with
    42, and the free balance is 600 short of the initial 10000. *)
Lemma owner_moves_effect :
  Ledger.balanceOf (Registry.vTON (Registry.run owner_moves registry_ready)) 31
  = 9400 * ether ∧
  Registry.amount (Registry.getDelegation
                     (Registry.reg (Registry.run owner_moves registry_ready)) 31 41)
  = 300 * ether ∧
  Registry.amount (Registry.getDelegation
                     (Registry.reg (Registry.run owner_moves registry_ready)) 31 42)
  = 300 * ether.
Proof. split_and!; by vm_compute. Qed.

(** *** Voting power *)

Lemma votingPowerStep_term now cutoff s d v o :
  v <= MAX_UINT256 →
  Registry.votingPowerStep now cutoff s d v o
  = add_checked (Registry.Panic 17) v (votingTerm now cutoff s d o).
Proof.
  intros Hv. unfold Registry.votingPowerStep, votingTerm.
  destruct ((0 <? _) && (_ <=? cutoff)); simpl;
    [|by rewrite add_checked_ok by lia; rewrite N.add_0_r].
  destruct (0 <? Registry.amount _); simpl;
    [|by rewrite add_checked_ok by lia; rewrite N.add_0_r].
  destruct ((_ =? 0) || (now <? _)); simpl; [done|].
  by rewrite add_checked_ok by lia; rewrite N.add_0_r.
Qed.

(** The loop adds up the terms of the entries, and reverts exactly when
    the running sum leaves uint256. *)
Lemma votingPowerLoop_sum now cutoff s d owners v :
  v <= MAX_UINT256 →
  Registry.votingPowerLoop now cutoff s d owners v
  = if v + votingSum now cutoff s d owners <=? MAX_UINT256
    then Ok (v + votingSum now cutoff s d owners)
    else Revert (Registry.Panic 17).
Proof.
  revert v. induction owners as [|o owners IH]; intros v Hv; simpl.
  - rewrite N.add_0_r. by rewrite (proj2 (N.leb_le _ _) Hv).
  - rewrite votingPowerStep_term by done. unfold add_checked.
    destruct (N.leb_spec (v + votingTerm now cutoff s d o) MAX_UINT256) as [Hle|Hgt]; simpl.
    + rewrite IH by done. by rewrite !N.add_assoc.
    + rewrite (proj2 (N.leb_gt _ _)); [done|]. lia.
Qed.

Lemma votingSum_app now cutoff s d l1 l2 :
  votingSum now cutoff s d (l1 ++ l2)
  = votingSum now cutoff s d l1 + votingSum now cutoff s d l2.
Proof. induction l1 as [|o l1 IH]; simpl; [done|]. rewrite IH. lia. Qed.


Lemma votingTerm_mature now cutoff s d o :
  0 < Registry.delegationTimestamp s d o →
  Registry.delegationTimestamp s d o <= cutoff →
  0 < Registry.amount (Registry.getDelegation s o d) →
  Registry.expiresAt (Registry.getDelegation s o d) = 0
    ∨ now < Registry.expiresAt (Registry.getDelegation s o d) →
  votingTerm now cutoff s d o = Registry.amount (Registry.getDelegation s o d).
Proof.
  intros H1 H2 H3 H4. unfold votingTerm.
  rewrite (proj2 (N.ltb_lt _ _) H1), (proj2 (N.leb_le _ _) H2),
    (proj2 (N.ltb_lt _ _) H3). simpl.
  destruct H4 as [-> | H4]; [done|].
  by rewrite (proj2 (N.ltb_lt _ _) H4), orb_true_r.
Qed.


(** Two slips of the code around the owner list, outside the amended
    claim.  A full withdrawal clears the timestamp, so the next [delegate]
    appends the owner a second time and the delegation counts twice: *)
Lemma redeposit_counts_twice :
  Registry.ownersOf (Registry.reg registry_redeposited) 41 = [31; 31] ∧
  Registry.amount (Registry.getDelegation (Registry.reg registry_redeposited) 31 41)
  = 1000 * ether ∧
  Registry.getTotalDelegated (Registry.reg registry_redeposited) 41 = 1000 * ether ∧
  Registry.getVotingPower (env_at 99 1700000) 41 0 0 (Registry.reg registry_redeposited)
  = Ok (2000 * ether).
Proof. split_and!; by vm_compute. Qed.

(** and [redelegate] records a timestamp without appending the owner, so a
    delegation that first arrives by [redelegate] never counts, not even
    after a later [delegate] to the same delegator: *)
Lemma redelegated_owner_not_listed :
  Registry.ownersOf (Registry.reg registry_moved_in) 41 = [] ∧
  Registry.amount (Registry.getDelegation (Registry.reg registry_moved_in) 31 41)
  = 150 * ether ∧
  Registry.delegationTimestamp (Registry.reg registry_moved_in) 41 31 = 1000200 ∧
  Registry.getVotingPower (env_at 99 1700000) 41 0 0 (Registry.reg registry_moved_in)
  = Ok 0.
Proof. split_and!; by vm_compute. Qed.

(** *** Bounds on the voting power *)

Lemma votingTerm_le_amount now cutoff s d o :
  votingTerm now cutoff s d o <= Registry.amount (Registry.getDelegation s o d).
Proof. unfold votingTerm. destruct (_ && _); lia. Qed.

Lemma votingSum_bound now cutoff s d owners bound :
  (∀ o, Registry.amount (Registry.getDelegation s o d) <= bound) →
  votingSum now cutoff s d owners <= N.of_nat (length owners) * bound.
Proof.
  intros Hb. induction owners as [|o owners IH]; simpl; [lia|].
  pose proof (votingTerm_le_amount now cutoff s d o). specialize (Hb o). lia.
Qed.

(** * Further properties of the contracts *)

(** ** Timelock: delay, cancellation and roles *)

Lemma fmap_fst_inv {E A B} (r : result E (A * B)) a :
  fst <$> r = Ok a → ∃ b, r = Ok (a, b).
Proof. destruct r as [[a' b]|]; simpl; [|done]. intros [= <-]. eauto. Qed.

Lemma timelock_constructor_inv admin_ delay_ st :
  Timelock.constructor admin_ delay_ = Ok st → timelock_inv st.
Proof.
  unfold Timelock.constructor. intros H. unroll H. injection H as <-.
  apply negb_true_iff, N.eqb_neq in Hreq.
  apply negb_true_iff, orb_false_iff in Hreq0 as [H1 H2].
  apply N.ltb_ge in H1, H2.
  unfold timelock_inv. simpl. by split_and!.
Qed.

Lemma timelock_step_inv hash env c st st' :
  timelock_inv st → Timelock.exec hash env c st = Ok st' → timelock_inv st'.
Proof.
  intros (Hd1 & Hd2 & Hadm & Hst & Hcq) H. destruct c; simpl in H.
  - apply fmap_fst_inv in H as [h H]. unfold Timelock.queueTransaction in H.
    unroll H. injection H as <- _. unfold timelock_inv. simpl.
    split_and!; try done. intros h' Hc. apply Hcq in Hc.
    destruct (decide (hash target value data a = h')) as [<-|Hne].
    + apply getB_insert_eq.
    + unfold getB. by rewrite lookup_insert_ne.
  - apply fmap_fst_inv in H as [ret H]. unfold Timelock.executeTransaction in H.
    unroll H. injection H as <- _. unfold timelock_inv. simpl.
    split_and!; try done. intros h' Hc.
    destruct (decide (hash target value data eta = h')) as [<-|Hne].
    + apply negb_true_iff in Hreq2. congruence.
    + unfold getB. rewrite lookup_insert_ne by done. by apply Hcq.
  - unfold Timelock.cancelTransaction in H. unroll H. injection H as <-.
    unfold timelock_inv. simpl. split_and!; try done. intros h' Hc.
    destruct (decide (hash target value data eta = h')) as [<-|Hne]; [done|].
    apply Hcq. unfold getB in *. by rewrite lookup_insert_ne in Hc.
  - unfold Timelock.cancelTransactionByHash in H. unroll H. injection H as <-.
    unfold timelock_inv. simpl. split_and!; try done. intros h' Hc.
    destruct (decide (txHash = h')) as [<-|Hne]; [done|].
    apply Hcq. unfold getB in *. by rewrite lookup_insert_ne in Hc.
  - unfold Timelock.setGovernor in H. unroll H. by injection H as <-.
  - unfold Timelock.setSecurityCouncil in H. unroll H. by injection H as <-.
  - unfold Timelock.setDelay in H. unroll H. injection H as <-.
    apply negb_true_iff, orb_false_iff in Hreq0 as [H1 H2].
    apply N.ltb_ge in H1, H2. by unfold timelock_inv.
  - unfold Timelock.setAdmin in H. unroll H. injection H as <-.
    apply negb_true_iff, N.eqb_neq in Hreq0. by unfold timelock_inv.
Qed.

Lemma timelock_run_inv hash txs st :
  timelock_inv st → timelock_inv (Timelock.run hash txs st).
Proof.
  revert st. induction txs as [|[env c] txs IH]; simpl; intros st Hinv; [done|].
  apply IH. destruct (Timelock.exec hash env c st) as [st'|e] eqn:Hex; simpl; [|done].
  by eapply timelock_step_inv.
Qed.

Lemma timelock_canceled_step hash env c st st' h :
  Timelock.exec hash env c st = Ok st' →
  getB (Timelock.canceledTransactions st) h = true →
  getB (Timelock.canceledTransactions st') h = true.
Proof.
  intros H Hc. destruct c; simpl in H.
  - apply fmap_fst_inv in H as [h' H]. unfold Timelock.queueTransaction in H.
    unroll H. by injection H as <- _.
  - apply fmap_fst_inv in H as [ret H]. unfold Timelock.executeTransaction in H.
    unroll H. by injection H as <- _.
  - unfold Timelock.cancelTransaction in H. unroll H. injection H as <-. simpl.
    destruct (decide (hash target value data eta = h)) as [<-|Hne].
    + apply getB_insert_eq.
    + unfold getB in *. by rewrite lookup_insert_ne.
  - unfold Timelock.cancelTransactionByHash in H. unroll H. injection H as <-. simpl.
    destruct (decide (txHash = h)) as [<-|Hne].
    + apply getB_insert_eq.
    + unfold getB in *. by rewrite lookup_insert_ne.
  - unfold Timelock.setGovernor in H. unroll H. by injection H as <-.
  - unfold Timelock.setSecurityCouncil in H. unroll H. by injection H as <-.
  - unfold Timelock.setDelay in H. unroll H. by injection H as <-.
  - unfold Timelock.setAdmin in H. unroll H. by injection H as <-.
Qed.

(** X1.  Whatever is sent to a timelock after its construction, its delay
    stays between one hour and thirty days and it keeps an admin. *)
Theorem timelock_delay_within_bounds hash admin_ delay_ st0 txs :
  Timelock.constructor admin_ delay_ = Ok st0 →
  Timelock.MINIMUM_DELAY <= Timelock.delay (Timelock.run hash txs st0) ∧
  Timelock.delay (Timelock.run hash txs st0) <= Timelock.MAXIMUM_DELAY ∧
  Timelock.admin (Timelock.run hash txs st0) ≠ 0.
Proof.
  intros Hc. apply timelock_constructor_inv in Hc.
  by destruct (timelock_run_inv hash txs _ Hc) as (? & ? & ? & _).
Qed.

Lemma timelock_delay_within_bounds_witness :
  Timelock.constructor 1 7200 = Ok (Timelock.run scenario_hash [] timelock_fresh) ∧
  Timelock.MINIMUM_DELAY
    <= Timelock.delay (Timelock.run scenario_hash timelock_history timelock_fresh) ∧
  Timelock.delay (Timelock.run scenario_hash timelock_history timelock_fresh)
    <= Timelock.MAXIMUM_DELAY ∧
  Timelock.admin (Timelock.run scenario_hash timelock_history timelock_fresh) ≠ 0.
Proof.
  split; [reflexivity|].
  apply (timelock_delay_within_bounds scenario_hash 1 7200). reflexivity.
Defined.

(** X2.  A transaction queued at time [t] in a timelock reached from its
    constructor gets the eta [t + delay], at least one hour ahead, and is
    reported as queued.  From then on the governor's execution reverts with
    [TransactionNotReady] before the eta, and goes through anywhere between
    the eta and the end of the grace period when the call to the target
    succeeds, after which the entry is no longer queued; [isReady] says
    exactly whether the time is in that window. *)
Theorem queued_transaction_window hash admin_ delay_ st0 txs env target value data st1 h :
  Timelock.constructor admin_ delay_ = Ok st0 →
  Timelock.queueTransaction hash env target value data (Timelock.run hash txs st0)
    = Ok (st1, h) →
  let eta := block_timestamp env + Timelock.delay (Timelock.run hash txs st0) in
  eta + Timelock.GRACE_PERIOD <= MAX_UINT256 →
  h = hash target value data eta ∧
  block_timestamp env + Timelock.MINIMUM_DELAY <= eta ∧
  Timelock.isQueued st1 h = true ∧
  ∀ env' outcome,
    msg_sender env' = Timelock.governor st1 →
    (block_timestamp env' < eta →
       Timelock.executeTransaction hash env' target value data eta outcome st1
         = Revert Timelock.TransactionNotReady) ∧
    (eta <= block_timestamp env' <= eta + Timelock.GRACE_PERIOD →
       Timelock.success outcome = true →
       ∃ st2,
         Timelock.executeTransaction hash env' target value data eta outcome st1
           = Ok (st2, Timelock.returndata outcome) ∧
         Timelock.isQueued st2 h = false) ∧
    Timelock.isReady env' h st1
      = Ok (bool_decide (eta <= block_timestamp env' <= eta + Timelock.GRACE_PERIOD)).
Proof.
  intros Hc Hq eta Hgrace.
  pose proof (timelock_run_inv hash txs _ (timelock_constructor_inv _ _ _ Hc))
    as (Hd1 & Hd2 & Hadm & Hst & Hcq).
  set (st := Timelock.run hash txs st0) in *.
  unfold Timelock.queueTransaction in Hq. unroll Hq.
  apply add_checked_inv in Hcall as [-> _]. fold eta in Hq, Hreq0.
  injection Hq as <- <-.
  assert (Hnc : getB (Timelock.canceledTransactions st) (hash target value data eta) = false).
  { destruct (getB (Timelock.canceledTransactions st) _) eqn:Hcan; [|done].
    apply Hcq in Hcan. apply negb_true_iff in Hreq0. congruence. }
  split_and!; [done|subst eta; lia| |].
  { unfold Timelock.isQueued. simpl. by rewrite getB_insert_eq, Hnc. }
  intros env' outcome Hgov. simpl in Hgov.
  split_and!.
  - intros Hearly. unfold Timelock.executeTransaction. simpl.
    rewrite Hgov, N.eqb_refl, Hst, getB_insert_eq, Hnc. simpl.
    apply N.ltb_lt in Hearly. by rewrite Hearly.
  - intros [Hlo Hhi] Hsucc. unfold Timelock.executeTransaction. simpl.
    rewrite Hgov, N.eqb_refl, Hst, getB_insert_eq, Hnc. simpl.
    apply N.ltb_ge in Hlo. rewrite Hlo. simpl.
    rewrite (add_checked_ok _ _ _ Hgrace). simpl.
    apply N.ltb_ge in Hhi. rewrite Hhi. simpl. rewrite Hsucc. simpl.
    eexists. split; [reflexivity|].
    unfold Timelock.isQueued. simpl. by rewrite getB_insert_eq.
  - unfold Timelock.isReady. simpl. rewrite getB_insert_eq, Hnc. simpl.
    unfold getN. rewrite lookup_insert_eq. simpl.
    destruct (N.leb_spec eta (block_timestamp env')) as [Hlo|Hlo].
    + rewrite (add_checked_ok _ _ _ Hgrace). simpl. f_equal.
      destruct (N.leb_spec (block_timestamp env') (eta + Timelock.GRACE_PERIOD)).
      * by rewrite bool_decide_eq_true_2.
      * rewrite bool_decide_eq_false_2; [done|lia].
    + rewrite bool_decide_eq_false_2; [done|lia].
Qed.

Lemma queued_transaction_window_witness :
  ∃ st2,
    Timelock.executeTransaction scenario_hash (env_at 7 9200) 9 0 [] 9200 (call_returns [])
      (Timelock.run scenario_hash
         (timelock_history ++ [(env_at 7 2000, Timelock.QueueTransaction 9 0 [])])
         timelock_fresh)
    = Ok (st2, []).
Proof.
  destruct (queued_transaction_window scenario_hash 1 7200 timelock_fresh
              timelock_history (env_at 7 2000) 9 0 []
              (Timelock.run scenario_hash
                 (timelock_history ++ [(env_at 7 2000, Timelock.QueueTransaction 9 0 [])])
                 timelock_fresh)
              (scenario_hash 9 0 [] 9200))
    as (_ & _ & _ & H).
  - reflexivity.
  - vm_compute. reflexivity.
  - vm_compute. discriminate.
  - destruct (H (env_at 7 9200) (call_returns [])) as (_ & Hex & _).
    + vm_compute. reflexivity.
    + destruct Hex as (st2 & Hst2 & _).
      * vm_compute. split; discriminate.
      * reflexivity.
      * exists st2. exact Hst2.
Defined.

Lemma timelock_cancel_sticks_step hash env c st st' h :
  Timelock.exec hash env c st = Ok st' →
  getB (Timelock.canceledTransactions st) h = true →
  getB (Timelock.queuedTransactions st) h = true →
  getB (Timelock.queuedTransactions st') h = true.
Proof.
  intros H Hc Hq. destruct c; simpl in H.
  - apply fmap_fst_inv in H as [h' H]. unfold Timelock.queueTransaction in H.
    unroll H. injection H as <- _. simpl.
    destruct (decide (hash target value data a = h)) as [<-|Hne].
    + apply getB_insert_eq.
    + unfold getB in *. by rewrite lookup_insert_ne.
  - apply fmap_fst_inv in H as [ret H]. unfold Timelock.executeTransaction in H.
    unroll H. injection H as <- _. simpl.
    destruct (decide (hash target value data eta = h)) as [<-|Hne].
    + apply negb_true_iff in Hreq2. congruence.
    + unfold getB in *. by rewrite lookup_insert_ne.
  - unfold Timelock.cancelTransaction in H. unroll H. by injection H as <-.
  - unfold Timelock.cancelTransactionByHash in H. unroll H. by injection H as <-.
  - unfold Timelock.setGovernor in H. unroll H. by injection H as <-.
  - unfold Timelock.setSecurityCouncil in H. unroll H. by injection H as <-.
  - unfold Timelock.setDelay in H. unroll H. by injection H as <-.
  - unfold Timelock.setAdmin in H. unroll H. by injection H as <-.
Qed.

Lemma timelock_cancel_sticks_run hash txs st h :
  getB (Timelock.canceledTransactions st) h = true →
  getB (Timelock.queuedTransactions st) h = true →
  getB (Timelock.canceledTransactions (Timelock.run hash txs st)) h = true ∧
  getB (Timelock.queuedTransactions (Timelock.run hash txs st)) h = true.
Proof.
  revert st. induction txs as [|[env c] txs IH]; simpl; intros st Hc Hq; [done|].
  destruct (Timelock.exec hash env c st) as [st'|e] eqn:Hex; simpl; [|by apply IH].
  apply IH.
  - by eapply timelock_canceled_step.
  - by eapply timelock_cancel_sticks_step.
Qed.

(** X3.  Cancellation is final.  Once the security council has canceled a
    transaction, then after any further transactions the entry is neither
    queued nor ready, its execution reverts whatever the time and the
    caller, and the same transaction with the same eta cannot be queued
    again. *)
Theorem cancel_is_permanent hash env target value data eta st st1 txs :
  Timelock.cancelTransaction hash env target value data eta st = Ok st1 →
  let st' := Timelock.run hash txs st1 in
  let h := hash target value data eta in
  Timelock.isQueued st' h = false ∧
  (∀ env', Timelock.isReady env' h st' = Ok false) ∧
  (∀ env' outcome,
     ∃ e, Timelock.executeTransaction hash env' target value data eta outcome st'
          = Revert e) ∧
  (∀ env', block_timestamp env' + Timelock.delay st' = eta →
     ∃ e, Timelock.queueTransaction hash env' target value data st' = Revert e).
Proof.
  intros H. cbv zeta. unfold Timelock.cancelTransaction in H. unroll H.
  injection H as <-. set (h := hash target value data eta) in *.
  set (st' := Timelock.run hash txs _).
  destruct (timelock_cancel_sticks_run hash txs
              (Timelock.set_queue (Timelock.queuedTransactions st)
                 (<[h := true]> (Timelock.canceledTransactions st))
                 (Timelock.transactionEta st) st) h) as [Hc Hq].
  { apply getB_insert_eq. }
  { done. }
  fold st' in Hc, Hq. split_and!.
  - unfold Timelock.isQueued. by rewrite Hc, andb_false_r.
  - intros env'. unfold Timelock.isReady. by rewrite Hc, orb_true_r.
  - intros env' outcome. unfold Timelock.executeTransaction. fold h.
    destruct (msg_sender env' =? Timelock.governor st'); simpl; [|eauto].
    destruct (Timelock._status st'); simpl; [eauto|].
    rewrite Hq, Hc. simpl. eauto.
  - intros env' Heta. unfold Timelock.queueTransaction.
    destruct (msg_sender env' =? Timelock.governor st'); simpl; [|eauto].
    destruct (add_checked _ _ _) as [eta'|] eqn:Hadd; simpl; [|eauto].
    apply add_checked_inv in Hadd as [-> _]. rewrite Heta. fold h.
    rewrite Hq. simpl. eauto.
Qed.

Lemma cancel_is_permanent_witness :
  ∃ e, Timelock.executeTransaction scenario_hash (env_at 7 9200) 9 0 [] 9200
         (call_returns [])
         (Timelock.run scenario_hash
            [(env_at 7 9300, Timelock.QueueTransaction 9 0 [])]
            (Timelock.run scenario_hash
               (timelock_history ++
                [(env_at 7 2000, Timelock.QueueTransaction 9 0 []);
                 (env_at 8 3000, Timelock.CancelTransaction 9 0 [] 9200)])
               timelock_fresh))
       = Revert e.
Proof.
  destruct (cancel_is_permanent scenario_hash (env_at 8 3000) 9 0 [] 9200
              (Timelock.run scenario_hash
                 (timelock_history ++ [(env_at 7 2000, Timelock.QueueTransaction 9 0 [])])
                 timelock_fresh)
              (Timelock.run scenario_hash
                 (timelock_history ++
                  [(env_at 7 2000, Timelock.QueueTransaction 9 0 []);
                   (env_at 8 3000, Timelock.CancelTransaction 9 0 [] 9200)])
                 timelock_fresh)
              [(env_at 7 9300, Timelock.QueueTransaction 9 0 [])])
    as (_ & _ & H & _).
  - vm_compute. reflexivity.
  - exact (H (env_at 7 9200) (call_returns [])).
Defined.

(** X4.  An account that is neither the admin, nor the governor, nor the
    security council cannot change the timelock: each of its calls
    reverts, with the error of the role that the function asks for. *)
Theorem timelock_outsider_reverts hash env c st :
  msg_sender env ≠ Timelock.admin st →
  msg_sender env ≠ Timelock.governor st →
  msg_sender env ≠ Timelock.securityCouncil st →
  Timelock.exec hash env c st = Revert Timelock.NotAdmin ∨
  Timelock.exec hash env c st = Revert Timelock.NotGovernor ∨
  Timelock.exec hash env c st = Revert Timelock.NotSecurityCouncil.
Proof.
  intros Ha Hg Hs. apply N.eqb_neq in Ha, Hg, Hs.
  destruct c; simpl;
    unfold Timelock.queueTransaction, Timelock.executeTransaction,
      Timelock.cancelTransaction, Timelock.cancelTransactionByHash,
      Timelock.setGovernor, Timelock.setSecurityCouncil, Timelock.setDelay,
      Timelock.setAdmin;
    rewrite ?Ha, ?Hg, ?Hs; simpl; auto.
Qed.

Lemma timelock_outsider_reverts_witness :
  Timelock.exec scenario_hash (env_at 5 1200) (Timelock.SetDelay 0)
    (Timelock.run scenario_hash (take 2 timelock_history) timelock_fresh)
  = Revert Timelock.NotAdmin.
Proof.
  destruct (timelock_outsider_reverts scenario_hash (env_at 5 1200) (Timelock.SetDelay 0)
              (Timelock.run scenario_hash (take 2 timelock_history) timelock_fresh))
    as [H|[H|H]]; try (vm_compute; discriminate).
  exact H.
Defined.

(** ** SecurityCouncil: members, approvals and the life of an action *)

Lemma lookup_split_last {A} (l : list A) i y :
  l !! i = Some y →
  ∃ l1, length l1 = i ∧ (l = l1 ++ [y] ∨ ∃ l2 x, l = l1 ++ y :: l2 ++ [x]).
Proof.
  intros Hl. exists (take i l). split.
  - apply length_take_le. apply lookup_lt_Some in Hl. lia.
  - pose proof (take_drop_middle l i y Hl) as E. revert E.
    destruct (drop (S i) l) as [|z t _] using rev_ind; intros E; [by left|].
    right. by exists t, z.
Qed.

Lemma swap_pop_snoc {A} (l1 : list A) y l2 x :
  removelast (<[length l1 := x]> (l1 ++ y :: l2 ++ [x])) = l1 ++ x :: l2.
Proof.
  rewrite <- (Nat.add_0_r (length l1)), insert_app_r. simpl.
  change (l1 ++ x :: l2 ++ [x]) with (l1 ++ (x :: l2) ++ [x]).
  by rewrite app_assoc, removelast_last.
Qed.

Lemma removeMember_internal_shape member st st1 m :
  Council._removeMember member st = Ok st1 →
  Council._members st !! N.to_nat (getN (Council._memberIndex st) member) = Some m →
  ∃ l1, length l1 = N.to_nat (getN (Council._memberIndex st) member) ∧
    Council._isMember st1 = <[member := false]> (Council._isMember st) ∧
    ((Council._members st = l1 ++ [m] ∧ Council._members st1 = l1 ∧
      Council._memberIndex st1 = delete member (Council._memberIndex st)) ∨
     (∃ l2 x, Council._members st = l1 ++ m :: l2 ++ [x] ∧
        Council._members st1 = l1 ++ x :: l2 ∧
        Council._memberIndex st1
        = delete member (<[Council.account x := getN (Council._memberIndex st) member]>
                           (Council._memberIndex st)))).
Proof.
  intros H Hm. destruct (lookup_split_last _ _ _ Hm) as (l1 & Hlen & Hshape).
  exists l1. split; [done|].
  unfold Council._removeMember in H. unroll H.
  apply sub_checked_inv in Hcall as [-> Hpos].
  unfold Council.memberCount in *.
  destruct Hshape as [Hl|(l2 & x & Hl)]; rewrite Hl in *.
  - rewrite length_app in *. simpl in *.
    replace (getN (Council._memberIndex st) member =? N.of_nat (length l1 + 1) - 1) with true in Hcall0
      by (symmetry; apply N.eqb_eq; lia).
    injection Hcall0 as <-. injection H as <-. simpl.
    split; [done|]. left. by rewrite removelast_last.
  - rewrite !length_app in *. simpl in *. rewrite length_app in *. simpl in *.
    replace (getN (Council._memberIndex st) member =? N.of_nat (length l1 + S (length l2 + 1)) - 1) with false in Hcall0
      by (symmetry; apply N.eqb_neq; lia).
    replace (N.to_nat (N.of_nat (length l1 + S (length l2 + 1)) - 1)) with (length l1 + S (length l2))%nat in Hcall0 by lia.
    rewrite lookup_app_r in Hcall0 by lia.
    replace (length l1 + S (length l2) - length l1)%nat with (S (length l2)) in Hcall0 by lia.
    simpl in Hcall0. rewrite lookup_app_r in Hcall0 by lia.
    rewrite Nat.sub_diag in Hcall0. simpl in Hcall0.
    unroll Hcall0. injection Hcall0 as <-. injection H as <-. simpl.
    split; [done|]. right. exists l2, x. split_and!; [done| |done].
    rewrite <- Hlen. apply swap_pop_snoc.
Qed.

(** The successful calls of the council, by what they do. *)
Lemma council_exec_cases enc env c st st' :
  Council.exec enc env c st = Ok st' →
  (∃ m f, Council.addMember env m f st = Ok st') ∨
  (∃ m, Council.removeMember env m st = Ok st') ∨
  (∃ t dao tgt,
     st' = Council.set_config dao tgt
             (Council.set_membership t (Council._members st) (Council._isMember st)
                (Council._memberIndex st) st)) ∨
  (∃ ty tg d r i,
     Council.isMember st (msg_sender env) = true ∧
     Council.newAction env ty tg d r st = Ok (st', i)) ∨
  (∃ i, Council.approveEmergencyAction env i st = Ok st') ∨
  (∃ i ok, Council.executeEmergencyAction env i ok st = Ok st') ∨
  (∃ i, Council.cancelEmergencyAction env i st = Ok st').
Proof.
  intros H. destruct c; simpl in H.
  - left. eauto.
  - right. left. eauto.
  - do 2 right. left. unfold Council.setThreshold in H. unroll H. injection H as <-.
    by exists newThreshold, (Council.daoGovernor st), (Council.protocolTarget st).
  - do 2 right. left. unfold Council.setDAOGovernor in H. unroll H. injection H as <-.
    exists (Council.threshold st), newGovernor, (Council.protocolTarget st).
    by destruct st.
  - do 2 right. left. unfold Council.setProtocolTarget in H. unroll H. injection H as <-.
    exists (Council.threshold st), (Council.daoGovernor st), newTarget.
    by destruct st.
  - do 3 right. left. apply fmap_fst_inv in H as [i H].
    unfold Council.proposeEmergencyAction in H. unroll H. eauto 10.
  - do 4 right. left. eauto.
  - do 5 right. left. eauto.
  - do 6 right. eauto.
  - do 3 right. left. apply fmap_fst_inv in H as [i H].
    unfold Council.cancelProposal in H. unroll H. eauto 10.
  - do 3 right. left. apply fmap_fst_inv in H as [i H].
    unfold Council.pauseProtocol in H. unroll H. eauto 10.
  - do 3 right. left. apply fmap_fst_inv in H as [i H].
    unfold Council.unpauseProtocol in H. unroll H. eauto 10.
Qed.

(** What a successful execution writes. *)
Lemma executeEmergencyAction_effect env i ok st st' :
  Council.executeEmergencyAction env i ok st = Ok st' →
  let action := Council.getEmergencyAction st i in
  Council.isMember st (msg_sender env) = true ∧
  Council.createdAt action ≠ 0 ∧
  Council.executed action = false ∧
  Council.threshold st <= N.of_nat (length (Council.approvers action)) ∧
  ∃ p, st' = Council.set_paused p
               (Council.set_actions (Council._actionCount st)
                  (<[i := Council.with_executed true (block_timestamp env) action]>
                     (Council._actions st))
                  (Council._removePendingAction i (Council._pendingActionIds st))
                  (Council._approvals st) st).
Proof.
  intros H action. unfold Council.executeEmergencyAction in H. unroll H.
  fold action in Hreq1, Hreq2, Hreq3, H.
  apply negb_true_iff, N.eqb_neq in Hreq1. apply negb_true_iff in Hreq2.
  apply negb_true_iff, N.ltb_ge in Hreq3.
  split_and!; try done.
  destruct (Council.actionType action); unroll H; injection H as <-;
    try (by exists true); try (by exists false);
    exists (Council._paused st); by destruct st.
Qed.

(** *** The foundation seat *)

Lemma addExternalMembers_foundation env ext st st1 :
  Council.addExternalMembers env ext st = Ok st1 →
  Council.foundationMemberCount st1 = Council.foundationMemberCount st.
Proof.
  revert st. induction ext as [|m ext IH]; simpl; intros st H.
  - by injection H as <-.
  - unroll H. rewrite (IH _ H). unfold Council.foundationMemberCount. simpl.
    rewrite filter_app, length_app. simpl. lia.
Qed.

Lemma removeMember_effect env member st st' :
  Council.removeMember env member st = Ok st' →
  ∃ m st1 t,
    Council.isMember st member = true ∧
    Council.MIN_MEMBERS < Council.memberCount st ∧
    Council._members st !! N.to_nat (getN (Council._memberIndex st) member) = Some m ∧
    (Council.isFoundation m = true → Council.foundationMemberCount st ≠ 1) ∧
    Council._removeMember member st = Ok st1 ∧
    st' = Council.set_membership t (Council._members st1) (Council._isMember st1)
            (Council._memberIndex st1) st1.
Proof.
  intros H. unfold Council.removeMember in H. unroll H.
  destruct (Council._members st !! _) as [m|] eqn:Hm; [|done].
  injection Hcall as <-.
  apply negb_true_iff, N.leb_gt in Hreq1.
  apply negb_true_iff, andb_false_iff in Hreq2.
  exists m, a0. injection H as <-.
  exists (if Council.memberCount a0 <? Council.threshold a0
          then Council.memberCount a0 else Council.threshold a0).
  split_and!; try done.
  - intros Hf. destruct Hreq2 as [Hc|Hc]; [congruence|]. by apply N.eqb_neq in Hc.
  - destruct (_ <? _); [done|]. by destruct a0.
Qed.

Lemma council_foundation_step enc env c st st' :
  Council.exec enc env c st = Ok st' →
  1 <= Council.foundationMemberCount st → 1 <= Council.foundationMemberCount st'.
Proof.
  intros H Hf.
  destruct (council_exec_cases _ _ _ _ _ H)
    as [(m & f & Hc)|[(m & Hc)|[(t & dao & tgt & ->)|[(ty & tg & d & r & i & _ & Hc)|
        [(i & Hc)|[(i & ok & Hc)|(i & Hc)]]]]]].
  - unfold Council.addMember in Hc. unroll Hc. injection Hc as <-.
    unfold Council.foundationMemberCount in *. simpl.
    rewrite filter_app, length_app. lia.
  - apply removeMember_effect in Hc as (x & st1 & t & _ & _ & Hx & Hlast & Hrm & ->).
    destruct (removeMember_internal_shape _ _ _ _ Hrm Hx) as (l1 & _ & _ & Hshape).
    unfold Council.foundationMemberCount in *. simpl.
    destruct Hshape as [(Hms & -> & _)|(l2 & y & Hms & -> & _)]; rewrite Hms in *.
    + rewrite filter_app, length_app in *.
      destruct (Council.isFoundation x) eqn:Hfx.
      * specialize (Hlast eq_refl). rewrite filter_cons_True in * by done.
        simpl in *. lia.
      * rewrite filter_cons_False in Hf by congruence. simpl in Hf. lia.
    + change (x :: l2 ++ [y]) with ([x] ++ l2 ++ [y]) in *.
      change (y :: l2) with ([y] ++ l2).
      rewrite !filter_app, !length_app in *.
      destruct (Council.isFoundation x) eqn:Hfx.
      * specialize (Hlast eq_refl). rewrite (filter_cons_True _ x) in * by done.
        simpl in *. lia.
      * rewrite (filter_cons_False _ x) in Hf by congruence. simpl in Hf. lia.
  - done.
  - unfold Council.newAction in Hc. unroll Hc. by injection Hc as <- _.
  - unfold Council.approveEmergencyAction in Hc. unroll Hc. by injection Hc as <-.
  - apply executeEmergencyAction_effect in Hc as (_ & _ & _ & _ & p & ->). done.
  - unfold Council.cancelEmergencyAction in Hc. unroll Hc. by injection Hc as <-.
Qed.

Lemma council_foundation_reachable enc st :
  Council.reachable enc st → 1 <= Council.foundationMemberCount st.
Proof.
  induction 1 as [env f ext dao tl tgt st Hc | env c st st' _ IH Hex].
  - unfold Council.constructor in Hc. unroll Hc.
    apply addExternalMembers_foundation in Hcall. injection Hc as <-.
    unfold Council.foundationMemberCount in *. simpl in *. rewrite Hcall. lia.
  - by eapply council_foundation_step.
Qed.

Lemma council_run_reachable enc txs st :
  Council.reachable enc st → Council.reachable enc (Council.run enc txs st).
Proof.
  revert st. induction txs as [|[env c] txs IH]; simpl; intros st Hr; [done|].
  apply IH. destruct (Council.exec enc env c st) as [st'|e] eqn:Hex; simpl; [|done].
  by eapply Council.reach_step.
Qed.

(** X5.  A council always has a foundation member: in every state reached
    from the constructor at least one listed member is a foundation
    member, the count of external members is computed without underflow,
    and the two counts add up to the member count. *)
Theorem council_keeps_foundation_member enc st :
  Council.reachable enc st →
  1 <= Council.foundationMemberCount st ∧
  ∃ n, Council.externalMemberCount st = Ok n ∧
       Council.foundationMemberCount st + n = Council.memberCount st.
Proof.
  intros Hr. split; [by eapply council_foundation_reachable|].
  unfold Council.externalMemberCount, sub_checked.
  assert (Council.foundationMemberCount st <= Council.memberCount st) as Hle.
  { unfold Council.foundationMemberCount, Council.memberCount.
    pose proof (length_filter (λ m, Council.isFoundation m = true) (Council._members st)).
    lia. }
  destruct (N.leb_spec (Council.foundationMemberCount st) (Council.memberCount st)); [|lia].
  eexists. split; [reflexivity|]. lia.
Qed.

(** *** The member list and its mappings *)

Lemma getB_insert_ne `{Countable K} (m : gmap K bool) k k' v :
  k ≠ k' → getB (<[k:=v]> m) k' = getB m k'.
Proof. intros. unfold getB. by rewrite lookup_insert_ne. Qed.

Lemma getN_delete_ne `{Countable K} (m : gmap K N) k k' :
  k ≠ k' → getN (delete k m) k' = getN m k'.
Proof. intros. unfold getN. by rewrite lookup_delete_ne. Qed.

Lemma addMember_internal_members env member f st :
  council_members_inv st → Council.isMember st member = false →
  council_members_inv (Council._addMember env member f st).
Proof.
  intros (Hnd & Hmem & Hidx) Hnew.
  assert (Hout : member ∉ Council.account <$> Council._members st).
  { intros Hin. apply Hmem in Hin. congruence. }
  unfold council_members_inv, Council.isMember in *. simpl.
  rewrite fmap_app. simpl. split_and!.
  - apply NoDup_app. split_and!; [done| |apply NoDup_singleton].
    by intros x Hx ->%list_elem_of_singleton.
  - intros a. rewrite elem_of_app, list_elem_of_singleton.
    destruct (decide (member = a)) as [<-|Hne].
    + rewrite getB_insert_eq. tauto.
    + rewrite getB_insert_ne by done. rewrite Hmem. intuition congruence.
  - intros i m Hi. apply lookup_app_Some in Hi as [Hi|[Hlen Hi]].
    + rewrite getN_insert_ne; [by apply Hidx|].
      intros ->. apply Hout, list_elem_of_fmap. exists m. split; [done|].
      by eapply list_elem_of_lookup_2.
    + apply list_lookup_singleton_Some in Hi as [Hi <-]. simpl.
      rewrite getN_insert_eq. unfold Council.memberCount. f_equal. lia.
Qed.

Lemma members_inv_lookup st member :
  council_members_inv st → Council.isMember st member = true →
  ∃ m, Council._members st !! N.to_nat (getN (Council._memberIndex st) member) = Some m ∧
       Council.account m = member.
Proof.
  intros (Hnd & Hmem & Hidx) Hin. apply Hmem, list_elem_of_fmap in Hin as (m & -> & Hin).
  apply list_elem_of_lookup in Hin as [i Hi]. exists m. split; [|done].
  by rewrite (Hidx i m Hi), Nat2N.id.
Qed.

Lemma removeMember_internal_members member st st1 :
  council_members_inv st → Council.isMember st member = true →
  Council._removeMember member st = Ok st1 →
  council_members_inv st1.
Proof.
  intros Hinv Hin Hrm. destruct (members_inv_lookup _ _ Hinv Hin) as (x & Hx & Hax).
  destruct Hinv as (Hnd & Hmem & Hidx).
  destruct (removeMember_internal_shape _ _ _ _ Hrm Hx) as (l1 & Hlen & Him & Hshape).
  unfold council_members_inv, Council.isMember in *. rewrite Him.
  destruct Hshape as [(Hms & -> & ->)|(l2 & y & Hms & -> & ->)]; rewrite Hms in *.
  - rewrite fmap_app in *. simpl in *. rewrite Hax in *.
    apply NoDup_app in Hnd as (Hnd1 & Hdisj & _).
    assert (Hout : member ∉ Council.account <$> l1).
    { intros Hm. eapply Hdisj; [done|]. by apply list_elem_of_singleton. }
    split_and!; [done| |].
    + intros a. destruct (decide (member = a)) as [<-|Hne].
      * rewrite getB_insert_eq. split; [done|]. intros Hm. by destruct Hout.
      * rewrite getB_insert_ne by done. rewrite Hmem, elem_of_app, list_elem_of_singleton.
        intuition congruence.
    + intros i m Hi. rewrite getN_delete_ne.
      * apply Hidx. by apply lookup_app_l_Some.
      * intros ->. apply Hout, list_elem_of_fmap. exists m. split; [done|].
        by eapply list_elem_of_lookup_2.
  - assert (Hperm : Council.account <$> (l1 ++ x :: l2 ++ [y])
                    ≡ₚ member :: (Council.account <$> (l1 ++ y :: l2))).
    { rewrite !fmap_app, !fmap_cons, fmap_app. simpl. rewrite Hax.
      rewrite <- Permutation_middle. constructor.
      apply Permutation_app_head. by rewrite <- Permutation_cons_append. }
    rewrite Hperm in Hnd. apply NoDup_cons in Hnd as [Hout Hnd'].
    split_and!; [done| |].
    + intros a. destruct (decide (member = a)) as [<-|Hne].
      * rewrite getB_insert_eq. split; [done|]. intros Hm. by destruct Hout.
      * rewrite getB_insert_ne by done. rewrite Hmem, Hperm, elem_of_cons.
        intuition congruence.
    + assert (Hay : Council.account y ≠ member).
      { intros Heq. apply Hout, list_elem_of_fmap. exists y. split; [done|].
        apply elem_of_app. right. by left. }
      intros i m Hi.
      destruct (decide (Council.account m = member)) as [Hm|Hm].
      { exfalso. apply Hout, list_elem_of_fmap. exists m. split; [done|].
        by eapply list_elem_of_lookup_2. }
      rewrite getN_delete_ne by done.
      apply lookup_app_Some in Hi as [Hi|[Hge Hi]].
      * assert (Council.account y ≠ Council.account m).
        { intros Heq. rewrite fmap_app, fmap_cons in Hnd'.
          apply NoDup_app in Hnd' as (_ & Hdisj & _).
          eapply (Hdisj (Council.account m)).
          - apply list_elem_of_fmap. exists m. split; [done|].
            by eapply list_elem_of_lookup_2.
          - rewrite <- Heq. by left. }
        rewrite getN_insert_ne by done. apply Hidx. by apply lookup_app_l_Some.
      * destruct (i - length l1)%nat as [|k] eqn:Hk; simpl in Hi.
        -- injection Hi as <-. rewrite getN_insert_eq.
           rewrite <- (N2Nat.id (getN _ member)), <- Hlen. f_equal. lia.
        -- assert (Council.account y ≠ Council.account m).
           { intros Heq. rewrite fmap_app, fmap_cons in Hnd'.
             apply NoDup_app in Hnd' as (_ & _ & Hnd2).
             apply NoDup_cons in Hnd2 as [Hy _]. apply Hy. rewrite Heq.
             apply list_elem_of_fmap. exists m. split; [done|].
             by eapply list_elem_of_lookup_2. }
           rewrite getN_insert_ne by done. apply Hidx.
           apply lookup_app_Some. right. split; [done|]. rewrite Hk. simpl.
           by apply lookup_app_l_Some.
Qed.

Lemma addExternalMembers_members env ext st st1 :
  council_members_inv st →
  NoDup ext → (∀ a, a ∈ ext → Council.isMember st a = false) →
  Council.addExternalMembers env ext st = Ok st1 →
  council_members_inv st1.
Proof.
  revert st. induction ext as [|m ext IH]; simpl; intros st Hinv Hnd Hnew H.
  - by injection H as <-.
  - unroll H. apply NoDup_cons in Hnd as [Hm Hnd].
    apply (IH _ (addMember_internal_members env m false st Hinv
                   (Hnew m ltac:(by left))) Hnd); [|done].
    intros a Ha. unfold Council.isMember. simpl.
    rewrite getB_insert_ne by (by intros ->). apply Hnew. by right.
Qed.

Lemma council_constructor_members env f ext dao tl tgt st :
  NoDup (f :: ext) →
  Council.constructor env f ext dao tl tgt = Ok st → council_members_inv st.
Proof.
  intros Hnd H. unfold Council.constructor in H. unroll H.
  apply NoDup_cons in Hnd as [Hf Hnd].
  apply addExternalMembers_members in Hcall; [| |done|].
  - injection H as <-. done.
  - apply addMember_internal_members; [|done].
    unfold council_members_inv, Council.isMember. simpl. split_and!.
    + constructor.
    + intros x. unfold getB. rewrite lookup_empty. simpl.
      split; [done|]. by intros ?%elem_of_nil.
    + intros i m Hi. done.
  - intros x Hx. unfold Council.isMember. simpl.
    rewrite getB_insert_ne by (by intros ->). done.
Qed.

Lemma council_members_step enc env c st st' :
  council_members_inv st → Council.exec enc env c st = Ok st' → council_members_inv st'.
Proof.
  intros Hinv H.
  destruct (council_exec_cases _ _ _ _ _ H)
    as [(m & f & Hc)|[(m & Hc)|[(t & dao & tgt & ->)|[(ty & tg & d & r & i & _ & Hc)|
        [(i & Hc)|[(i & ok & Hc)|(i & Hc)]]]]]].
  - unfold Council.addMember in Hc. unroll Hc. injection Hc as <-.
    apply addMember_internal_members; [done|]. by apply negb_true_iff.
  - apply removeMember_effect in Hc as (x & st1 & t & Hin & _ & _ & _ & Hrm & ->).
    exact (removeMember_internal_members _ _ _ Hinv Hin Hrm).
  - done.
  - unfold Council.newAction in Hc. unroll Hc. by injection Hc as <- _.
  - unfold Council.approveEmergencyAction in Hc. unroll Hc. by injection Hc as <-.
  - apply executeEmergencyAction_effect in Hc as (_ & _ & _ & _ & p & ->). done.
  - unfold Council.cancelEmergencyAction in Hc. unroll Hc. by injection Hc as <-.
Qed.

Lemma council_members_run enc txs st :
  council_members_inv st → council_members_inv (Council.run enc txs st).
Proof.
  revert st. induction txs as [|[env c] txs IH]; simpl; intros st Hinv; [done|].
  apply IH. destruct (Council.exec enc env c st) as [st'|e] eqn:Hex; simpl; [|done].
  by eapply council_members_step.
Qed.

(** *** The bookkeeping of the actions *)

Lemma removePending_keeps x y l :
  NoDup l → y ∈ l → y ≠ x → y ∈ Council._removePendingAction x l.
Proof.
  intros Hnd Hy Hne. destruct (decide (x ∈ l)) as [Hin|Hout].
  - apply list_elem_of_split in Hin as (l1 & l2 & ->).
    apply NoDup_app in Hnd as (_ & Hdisj & _).
    assert (Hx1 : x ∉ l1).
    { intros Hx. apply (Hdisj x Hx). left. }
    rewrite removePending_middle by done.
    apply elem_of_app in Hy as [Hy|Hy]; apply elem_of_app; [by left|right].
    apply elem_of_cons in Hy as [Hy|Hy]; [done|].
    destruct (last l2) as [z|] eqn:Hlast.
    + apply last_Some in Hlast as [l' ->]. rewrite removelast_last.
      apply elem_of_app in Hy as [Hy|Hy]; [by right|].
      apply list_elem_of_singleton in Hy as ->. by left.
    + destruct l2 as [|z l2]; [by apply elem_of_nil in Hy|].
      assert (is_Some (last (z :: l2))) as [? Hs] by by apply last_is_Some.
      congruence.
  - unfold Council._removePendingAction. by rewrite indexOf_absent.
Qed.

Lemma stored_action st i :
  Council.createdAt (Council.getEmergencyAction st i) ≠ 0 →
  Council._actions st !! i = Some (Council.getEmergencyAction st i).
Proof.
  unfold Council.getEmergencyAction.
  by destruct (Council._actions st !! i).
Qed.

Lemma getB_insert_true `{Countable K} (m : gmap K bool) k k' :
  getB m k' = true → getB (<[k:=true]> m) k' = true.
Proof.
  intros Hm. destruct (decide (k = k')) as [<-|Hne].
  - apply getB_insert_eq.
  - by rewrite getB_insert_ne.
Qed.

Lemma council_newAction_actions env ty tg d r st st' i :
  council_actions_inv st → Council.newAction env ty tg d r st = Ok (st', i) →
  council_actions_inv st'.
Proof.
  intros [Hact Hpend] H. unfold Council.newAction in H. unroll H.
  apply add_checked_inv in Hcall as [-> _]. injection H as <- <-.
  unfold council_actions_inv. simpl. split.
  - intros j b. rewrite lookup_insert. case_decide as Hj.
    + intros [= <-]. simpl. subst j. split_and!; [lia|done|apply NoDup_singleton|].
      intros x ->%list_elem_of_singleton. apply getB_insert_eq.
    + intros Hb. destruct (Hact j b Hb) as (Hlt & Hid & Hnd & Hap).
      split_and!; [lia|done..|].
      intros x Hx. apply getB_insert_true. by apply Hap.
  - intros j. rewrite elem_of_app, list_elem_of_singleton, lookup_insert.
    case_decide as Hj.
    + subst j. split; [|by right]. intros _. eexists. by split.
    + rewrite Hpend. split; [intros [?|?]; [done|congruence]|by left].
Qed.

Lemma removeMember_internal_approvals member st st1 :
  Council._removeMember member st = Ok st1 →
  Council._approvals st1 = Council._approvals st.
Proof.
  intros H. unfold Council._removeMember in H. unroll H.
  destruct a0. by injection H as <-.
Qed.

Lemma council_actions_step enc env c st st' :
  council_inv st → council_actions_inv st →
  Council.exec enc env c st = Ok st' → council_actions_inv st'.
Proof.
  intros (_ & _ & Hnd & _) Hinv H. pose proof Hinv as [Hact Hpend].
  destruct (council_exec_cases _ _ _ _ _ H)
    as [(m & f & Hc)|[(m & Hc)|[(t & dao & tgt & ->)|[(ty & tg & d & r & i & _ & Hc)|
        [(i & Hc)|[(i & ok & Hc)|(i & Hc)]]]]]].
  - unfold Council.addMember in Hc. unroll Hc. by injection Hc as <-.
  - apply removeMember_effect in Hc as (x & st1 & t & _ & _ & _ & _ & Hrm & ->).
    pose proof (removeMember_internal_approvals _ _ _ Hrm) as Hap.
    apply removeMember_internal_count in Hrm as (_ & _ & Hn & Ha & Hp & _).
    unfold council_actions_inv. simpl. by rewrite Hn, Ha, Hp, Hap.
  - done.
  - by eapply council_newAction_actions.
  - unfold Council.approveEmergencyAction in Hc. unroll Hc. injection Hc as <-.
    apply negb_true_iff, N.eqb_neq, stored_action in Hreq0.
    apply negb_true_iff in Hreq1, Hreq2.
    destruct (Hact _ _ Hreq0) as (Hlt & Hid & Hnda & Hap).
    unfold council_actions_inv. simpl. split.
    + intros j b. rewrite lookup_insert. case_decide as Hj.
      * intros [= <-]. subst j. simpl. split_and!; [done..| |].
        -- apply NoDup_app. split_and!; [done| |apply NoDup_singleton].
           intros x Hx ->%list_elem_of_singleton. apply Hap in Hx. congruence.
        -- intros x [Hx| ->%list_elem_of_singleton]%elem_of_app.
           ++ apply getB_insert_true. by apply Hap.
           ++ apply getB_insert_eq.
      * intros Hb. destruct (Hact j b Hb) as (? & ? & ? & Hapj).
        split_and!; [done..|]. intros x Hx. apply getB_insert_true. by apply Hapj.
    + intros j. rewrite Hpend, lookup_insert. case_decide as Hj; [|done].
      subst j. split.
      * intros _. eexists. by split.
      * intros _. by eexists.
  - apply executeEmergencyAction_effect in Hc as (_ & Hcr & Hex & _ & p & ->).
    apply stored_action in Hcr.
    destruct (Hact _ _ Hcr) as (Hlt & Hid & Hnda & Hap).
    pose proof (removePending_spec i _ Hnd) as (_ & Hout & Hsub).
    unfold council_actions_inv. simpl. split.
    + intros j b. rewrite lookup_insert. case_decide as Hj; [|apply Hact].
      intros [= <-]. subst j. by simpl.
    + intros j. rewrite lookup_insert. case_decide as Hj.
      * subst j. split; [done|]. by intros (b & [= <-] & Hb).
      * rewrite <- Hpend. split; [apply Hsub|].
        intros Hin. apply removePending_keeps; [done..|]. by intros ->.
  - unfold Council.cancelEmergencyAction in Hc. unroll Hc. injection Hc as <-.
    apply negb_true_iff, N.eqb_neq, stored_action in Hreq0.
    destruct (Hact _ _ Hreq0) as (Hlt & Hid & Hnda & Hap).
    pose proof (removePending_spec i _ Hnd) as (_ & Hout & Hsub).
    unfold council_actions_inv. simpl. split.
    + intros j b. rewrite lookup_insert. case_decide as Hj; [|apply Hact].
      intros [= <-]. subst j. by simpl.
    + intros j. rewrite lookup_insert. case_decide as Hj.
      * subst j. split; [done|]. by intros (b & [= <-] & Hb).
      * rewrite <- Hpend. split; [apply Hsub|].
        intros Hin. apply removePending_keeps; [done..|]. by intros ->.
Qed.

Lemma council_actions_reachable enc st :
  Council.reachable enc st → council_actions_inv st.
Proof.
  induction 1 as [env f ext dao tl tgt st Hc | env c st st' Hr IH Hex].
  - unfold Council.constructor in Hc. unroll Hc.
    apply addExternalMembers_count in Hcall as (_ & _ & _ & Ha & Hp & _).
    injection Hc as <-. unfold council_actions_inv. simpl in *. rewrite Ha, Hp. split.
    + intros i b Hb. by rewrite lookup_empty in Hb.
    + intros i. split; [by intros ?%elem_of_nil|].
      intros (b & Hb & _). by rewrite lookup_empty in Hb.
  - eapply council_actions_step; [|done..]. by eapply council_reachable_inv.
Qed.

Lemma council_approvals_step enc env c st st' k :
  Council.exec enc env c st = Ok st' →
  getB (Council._approvals st) k = true → getB (Council._approvals st') k = true.
Proof.
  intros H Hk.
  destruct (council_exec_cases _ _ _ _ _ H)
    as [(m & f & Hc)|[(m & Hc)|[(t & dao & tgt & ->)|[(ty & tg & d & r & i & _ & Hc)|
        [(i & Hc)|[(i & ok & Hc)|(i & Hc)]]]]]].
  - unfold Council.addMember in Hc. unroll Hc. by injection Hc as <-.
  - apply removeMember_effect in Hc as (x & st1 & t & _ & _ & _ & _ & Hrm & ->).
    simpl. by rewrite (removeMember_internal_approvals _ _ _ Hrm).
  - done.
  - unfold Council.newAction in Hc. unroll Hc. injection Hc as <- _. simpl.
    by apply getB_insert_true.
  - unfold Council.approveEmergencyAction in Hc. unroll Hc. injection Hc as <-. simpl.
    by apply getB_insert_true.
  - apply executeEmergencyAction_effect in Hc as (_ & _ & _ & _ & p & ->). done.
  - unfold Council.cancelEmergencyAction in Hc. unroll Hc. by injection Hc as <-.
Qed.

Lemma council_approvals_run enc txs st k :
  getB (Council._approvals st) k = true →
  getB (Council._approvals (Council.run enc txs st)) k = true.
Proof.
  revert st. induction txs as [|[env c] txs IH]; simpl; intros st Hk; [done|].
  apply IH. destruct (Council.exec enc env c st) as [st'|e] eqn:Hex; simpl; [|done].
  by eapply council_approvals_step.
Qed.

Lemma same_payload_refl a : same_payload a a.
Proof. by unfold same_payload. Qed.

Lemma same_payload_trans a b c : same_payload a b → same_payload b c → same_payload a c.
Proof. unfold same_payload. intuition congruence. Qed.

Lemma council_action_stable_step enc env c st st' i a :
  council_actions_inv st → Council.exec enc env c st = Ok st' →
  Council._actions st !! i = Some a →
  ∃ a', Council._actions st' !! i = Some a' ∧ same_payload a a' ∧
        Council.approvers a `prefix_of` Council.approvers a' ∧
        (Council.executed a = true → a' = a).
Proof.
  intros [Hact _] H Ha.
  assert (Hkeep : ∃ a', Some a = Some a' ∧ same_payload a a' ∧
            Council.approvers a `prefix_of` Council.approvers a' ∧
            (Council.executed a = true → a' = a)).
  { exists a. split_and!; [done|apply same_payload_refl|done|done]. }
  assert (Hget : ∀ j, j = i → Council.getEmergencyAction st j = a).
  { intros j ->. unfold Council.getEmergencyAction. by rewrite Ha. }
  destruct (council_exec_cases _ _ _ _ _ H)
    as [(m & f & Hc)|[(m & Hc)|[(t & dao & tgt & ->)|[(ty & tg & d & r & j & _ & Hc)|
        [(j & Hc)|[(j & ok & Hc)|(j & Hc)]]]]]].
  - unfold Council.addMember in Hc. unroll Hc. injection Hc as <-. simpl.
    by rewrite Ha.
  - apply removeMember_effect in Hc as (x & st1 & t & _ & _ & _ & _ & Hrm & ->).
    apply removeMember_internal_count in Hrm as (_ & _ & _ & Hsame & _).
    simpl. by rewrite Hsame, Ha.
  - simpl. by rewrite Ha.
  - unfold Council.newAction in Hc. unroll Hc. injection Hc as <- _. simpl.
    destruct (Hact i a Ha) as (Hlt & _).
    rewrite lookup_insert_ne by lia. by rewrite Ha.
  - unfold Council.approveEmergencyAction in Hc. unroll Hc. injection Hc as <-. simpl.
    rewrite lookup_insert. case_decide as Hj; [|by rewrite Ha].
    rewrite (Hget j Hj) in *. apply negb_true_iff in Hreq1.
    eexists. split_and!; [done|by unfold same_payload| |congruence].
    simpl. by apply prefix_app_r.
  - apply executeEmergencyAction_effect in Hc as (_ & _ & Hex & _ & p & ->). simpl.
    rewrite lookup_insert. case_decide as Hj; [|by rewrite Ha].
    rewrite (Hget j Hj) in *.
    eexists. split_and!; [done|by unfold same_payload|done|congruence].
  - unfold Council.cancelEmergencyAction in Hc. unroll Hc. injection Hc as <-. simpl.
    rewrite lookup_insert. case_decide as Hj; [|by rewrite Ha].
    rewrite (Hget j Hj) in *. apply negb_true_iff in Hreq1.
    eexists. split_and!; [done|by unfold same_payload|done|congruence].
Qed.

Lemma council_action_stable_run enc txs st i a :
  Council.reachable enc st → Council._actions st !! i = Some a →
  ∃ a', Council._actions (Council.run enc txs st) !! i = Some a' ∧ same_payload a a' ∧
        Council.approvers a `prefix_of` Council.approvers a' ∧
        (Council.executed a = true → a' = a).
Proof.
  revert st a. induction txs as [|[env c] txs IH]; simpl; intros st a Hr Ha.
  - exists a. split_and!; [done|apply same_payload_refl|done|done].
  - destruct (Council.exec enc env c st) as [st'|e] eqn:Hex; simpl; [|by apply IH].
    destruct (council_action_stable_step _ _ _ _ _ _ _
                (council_actions_reachable _ _ Hr) Hex Ha) as (b & Hb & Hp & Hpre & Hfin).
    destruct (IH st' b (Council.reach_step _ _ _ _ _ Hr Hex) Hb)
      as (a' & Ha' & Hp' & Hpre' & Hfin').
    exists a'. split_and!; [done|by eapply same_payload_trans|by etrans|].
    intros He. pose proof (Hfin He) as ->. by apply Hfin'.
Qed.

Lemma council_ids_reachable enc st :
  Council.reachable enc st →
  ∀ i, i < Council._actionCount st → is_Some (Council._actions st !! i).
Proof.
  induction 1 as [env f ext dao tl tgt st Hc | env c st st' Hr IH Hex].
  - unfold Council.constructor in Hc. unroll Hc.
    apply addExternalMembers_count in Hcall as (_ & _ & Hn & _).
    injection Hc as <-. simpl in *. rewrite Hn. intros i Hi. lia.
  - intros i Hi.
    assert (Hmono : ∀ j, is_Some (Council._actions st !! j) →
                         is_Some (Council._actions st' !! j)).
    { intros j [a Ha].
      destruct (council_action_stable_step _ _ _ _ _ _ _
                  (council_actions_reachable _ _ Hr) Hex Ha) as (b & Hb & _).
      by exists b. }
    destruct (council_exec_cases _ _ _ _ _ Hex)
      as [(m & f & Hc)|[(m & Hc)|[(t & dao & tgt & ->)|[(ty & tg & d & r & j & _ & Hc)|
          [(j & Hc)|[(j & ok & Hc)|(j & Hc)]]]]]].
    + apply Hmono, IH. unfold Council.addMember in Hc. unroll Hc. by injection Hc as <-.
    + apply Hmono, IH.
      apply removeMember_effect in Hc as (x & st1 & t & _ & _ & _ & _ & Hrm & ->).
      apply removeMember_internal_count in Hrm as (_ & _ & Hn & _). simpl in Hi. lia.
    + apply Hmono, IH. done.
    + unfold Council.newAction in Hc. unroll Hc.
      apply add_checked_inv in Hcall as [-> _]. injection Hc as <- _. simpl in *.
      destruct (decide (i = Council._actionCount st)) as [->|Hne].
      * by rewrite lookup_insert_eq.
      * rewrite lookup_insert_ne by done. apply IH. lia.
    + apply Hmono, IH. unfold Council.approveEmergencyAction in Hc. unroll Hc.
      by injection Hc as <-.
    + apply Hmono, IH.
      apply executeEmergencyAction_effect in Hc as (_ & _ & _ & _ & p & ->). done.
    + apply Hmono, IH. unfold Council.cancelEmergencyAction in Hc. unroll Hc.
      by injection Hc as <-.
Qed.

Lemma council_three_reachable enc : Council.reachable enc council_three.
Proof. eapply Council.reach_init. exact council_three_built. Qed.

Lemma council_keeps_foundation_member_witness :
  1 <= Council.foundationMemberCount (Council.run scenario_encode council_history council_three) ∧
  ∃ n, Council.externalMemberCount (Council.run scenario_encode council_history council_three)
       = Ok n ∧
       Council.foundationMemberCount (Council.run scenario_encode council_history council_three)
       + n
       = Council.memberCount (Council.run scenario_encode council_history council_three).
Proof.
  apply (council_keeps_foundation_member scenario_encode).
  apply council_run_reachable, council_three_reachable.
Defined.

(** X6.  For a council constructed from distinct addresses, the member
    array and the two mappings beside it agree after any transactions: no
    account is listed twice, [isMember] holds exactly of the listed
    accounts, and the index mapping gives every listed account its
    position in the array. *)
Theorem council_members_consistent enc env f ext dao tl tgt st0 txs :
  NoDup (f :: ext) →
  Council.constructor env f ext dao tl tgt = Ok st0 →
  council_members_inv (Council.run enc txs st0).
Proof.
  intros Hnd Hc. by eapply council_members_run, council_constructor_members.
Qed.

Lemma council_members_consistent_witness :
  council_members_inv (Council.run scenario_encode council_history council_three).
Proof.
  apply (council_members_consistent scenario_encode (env_at 1 1000) 11 [12; 13] 20 21 22).
  - apply (bool_decide_unpack _). vm_compute. exact I.
  - reflexivity.
Defined.

(** X7.  In such a council the only foundation member cannot be removed:
    when the DAO asks for it and there are more than [MIN_MEMBERS]
    members, [removeMember] reverts with
    [CannotRemoveLastFoundationMember]. *)
Theorem last_foundation_member_stays enc env f ext dao tl tgt st0 txs m env' :
  NoDup (f :: ext) →
  Council.constructor env f ext dao tl tgt = Ok st0 →
  m ∈ Council._members (Council.run enc txs st0) →
  Council.isFoundation m = true →
  Council.foundationMemberCount (Council.run enc txs st0) = 1 →
  msg_sender env' = Council.daoGovernor (Council.run enc txs st0) →
  Council.MIN_MEMBERS < Council.memberCount (Council.run enc txs st0) →
  Council.removeMember env' (Council.account m) (Council.run enc txs st0)
  = Revert Council.CannotRemoveLastFoundationMember.
Proof.
  intros Hnd Hc Hm Hf Hone Hdao Hmin.
  pose proof (council_members_run enc txs _ (council_constructor_members _ _ _ _ _ _ _ Hnd Hc))
    as (_ & Hmem & Hidx).
  set (st := Council.run enc txs st0) in *.
  apply list_elem_of_lookup in Hm as [i Hi].
  unfold Council.removeMember. rewrite Hdao, N.eqb_refl. simpl.
  replace (Council.isMember st (Council.account m)) with true.
  2:{ symmetry. apply Hmem, list_elem_of_fmap. exists m. split; [done|].
      by eapply list_elem_of_lookup_2. }
  simpl. apply N.leb_gt in Hmin. rewrite Hmin. simpl.
  rewrite (Hidx i m Hi), Nat2N.id, Hi. simpl.
  by rewrite Hf, Hone.
Qed.

Lemma last_foundation_member_stays_witness :
  Council.removeMember (env_at 20 1700) 11
    (Council.run scenario_encode (take 5 council_history) council_three)
  = Revert Council.CannotRemoveLastFoundationMember.
Proof.
  apply (last_foundation_member_stays scenario_encode (env_at 1 1000) 11 [12; 13] 20 21 22
           council_three (take 5 council_history)
           {| Council.account := 11; Council.isFoundation := true; Council.addedAt := 1000 |}
           (env_at 20 1700)).
  - apply (bool_decide_unpack _). vm_compute. exact I.
  - reflexivity.
  - vm_compute. left.
  - reflexivity.
  - reflexivity.
  - reflexivity.
  - reflexivity.
Defined.

(** X8.  An action is executed only on enough distinct approvals: when
    [executeEmergencyAction] succeeds in a reachable state, the approver
    list of the action has no duplicates and at least [threshold] entries,
    the threshold being at least one; afterwards the action is marked
    executed and is no longer pending. *)
Theorem execution_needs_distinct_approvals enc env i ok st st' :
  Council.reachable enc st →
  Council.executeEmergencyAction env i ok st = Ok st' →
  NoDup (Council.approvers (Council.getEmergencyAction st i)) ∧
  1 <= Council.threshold st ∧
  Council.threshold st <= N.of_nat (length (Council.approvers (Council.getEmergencyAction st i))) ∧
  Council.executed (Council.getEmergencyAction st' i) = true ∧
  i ∉ Council.getPendingActions st'.
Proof.
  intros Hr H. pose proof (council_reachable_inv _ _ Hr) as (Ht1 & _ & Hnd & _).
  destruct (council_actions_reachable _ _ Hr) as [Hact _].
  apply executeEmergencyAction_effect in H as (_ & Hcr & _ & Hthr & p & ->).
  apply stored_action in Hcr. destruct (Hact _ _ Hcr) as (_ & _ & Hnda & _).
  split_and!; [done..| |].
  - unfold Council.getEmergencyAction. simpl. by rewrite lookup_insert_eq.
  - by destruct (removePending_spec i _ Hnd) as (_ & Hout & _).
Qed.

Lemma execution_needs_distinct_approvals_witness :
  NoDup (Council.approvers
           (Council.getEmergencyAction
              (Council.run scenario_encode (take 2 council_history) council_three) 0)) ∧
  1 <= Council.threshold (Council.run scenario_encode (take 2 council_history) council_three) ∧
  Council.threshold (Council.run scenario_encode (take 2 council_history) council_three)
  <= N.of_nat (length (Council.approvers
                         (Council.getEmergencyAction
                            (Council.run scenario_encode (take 2 council_history) council_three)
                            0))) ∧
  Council.executed
    (Council.getEmergencyAction
       (Council.run scenario_encode (take 3 council_history) council_three) 0) = true ∧
  0 ∉ Council.getPendingActions
        (Council.run scenario_encode (take 3 council_history) council_three).
Proof.
  apply (execution_needs_distinct_approvals scenario_encode (env_at 12 1300) 0 true).
  - apply council_run_reachable, council_three_reachable.
  - reflexivity.
Defined.

(** X9.  An approval counts once: after an account has approved an action,
    every later attempt of the same account to approve it reverts,
    whatever happened in between. *)
Theorem approval_counts_once enc env i st st1 txs env' :
  Council.approveEmergencyAction env i st = Ok st1 →
  msg_sender env' = msg_sender env →
  ∃ e, Council.approveEmergencyAction env' i (Council.run enc txs st1) = Revert e.
Proof.
  intros H Hs.
  assert (Hap : getB (Council._approvals (Council.run enc txs st1)) (i, msg_sender env') = true).
  { apply council_approvals_run. rewrite Hs.
    unfold Council.approveEmergencyAction in H. unroll H. injection H as <-.
    apply getB_insert_eq. }
  unfold Council.approveEmergencyAction. rewrite Hap.
  destruct (Council.isMember _ _); simpl; [|eauto].
  destruct (negb (Council.createdAt _ =? 0)); simpl; [|eauto].
  destruct (negb (Council.executed _)); simpl; eauto.
Qed.

Lemma approval_counts_once_witness :
  ∃ e, Council.approveEmergencyAction (env_at 12 1260) 0
         (Council.run scenario_encode [(env_at 20 1250, Council.SetThreshold 3)]
            (Council.run scenario_encode (take 2 council_history) council_three))
       = Revert e.
Proof.
  apply (approval_counts_once scenario_encode (env_at 12 1200) 0
           (Council.run scenario_encode (take 1 council_history) council_three)).
  - reflexivity.
  - reflexivity.
Defined.

(** X10.  A stored action is stable.  After any transactions on a
    reachable state the action is still stored under its id with the same
    type, target, data, reason and creation time, and its approvers have
    only been added to.  Once it is marked executed (by an execution or a
    cancellation) it never changes again, and approving, executing and
    canceling it revert. *)
Theorem stored_action_is_stable enc st i a txs :
  Council.reachable enc st →
  Council._actions st !! i = Some a →
  ∃ a', Council._actions (Council.run enc txs st) !! i = Some a' ∧
        same_payload a a' ∧
        Council.approvers a `prefix_of` Council.approvers a' ∧
        (Council.executed a = true →
           a' = a ∧
           ∀ env,
             (∃ e, Council.approveEmergencyAction env i (Council.run enc txs st) = Revert e) ∧
             (∀ ok, ∃ e, Council.executeEmergencyAction env i ok (Council.run enc txs st)
                         = Revert e) ∧
             (∃ e, Council.cancelEmergencyAction env i (Council.run enc txs st) = Revert e)).
Proof.
  intros Hr Ha.
  destruct (council_action_stable_run enc txs st i a Hr Ha) as (a' & Ha' & Hp & Hpre & Hfin).
  exists a'. split_and!; [done..|].
  intros He. specialize (Hfin He). subst a'. split; [done|].
  assert (Hget : Council.getEmergencyAction (Council.run enc txs st) i = a).
  { unfold Council.getEmergencyAction. by rewrite Ha'. }
  intros env. split_and!.
  - unfold Council.approveEmergencyAction. rewrite Hget, He.
    destruct (Council.isMember _ _); simpl; [|eauto].
    destruct (negb (Council.createdAt _ =? 0)); simpl; eauto.
  - intros ok. unfold Council.executeEmergencyAction. rewrite Hget, He.
    destruct (Council.isMember _ _); simpl; [|eauto].
    destruct (negb (Council._status _)); simpl; [|eauto].
    destruct (negb (Council.createdAt _ =? 0)); simpl; eauto.
  - unfold Council.cancelEmergencyAction. rewrite Hget, He.
    destruct (Council.isMember _ _); simpl; [|eauto].
    destruct (negb (Council.createdAt _ =? 0)); simpl; eauto.
Qed.

Lemma stored_action_is_stable_witness :
  ∃ a', Council._actions
          (Council.run scenario_encode (drop 3 council_history)
             (Council.run scenario_encode (take 3 council_history) council_three)) !! 0
        = Some a' ∧
        Council.target a' = 30 ∧ Council.executed a' = true.
Proof.
  destruct (stored_action_is_stable scenario_encode
              (Council.run scenario_encode (take 3 council_history) council_three) 0
              (Council.getEmergencyAction
                 (Council.run scenario_encode (take 3 council_history) council_three) 0)
              (drop 3 council_history))
    as (a' & Ha' & _ & _ & Hfin).
  - apply council_run_reachable, council_three_reachable.
  - reflexivity.
  - exists a'. split; [exact Ha'|].
    destruct (Hfin eq_refl) as [-> _]. split; reflexivity.
Defined.

(** X11.  The pending list is exact: in every reachable state it has no
    duplicates and holds precisely the ids that were issued and whose
    action is not marked executed. *)
Theorem pending_actions_exact enc st :
  Council.reachable enc st →
  NoDup (Council.getPendingActions st) ∧
  ∀ i, i ∈ Council.getPendingActions st ↔
       i < Council._actionCount st ∧
       Council.executed (Council.getEmergencyAction st i) = false.
Proof.
  intros Hr. pose proof (council_reachable_inv _ _ Hr) as (_ & _ & Hnd & _).
  destruct (council_actions_reachable _ _ Hr) as [Hact Hpend].
  split; [done|]. intros i. unfold Council.getPendingActions. rewrite Hpend. split.
  - intros (a & Ha & He). destruct (Hact i a Ha) as (Hlt & _).
    unfold Council.getEmergencyAction. by rewrite Ha.
  - intros [Hlt He]. destruct (council_ids_reachable _ _ Hr i Hlt) as [a Ha].
    exists a. split; [done|]. unfold Council.getEmergencyAction in He.
    by rewrite Ha in He.
Qed.

Lemma pending_actions_exact_witness :
  NoDup (Council.getPendingActions council_pending) ∧
  ∀ i, i ∈ Council.getPendingActions council_pending ↔
       i < Council._actionCount council_pending ∧
       Council.executed (Council.getEmergencyAction council_pending i) = false.
Proof.
  apply (pending_actions_exact scenario_encode). exact council_pending_reachable.
Defined.

(** ** SecurityCouncil: cancelling an action *)

Lemma council_three_pending_reachable :
  Council.reachable scenario_encode council_three_pending.
Proof. apply council_run_reachable. exact council_pending_reachable. Qed.

(** Claim C9: for an existing action that is not yet executed, in any
    state reached from the constructor, a cancel by any council member
    succeeds.  The action was pending; the cancel takes its id, and no
    other id, out of the pending list, which keeps every other id once;
    every other stored action is left as it was, and the canceled one
    changes only in its executed flag, which is the flag a successful
    execution sets, while the execution time stays 0; afterwards approving
    and executing that id revert with [ActionAlreadyExecuted] for every
    member. *)
Theorem cancelEmergencyAction_terminal
    (enc : string → list N → Council.bytes) st env actionId :
  Council.reachable enc st →
  Council.isMember st (msg_sender env) = true →
  Council.createdAt (Council.getEmergencyAction st actionId) ≠ 0 →
  Council.executed (Council.getEmergencyAction st actionId) = false →
  ∃ st',
    Council.cancelEmergencyAction env actionId st = Ok st' ∧
    (actionId ∈ Council.getPendingActions st) ∧
    (actionId ∉ Council.getPendingActions st') ∧
    (∀ j, j ≠ actionId →
       j ∈ Council.getPendingActions st' ↔ j ∈ Council.getPendingActions st) ∧
    NoDup (Council.getPendingActions st') ∧
    (∀ j, j ≠ actionId →
       Council.getEmergencyAction st' j = Council.getEmergencyAction st j) ∧
    Council.getEmergencyAction st' actionId
    = Council.with_executed true 0 (Council.getEmergencyAction st actionId) ∧
    Council.executed (Council.getEmergencyAction st' actionId) = true ∧
    Council.executedAt (Council.getEmergencyAction st' actionId) = 0 ∧
    (∀ env' ok st'',
       Council.executeEmergencyAction env' actionId ok st = Ok st'' →
       Council.executed (Council.getEmergencyAction st'' actionId) = true) ∧
    (∀ env', Council.isMember st' (msg_sender env') = true →
       Council.approveEmergencyAction env' actionId st'
       = Revert Council.ActionAlreadyExecuted) ∧
    (∀ env' ok, Council.isMember st' (msg_sender env') = true →
       Council.executeEmergencyAction env' actionId ok st'
       = Revert Council.ActionAlreadyExecuted).
Proof.
  intros Hreach Hmem Hcreated Hexec.
  pose proof (council_reachable_inv _ _ Hreach) as Hinv.
  pose proof Hinv as (_ & _ & Hnd & _ & _ & Hst).
  pose proof (council_actions_reachable _ _ Hreach) as [_ Hpend].
  pose proof (council_unexecuted_has_no_time st actionId Hinv Hexec) as Hat.
  pose proof (removePending_spec actionId _ Hnd) as (Hnd' & Hgone & Hsub).
  assert (Hin : actionId ∈ Council._pendingActionIds st).
  { apply Hpend. exists (Council.getEmergencyAction st actionId).
    split; [by apply stored_action|done]. }
  apply N.eqb_neq in Hcreated.
  unfold Council.cancelEmergencyAction. rewrite Hmem, Hcreated, Hexec. simpl.
  eexists. split; [reflexivity|].
  unfold Council.getPendingActions, Council.getEmergencyAction, Council.isMember.
  simpl. rewrite lookup_insert_eq. simpl. split_and!; try done.
  - intros j Hj. split; [apply Hsub|]. intros Hjin. by apply removePending_keeps.
  - intros j Hj. by rewrite lookup_insert_ne.
  - fold (Council.getEmergencyAction st actionId). by rewrite Hat.
  - intros env' ok st'' H. unfold Council.executeEmergencyAction in H. unroll H.
    destruct (Council.actionType _); unroll H; injection H as <-;
      simpl; by rewrite lookup_insert_eq.
  - intros env' Hm. unfold Council.approveEmergencyAction, Council.isMember,
      Council.getEmergencyAction. simpl.
    rewrite Hm, lookup_insert_eq. simpl.
    fold (Council.getEmergencyAction st actionId). by rewrite Hcreated.
  - intros env' ok Hm. unfold Council.executeEmergencyAction, Council.isMember,
      Council.getEmergencyAction. simpl.
    rewrite Hm, Hst, lookup_insert_eq. simpl.
    fold (Council.getEmergencyAction st actionId). by rewrite Hcreated.
Qed.

Lemma cancelEmergencyAction_terminal_witness :
  ∃ st',
    Council.cancelEmergencyAction (env_at 12 1200) 0 council_three_pending = Ok st' ∧
    Council.getPendingActions council_three_pending = [0; 1; 2] ∧
    (0 ∉ Council.getPendingActions st') ∧
    (1 ∈ Council.getPendingActions st') ∧
    (2 ∈ Council.getPendingActions st') ∧
    Council.executed (Council.getEmergencyAction st' 0) = true ∧
    Council.executedAt (Council.getEmergencyAction st' 0) = 0 ∧
    (∀ env', Council.isMember st' (msg_sender env') = true →
       Council.approveEmergencyAction env' 0 st' = Revert Council.ActionAlreadyExecuted) ∧
    (∀ env' ok, Council.isMember st' (msg_sender env') = true →
       Council.executeEmergencyAction env' 0 ok st' = Revert Council.ActionAlreadyExecuted).
Proof.
  destruct (cancelEmergencyAction_terminal scenario_encode council_three_pending
              (env_at 12 1200) 0)
    as (st' & Hc & _ & Hgone & Hkeep & _ & _ & _ & He & Hat & _ & Hap & Hex).
  - exact council_three_pending_reachable.
  - reflexivity.
  - discriminate.
  - reflexivity.
  - exists st'. split_and!; try done.
    + apply Hkeep; [done|]. vm_compute. right. left.
    + apply Hkeep; [done|]. vm_compute. right. right. left.
Defined.

(** ** DelegateRegistry: the books, the escrow and the delegators *)

(** What a successful [delegate] checked and wrote. *)
Lemma delegate_effect env d a w w' :
  Registry.delegate env d a w = Ok w' →
  let s := Registry.reg w in
  let sender := msg_sender env in
  ∃ tok rec cps,
    Registry._status s = false ∧ d ≠ 0 ∧ a ≠ 0 ∧
    Registry.isRegisteredDelegator s d = true ∧
    Ledger.transferFrom (Registry.this s) sender (Registry.this s) a (Registry.vTON w) = Ok tok ∧
    Registry.amount rec = Registry.amount (Registry.getDelegation s sender d) + a ∧
    Registry.delegatedAt rec = block_timestamp env ∧
    Registry._updateVotingPowerCheckpoint env d
      (<[d := getN (Registry._totalDelegated s) d + a]> (Registry._totalDelegated s))
      (Registry._votingPowerCheckpoints s) = Ok cps ∧
    w' = {| Registry.reg :=
              Registry.set_accounting
                (<[(sender, d) := rec]> (Registry._delegations s))
                (<[d := getN (Registry._totalDelegated s) d + a]> (Registry._totalDelegated s))
                (<[sender := getN (Registry._totalDelegatedBy s) sender + a]>
                   (Registry._totalDelegatedBy s))
                cps
                (<[(d, sender) := block_timestamp env]> (Registry._delegationTimestamps s))
                (if Registry.delegationTimestamp s d sender =? 0
                 then <[d := Registry.ownersOf s d ++ [sender]]> (Registry._delegatorsToOwners s)
                 else Registry._delegatorsToOwners s) s;
            Registry.vTON := tok |}.
Proof.
  intros H s sender. unfold Registry.delegate in H. fold s sender in H. unroll H.
  apply add_checked_inv in Hcall0 as [-> _]. apply add_checked_inv in Hcall3 as [-> _].
  apply lift_inv in Hcall1. apply topUp_amount in Hcall2 as [Hamt Hat].
  injection H as <-. eexists _, _, _.
  apply negb_true_iff in Hreq. apply negb_true_iff, N.eqb_neq in Hreq0, Hreq1.
  apply negb_true_iff, orb_false_iff in Hreq3 as [Hr Ha%negb_false_iff].
  split_and!; try eassumption; try done.
  unfold Registry.isRegisteredDelegator. fold s. by rewrite Hr, Ha.
Qed.

(** What a successful [undelegate] checked and wrote. *)
Lemma undelegate_effect env d a w w' :
  Registry.undelegate env d a w = Ok w' →
  let s := Registry.reg w in
  let sender := msg_sender env in
  ∃ tok cps,
    Registry._status s = false ∧ d ≠ 0 ∧ a ≠ 0 ∧
    a <= Registry.amount (Registry.getDelegation s sender d) ∧
    a <= getN (Registry._totalDelegated s) d ∧
    a <= getN (Registry._totalDelegatedBy s) sender ∧
    Ledger.transfer (Registry.this s) sender a (Registry.vTON w) = Ok tok ∧
    Registry._updateVotingPowerCheckpoint env d
      (<[d := getN (Registry._totalDelegated s) d - a]> (Registry._totalDelegated s))
      (Registry._votingPowerCheckpoints s) = Ok cps ∧
    w' = {| Registry.reg :=
              Registry.set_accounting
                (withdrawn (sender, d) a (Registry._delegations s))
                (<[d := getN (Registry._totalDelegated s) d - a]> (Registry._totalDelegated s))
                (<[sender := getN (Registry._totalDelegatedBy s) sender - a]>
                   (Registry._totalDelegatedBy s))
                cps
                (if Registry.amount (Registry.getDelegation s sender d) - a =? 0
                 then delete (d, sender) (Registry._delegationTimestamps s)
                 else Registry._delegationTimestamps s)
                (Registry._delegatorsToOwners s) s;
            Registry.vTON := tok |}.
Proof.
  intros H s sender. unfold Registry.undelegate in H. fold s sender in H. unroll H.
  apply sub_checked_inv in Hcall as [-> Hle1]. apply sub_checked_inv in Hcall0 as [-> Hle2].
  apply lift_inv in Hcall2. injection H as <-. eexists _, _.
  apply negb_true_iff in Hreq. apply negb_true_iff, N.eqb_neq in Hreq0, Hreq1.
  apply N.leb_le in Hreq2.
  split_and!; try eassumption; done.
Qed.

(** What a successful [redelegate] checked and wrote. *)
Lemma redelegate_effect env f t a w w' :
  Registry.redelegate env f t a w = Ok w' →
  let s := Registry.reg w in
  let sender := msg_sender env in
  let dels1 := withdrawn (sender, f) a (Registry._delegations s) in
  let total1 := <[f := getN (Registry._totalDelegated s) f - a]> (Registry._totalDelegated s) in
  let total2 := <[t := getN total1 t + a]> total1 in
  ∃ rec cps1 cps2,
    Registry._status s = false ∧ f ≠ 0 ∧ t ≠ 0 ∧ a ≠ 0 ∧
    Registry.isRegisteredDelegator s t = true ∧
    a <= Registry.amount (Registry.getDelegation s sender f) ∧
    a <= getN (Registry._totalDelegated s) f ∧
    Registry.amount rec
    = Registry.amount (default Registry.noDelegation (dels1 !! (sender, t))) + a ∧
    Registry.delegatedAt rec = block_timestamp env ∧
    Registry._updateVotingPowerCheckpoint env f total2 (Registry._votingPowerCheckpoints s)
    = Ok cps1 ∧
    Registry._updateVotingPowerCheckpoint env t total2 cps1 = Ok cps2 ∧
    w' = {| Registry.reg :=
              Registry.set_accounting
                (<[(sender, t) := rec]> dels1) total2 (Registry._totalDelegatedBy s) cps2
                (<[(t, sender) := block_timestamp env]>
                   (if Registry.amount (Registry.getDelegation s sender f) - a =? 0
                    then delete (f, sender) (Registry._delegationTimestamps s)
                    else Registry._delegationTimestamps s))
                (Registry._delegatorsToOwners s) s;
            Registry.vTON := Registry.vTON w |}.
Proof.
  intros H s sender dels1 total1 total2.
  unfold Registry.redelegate in H. fold s sender in H. unroll H.
  apply sub_checked_inv in Hcall1 as [-> Hle1].
  apply add_checked_inv in Hcall3 as [-> _].
  apply topUp_amount in Hcall2 as [Hamt Hat].
  injection H as <-. eexists _, _, _.
  apply negb_true_iff in Hreq. apply negb_true_iff, orb_false_iff in Hreq0 as [Hf Ht].
  apply N.eqb_neq in Hf, Ht. apply negb_true_iff, N.eqb_neq in Hreq1.
  apply negb_true_iff, orb_false_iff in Hreq3 as [Hr Ha%negb_false_iff].
  apply N.leb_le in Hreq4.
  split_and!; try eassumption; try done.
  unfold Registry.isRegisteredDelegator. fold s. by rewrite Hr, Ha.
Qed.

(** The successful calls of the registry, by what they touch. *)
Lemma registry_exec_cases env c w w' :
  Registry.exec env c w = Ok w' →
  (∃ s', w' = {| Registry.reg := s'; Registry.vTON := Registry.vTON w |} ∧
         Registry.this s' = Registry.this (Registry.reg w) ∧
         Registry._status s' = Registry._status (Registry.reg w) ∧
         Registry._delegations s' = Registry._delegations (Registry.reg w) ∧
         Registry._totalDelegated s' = Registry._totalDelegated (Registry.reg w) ∧
         Registry._totalDelegatedBy s' = Registry._totalDelegatedBy (Registry.reg w) ∧
         Registry._votingPowerCheckpoints s'
         = Registry._votingPowerCheckpoints (Registry.reg w) ∧
         Registry._delegationTimestamps s' = Registry._delegationTimestamps (Registry.reg w) ∧
         Registry._delegatorsToOwners s' = Registry._delegatorsToOwners (Registry.reg w)) ∨
  (∃ d a, Registry.delegate env d a w = Ok w') ∨
  (∃ d a, Registry.undelegate env d a w = Ok w') ∨
  (∃ f t a, Registry.redelegate env f t a w = Ok w') ∨
  (∃ l, w' = {| Registry.reg := Registry.reg w; Registry.vTON := l |} ∧
        ((∃ to v, Ledger._mint to v (Registry.vTON w) = Ok l) ∨
         (∃ to v, Ledger.transfer (msg_sender env) to v (Registry.vTON w) = Ok l) ∨
         (∃ sp v, Ledger.approve (msg_sender env) sp v (Registry.vTON w) = l) ∨
         (∃ from to v,
            Ledger.transferFrom (msg_sender env) from to v (Registry.vTON w) = Ok l))).
Proof.
  intros H. destruct c; simpl in H;
    try (left; unfold Registry.on_reg in H; unroll H; injection H as <-;
         unfold Registry.registerDelegator, Registry.updateDelegator,
           Registry.deactivateDelegator, Registry.setDelegationCap,
           Registry.setDelegationPeriodRequirement, Registry.setAutoExpiryPeriod in Hcall;
         unroll Hcall; injection Hcall as <-; eexists; by split_and!);
    try (do 4 right; unfold Registry.on_token in H; unroll H; injection H as <-;
         try apply lift_inv in Hcall; eexists; split; [reflexivity|]).
  - right. left. eauto.
  - do 2 right. left. eauto.
  - do 3 right. left. eauto.
  - left. eauto.
  - right. left. eauto.
  - do 2 right. left. injection Hcall as <-. eauto.
  - do 3 right. eauto.
Qed.

Section AmountSumWrites.

Context (P : address * address → Prop) `{∀ k, Decision (P k)}.
Implicit Types (k : address * address) (v : Registry.DelegationInfo).
Implicit Types (m : gmap (address * address) Registry.DelegationInfo).

Lemma amountSum_write k v m :
  Registry.amountSum P (<[k:=v]> m)
    + (if decide (P k) then Registry.amount (default Registry.noDelegation (m !! k)) else 0)
  = Registry.amountSum P m + (if decide (P k) then Registry.amount v else 0).
Proof.
  case_decide as HP.
  - by apply amountSum_insert.
  - rewrite amountSum_insert_out by done. lia.
Qed.

Lemma amountSum_withdrawn k (a : N) m :
  a <= Registry.amount (default Registry.noDelegation (m !! k)) →
  Registry.amountSum P (withdrawn k a m) + (if decide (P k) then a else 0)
  = Registry.amountSum P m.
Proof.
  intros Hle. unfold withdrawn.
  destruct (Registry.amount _ - a =? 0) eqn:Hleft.
  - apply N.eqb_eq in Hleft. case_decide as HP.
    + pose proof (amountSum_delete P k m HP). lia.
    + rewrite amountSum_delete_out by done. lia.
  - match goal with |- context [<[_ := ?v]> _] =>
      pose proof (amountSum_write k v m) as Hw end.
    simpl in Hw. case_decide; lia.
Qed.

End AmountSumWrites.

Lemma withdrawn_amount (k : address * address) (a : N)
    (m : gmap (address * address) Registry.DelegationInfo) :
  Registry.amount (default Registry.noDelegation (withdrawn k a m !! k))
  = Registry.amount (default Registry.noDelegation (m !! k)) - a.
Proof.
  unfold withdrawn. destruct (Registry.amount _ - a =? 0) eqn:Hleft.
  - rewrite lookup_delete_eq. simpl. by apply N.eqb_eq in Hleft.
  - by rewrite lookup_insert_eq.
Qed.

Lemma withdrawn_other (k k' : address * address) (a : N)
    (m : gmap (address * address) Registry.DelegationInfo) :
  k ≠ k' → withdrawn k a m !! k' = m !! k'.
Proof.
  intros Hne. unfold withdrawn. destruct (_ =? 0).
  - by rewrite lookup_delete_ne.
  - by rewrite lookup_insert_ne.
Qed.

(** *** The books *)

Lemma registry_books_deployed self tok o l w :
  Registry.deployed self tok o l w → registry_books_inv w.
Proof.
  intros (s & Hc & ->). unfold Registry.constructor in Hc. unroll Hc.
  injection Hc as <-. unfold registry_books_inv, Registry.getTotalDelegatedBy, getN. simpl.
  split; [done|]. intros x. rewrite lookup_empty. simpl.
  unfold Registry.delegatedSum, Registry.amountSum. by rewrite map_fold_empty.
Qed.

Lemma registry_books_step env c w w' :
  registry_books_inv w → Registry.exec env c w = Ok w' → registry_books_inv w'.
Proof.
  intros [Hst Hby] H. unfold Registry.getTotalDelegatedBy in *.
  destruct (registry_exec_cases _ _ _ _ H)
    as [(s' & -> & _ & Hs & Hd & _ & Hb & _)|[(d & a & Hc)|[(d & a & Hc)|
        [(f & t & a & Hc)|(l & -> & _)]]]].
  - unfold registry_books_inv, Registry.getTotalDelegatedBy. simpl.
    by rewrite Hs, Hd, Hb.
  - apply delegate_effect in Hc as (tok & rec & cps & _ & _ & _ & _ & _ & Hamt & _ & _ & ->).
    unfold registry_books_inv, Registry.getTotalDelegatedBy. simpl. split; [done|].
    intros x.
    pose proof (amountSum_write (λ k, k.1 = x) (msg_sender env, d) rec
                  (Registry._delegations (Registry.reg w))) as Hw.
    unfold Registry.getDelegation in Hamt. simpl in Hw.
    unfold Registry.delegatedSum in *. specialize (Hby x).
    destruct (decide (msg_sender env = x)) as [<-|Hne].
    + rewrite getN_insert_eq. lia.
    + rewrite getN_insert_ne by done. lia.
  - apply undelegate_effect in Hc as (tok & cps & _ & _ & _ & Hle & _ & Hle2 & _ & _ & ->).
    unfold registry_books_inv, Registry.getTotalDelegatedBy. simpl. split; [done|].
    intros x.
    pose proof (amountSum_withdrawn (λ k, k.1 = x) (msg_sender env, d) a
                  (Registry._delegations (Registry.reg w)) Hle) as Hw.
    simpl in Hw. unfold Registry.delegatedSum in *. specialize (Hby x).
    destruct (decide (msg_sender env = x)) as [<-|Hne].
    + rewrite getN_insert_eq. lia.
    + rewrite getN_insert_ne by done. lia.
  - apply redelegate_effect in Hc
      as (rec & cps1 & cps2 & _ & _ & _ & _ & _ & Hle & _ & Hamt & _ & _ & _ & ->).
    unfold registry_books_inv, Registry.getTotalDelegatedBy. simpl. split; [done|].
    intros x.
    pose proof (amountSum_withdrawn (λ k, k.1 = x) (msg_sender env, f) a
                  (Registry._delegations (Registry.reg w)) Hle) as Hw1.
    pose proof (amountSum_write (λ k, k.1 = x) (msg_sender env, t) rec
                  (withdrawn (msg_sender env, f) a (Registry._delegations (Registry.reg w))))
      as Hw2.
    simpl in Hw1, Hw2. unfold Registry.delegatedSum in *. specialize (Hby x).
    destruct (decide (msg_sender env = x)); lia.
  - done.
Qed.

Lemma registry_books_run txs w :
  registry_books_inv w → registry_books_inv (Registry.run txs w).
Proof.
  revert w. induction txs as [|[env c] txs IH]; simpl; intros w Hinv; [done|].
  apply IH. destruct (Registry.exec env c w) as [w'|e] eqn:Hex; simpl; [|done].
  by eapply registry_books_step.
Qed.

(** *** The escrow *)

Lemma ledger_transfer_other from to v l l' a :
  Ledger._transfer from to v l = Ok l' →
  (a ≠ from ∨ v = 0) →
  Ledger.balanceOf l a <= Ledger.balanceOf l' a ∧
  Ledger._allowances l' = Ledger._allowances l.
Proof.
  unfold Ledger._transfer. intros H Ha. unroll H. injection H as <-.
  unfold Ledger.balanceOf in *. simpl. split; [|done].
  destruct (decide (to = a)) as [<-|Hto].
  - rewrite getN_insert_eq. destruct (decide (from = to)) as [<-|Hft].
    + rewrite getN_insert_eq. destruct Ha as [?| ->]; [done|]. lia.
    + rewrite getN_insert_ne by done. lia.
  - rewrite getN_insert_ne by done. destruct (decide (from = a)) as [<-|Hfa].
    + rewrite getN_insert_eq. destruct Ha as [?| ->]; [done|]. lia.
    + by rewrite getN_insert_ne.
Qed.

Lemma ledger_spendAllowance_other o s v l l' o' :
  Ledger._spendAllowance o s v l = Ok l' →
  (o' ≠ o ∨ Ledger.allowance l o s = 0) →
  (∀ sp, Ledger.allowance l' o' sp = Ledger.allowance l o' sp) ∧
  (o' = o → v = 0).
Proof.
  unfold Ledger._spendAllowance. intros H Ho.
  destruct (_ =? MAX_UINT256) eqn:Hmax.
  - injection H as <-. split; [done|]. intros ->. destruct Ho as [?|Hz]; [done|].
    rewrite Hz in Hmax. by vm_compute in Hmax.
  - unroll H. injection H as <-. apply N.leb_le in Hreq.
    unfold Ledger.allowance in *. simpl. split.
    + intros sp. destruct (decide ((o, s) = (o', sp))) as [[= <- <-]|Hne].
      * rewrite getN_insert_eq. destruct Ho as [?|Hz]; [done|]. lia.
      * by rewrite getN_insert_ne.
    + intros ->. destruct Ho as [?|Hz]; [done|]. lia.
Qed.

Lemma ledger_transferFrom_other sp from to v l l' a :
  Ledger.transferFrom sp from to v l = Ok l' →
  (a ≠ from ∨ Ledger.allowance l from sp = 0) →
  Ledger.balanceOf l a <= Ledger.balanceOf l' a ∧
  (∀ x, Ledger.allowance l' a x = Ledger.allowance l a x).
Proof.
  unfold Ledger.transferFrom. intros H Ha. unroll H.
  pose proof (ledger_spendAllowance_balances _ _ _ _ _ Hcall) as Hb.
  destruct (ledger_spendAllowance_other _ _ _ _ _ a Hcall Ha) as [Hal Hz].
  assert (a ≠ from ∨ v = 0) as Hor.
  { destruct (decide (a = from)) as [->|?]; [right; by apply Hz|by left]. }
  destruct (ledger_transfer_other _ _ _ _ _ a H Hor) as [Hle Hsame].
  unfold Ledger.balanceOf, Ledger.allowance in *. rewrite Hsame, <- Hb. by split.
Qed.

Lemma ledger_mint_other to v l l' a :
  Ledger._mint to v l = Ok l' →
  Ledger.balanceOf l a <= Ledger.balanceOf l' a ∧
  Ledger._allowances l' = Ledger._allowances l.
Proof.
  unfold Ledger._mint. intros H. unroll H. injection H as <-.
  unfold Ledger.balanceOf. simpl. split; [|done].
  destruct (decide (to = a)) as [<-|Hne].
  - rewrite getN_insert_eq. lia.
  - by rewrite getN_insert_ne.
Qed.

Lemma escrow_deployed self tok o l w :
  Registry.deployed self tok o l w →
  (∀ sp, Ledger.allowance l self sp = 0) →
  escrow_inv w ∧ Registry.this (Registry.reg w) = self.
Proof.
  intros (s & Hc & ->) Hal. unfold Registry.constructor in Hc. unroll Hc.
  injection Hc as <-. unfold escrow_inv, escrowed. simpl. split_and!; [|done..].
  unfold Registry.amountSum. rewrite map_fold_empty. lia.
Qed.

Lemma escrow_step env c w w' :
  msg_sender env ≠ Registry.this (Registry.reg w) →
  escrow_inv w → Registry.exec env c w = Ok w' →
  escrow_inv w' ∧ Registry.this (Registry.reg w') = Registry.this (Registry.reg w).
Proof.
  intros Hne [Hbal Hal] H. unfold escrowed in *.
  destruct (registry_exec_cases _ _ _ _ H)
    as [(s' & -> & Ht & _ & Hd & _)|[(d & a & Hc)|[(d & a & Hc)|
        [(f & t & a & Hc)|(l & -> & Hl)]]]].
  - unfold escrow_inv, escrowed. simpl. by rewrite Ht, Hd.
  - apply delegate_effect in Hc as (tok & rec & cps & _ & _ & _ & _ & Htr & Hamt & _ & _ & ->).
    pose proof (ledger_transferFrom_balances _ _ _ _ _ _ Htr Hne) as [_ Hb].
    destruct (ledger_transferFrom_other _ _ _ _ _ _ (Registry.this (Registry.reg w)) Htr)
      as [_ Hal']; [left; congruence|].
    pose proof (amountSum_write (λ _, True) (msg_sender env, d) rec
                  (Registry._delegations (Registry.reg w))) as Hw.
    unfold Registry.getDelegation in Hamt. simpl in Hw.
    unfold escrow_inv, escrowed. simpl. split_and!; [lia| |done].
    intros sp. by rewrite Hal'.
  - apply undelegate_effect in Hc as (tok & cps & _ & _ & _ & Hle & _ & _ & Htr & _ & ->).
    unfold Ledger.transfer in Htr.
    pose proof (ledger_transfer_balances _ _ _ _ _ Htr ltac:(congruence)) as [Hb _].
    destruct (ledger_transfer_other _ _ _ _ _ 0 Htr) as [_ Hsame].
    { destruct (decide (0 = Registry.this (Registry.reg w))); [|by left].
      right. unfold Ledger._transfer in Htr. unroll Htr.
      apply negb_true_iff, N.eqb_neq in Hreq. congruence. }
    pose proof (amountSum_withdrawn (λ _, True) (msg_sender env, d) a
                  (Registry._delegations (Registry.reg w)) Hle) as Hw.
    simpl in Hw. unfold escrow_inv, escrowed, Ledger.allowance in *. simpl.
    rewrite Hsame. split_and!; [lia|done..].
  - apply redelegate_effect in Hc
      as (rec & cps1 & cps2 & _ & _ & _ & _ & _ & Hle & _ & Hamt & _ & _ & _ & ->).
    pose proof (amountSum_withdrawn (λ _, True) (msg_sender env, f) a
                  (Registry._delegations (Registry.reg w)) Hle) as Hw1.
    pose proof (amountSum_write (λ _, True) (msg_sender env, t) rec
                  (withdrawn (msg_sender env, f) a (Registry._delegations (Registry.reg w))))
      as Hw2.
    simpl in Hw1, Hw2. unfold escrow_inv, escrowed. simpl. split_and!; [lia|done..].
  - unfold escrow_inv, escrowed. simpl. split; [|done].
    destruct Hl as [(to & v & Hm)|[(to & v & Htr)|[(sp & v & <-)|(from & to & v & Htr)]]].
    + destruct (ledger_mint_other _ _ _ _ (Registry.this (Registry.reg w)) Hm) as [Hle Hsame].
      unfold Ledger.allowance in *. rewrite Hsame. split; [lia|done].
    + destruct (ledger_transfer_other _ _ _ _ _ (Registry.this (Registry.reg w)) Htr)
        as [Hle Hsame]; [left; congruence|].
      unfold Ledger.allowance in *. rewrite Hsame. split; [lia|done].
    + split; [done|]. intros x. unfold Ledger.allowance in *. simpl.
      rewrite getN_insert_ne; [done|]. intros [= Heq _]. done.
    + destruct (ledger_transferFrom_other _ _ _ _ _ _ (Registry.this (Registry.reg w)) Htr)
        as [Hle Hal'].
      { destruct (decide (Registry.this (Registry.reg w) = from)) as [<-|?];
          [right; apply Hal|by left]. }
      split; [lia|]. intros x. by rewrite Hal'.
Qed.

Lemma escrow_run self txs w :
  Forall (λ tx : Env * Registry.call, msg_sender tx.1 ≠ self) txs →
  Registry.this (Registry.reg w) = self → escrow_inv w →
  escrow_inv (Registry.run txs w) ∧ Registry.this (Registry.reg (Registry.run txs w)) = self.
Proof.
  intros Hall. revert w. induction Hall as [|[env c] txs Hs _ IH]; intros w Ht Hinv; [done|].
  simpl in *. destruct (Registry.exec env c w) as [w'|e] eqn:Hex; simpl; [|by apply IH].
  destruct (escrow_step env c w w') as [Hinv' Ht']; [congruence|done..|].
  apply IH; [congruence|done].
Qed.

(** X12.  The two aggregates of the registry are what their names say: in
    every state reached from a deployment, the total delegated to a
    delegator is the sum of the amounts of the records made to it, and the
    total delegated by an owner is the sum of the amounts of the owner's
    records. *)
Theorem aggregates_consistent self tok o l w0 txs :
  Registry.deployed self tok o l w0 →
  Ledger.totalSupply l <= Ledger.MAX_SUPPLY →
  (∀ d, Registry.getTotalDelegated (Registry.reg (Registry.run txs w0)) d
        = Registry.delegatedToSum d (Registry._delegations (Registry.reg (Registry.run txs w0)))) ∧
  (∀ x, Registry.getTotalDelegatedBy (Registry.reg (Registry.run txs w0)) x
        = Registry.delegatedSum x (Registry._delegations (Registry.reg (Registry.run txs w0)))).
Proof.
  intros Hd Hl.
  pose proof (registry_inv_run txs _ (registry_inv_deployed _ _ _ _ _ Hd Hl)) as (_ & _ & _ & Hto).
  pose proof (registry_books_run txs _ (registry_books_deployed _ _ _ _ _ Hd)) as [_ Hby].
  split; intros x; symmetry; [apply Hto|apply Hby].
Qed.

Lemma aggregates_consistent_witness :
  (∀ d, Registry.getTotalDelegated
          (Registry.reg (Registry.run (registry_setup ++ owner_moves) registry_fresh)) d
        = Registry.delegatedToSum d
            (Registry._delegations
               (Registry.reg (Registry.run (registry_setup ++ owner_moves) registry_fresh)))) ∧
  (∀ x, Registry.getTotalDelegatedBy
          (Registry.reg (Registry.run (registry_setup ++ owner_moves) registry_fresh)) x
        = Registry.delegatedSum x
            (Registry._delegations
               (Registry.reg (Registry.run (registry_setup ++ owner_moves) registry_fresh)))).
Proof.
  apply (aggregates_consistent 100 50 1 Ledger.empty).
  - exact registry_fresh_deployed.
  - vm_compute. discriminate.
Defined.

(** X13.  Every delegation is backed by tokens in escrow.  If the token
    ledger at deployment holds no allowance granted by the registry, and
    no transaction is sent from the registry's own address, then in every
    state reached from the deployment the registry's token balance is at
    least the sum of the amounts of all delegation records. *)
Theorem escrow_backs_delegations self tok o l w0 txs :
  Registry.deployed self tok o l w0 →
  (∀ sp, Ledger.allowance l self sp = 0) →
  Forall (λ tx : Env * Registry.call, msg_sender tx.1 ≠ self) txs →
  escrowed (Registry.run txs w0) <= Ledger.balanceOf (Registry.vTON (Registry.run txs w0)) self ∧
  ∀ x d, Registry.amount (Registry.getDelegation (Registry.reg (Registry.run txs w0)) x d)
         <= Ledger.balanceOf (Registry.vTON (Registry.run txs w0)) self.
Proof.
  intros Hd Hal Hall.
  assert (Hl : w0 = {| Registry.reg := Registry.reg w0; Registry.vTON := l |}).
  { destruct Hd as (s & _ & ->). done. }
  destruct (escrow_deployed _ _ _ _ _ Hd Hal) as [Hinv Ht].
  destruct (escrow_run self txs w0 Hall Ht Hinv) as [[Hbal _] Ht'].
  rewrite Ht' in Hbal. split; [done|]. intros x d.
  pose proof (amountSum_lookup_le (λ _, True) (x, d)
                (Registry._delegations (Registry.reg (Registry.run txs w0))) I) as Hle.
  unfold escrowed, Registry.getDelegation in *. lia.
Qed.

Lemma registry_history_senders :
  Forall (λ tx : Env * Registry.call, msg_sender tx.1 ≠ 100) (registry_setup ++ owner_moves).
Proof. unfold registry_setup, owner_moves. simpl. repeat (constructor; [done|]). constructor. Qed.

Lemma escrow_backs_delegations_witness :
  escrowed (Registry.run (registry_setup ++ owner_moves) registry_fresh)
  <= Ledger.balanceOf
       (Registry.vTON (Registry.run (registry_setup ++ owner_moves) registry_fresh)) 100 ∧
  ∀ x d, Registry.amount
           (Registry.getDelegation
              (Registry.reg (Registry.run (registry_setup ++ owner_moves) registry_fresh)) x d)
         <= Ledger.balanceOf
              (Registry.vTON (Registry.run (registry_setup ++ owner_moves) registry_fresh)) 100.
Proof.
  apply (escrow_backs_delegations 100 50 1 Ledger.empty).
  - exact registry_fresh_deployed.
  - intros sp. reflexivity.
  - exact registry_history_senders.
Defined.

Lemma checkpoint_push_ok key v trace :
  (∀ k x, last trace = Some (k, x) → k <= key) →
  ∃ trace', Registry.checkpoint_push key v trace = Ok trace'.
Proof.
  intros Hk. unfold Registry.checkpoint_push.
  destruct (last trace) as [[k x]|]; [|eauto].
  specialize (Hk k x eq_refl). apply N.ltb_ge in Hk. rewrite Hk.
  destruct (k =? key); eauto.
Qed.

(** X14.  What was delegated can be taken back.  In a state reached as in
    X13 by a registry with a non-zero address, an owner's [undelegate] of
    a positive amount up to the recorded one succeeds, whatever the state
    of the delegator, the cap or the expiry, provided the block number
    (as [uint48]) is not below that of the delegator's last checkpoint;
    the owner's balance grows by the amount and the record shrinks by
    it. *)
Theorem undelegate_always_possible self tok o l w0 txs env d a :
  Registry.deployed self tok o l w0 →
  Ledger.totalSupply l <= Ledger.MAX_SUPPLY →
  (∀ sp, Ledger.allowance l self sp = 0) →
  Forall (λ tx : Env * Registry.call, msg_sender tx.1 ≠ self) txs →
  self ≠ 0 → msg_sender env ≠ 0 → msg_sender env ≠ self → d ≠ 0 →
  0 < a →
  a <= Registry.amount
         (Registry.getDelegation (Registry.reg (Registry.run txs w0)) (msg_sender env) d) →
  (∀ k x, last (checkpointsOf (Registry.reg (Registry.run txs w0)) d) = Some (k, x) →
          k <= block_number env `mod` 2 ^ 48) →
  ∃ w', Registry.undelegate env d a (Registry.run txs w0) = Ok w' ∧
        Ledger.balanceOf (Registry.vTON w') (msg_sender env)
        = Ledger.balanceOf (Registry.vTON (Registry.run txs w0)) (msg_sender env) + a ∧
        Registry.amount (Registry.getDelegation (Registry.reg w') (msg_sender env) d)
        = Registry.amount
            (Registry.getDelegation (Registry.reg (Registry.run txs w0)) (msg_sender env) d)
          - a.
Proof.
  intros Hd Hl Hal Hall Hself Hs Hss Hd0 Ha Hle Hcp.
  pose proof (registry_inv_run txs _ (registry_inv_deployed _ _ _ _ _ Hd Hl)) as (_ & _ & _ & Hto).
  pose proof (registry_books_run txs _ (registry_books_deployed _ _ _ _ _ Hd)) as [Hst Hby].
  destruct (escrow_deployed _ _ _ _ _ Hd Hal) as [Hinv Ht].
  destruct (escrow_run self txs w0 Hall Ht Hinv) as [[Hbal _] Ht'].
  set (w := Registry.run txs w0) in *.
  pose proof (amountSum_lookup_le (λ k, k.2 = d) (msg_sender env, d)
                (Registry._delegations (Registry.reg w)) eq_refl) as Hle1.
  pose proof (amountSum_lookup_le (λ k, k.1 = msg_sender env) (msg_sender env, d)
                (Registry._delegations (Registry.reg w)) eq_refl) as Hle2.
  pose proof (amountSum_lookup_le (λ _, True) (msg_sender env, d)
                (Registry._delegations (Registry.reg w)) I) as Hle3.
  specialize (Hto d). specialize (Hby (msg_sender env)).
  unfold Registry.delegatedToSum, Registry.delegatedSum, Registry.getTotalDelegated,
    Registry.getTotalDelegatedBy, escrowed, Registry.getDelegation in *.
  destruct (checkpoint_push_ok (block_number env `mod` 2 ^ 48)
              (getN (<[d := getN (Registry._totalDelegated (Registry.reg w)) d - a]>
                       (Registry._totalDelegated (Registry.reg w))) d `mod` 2 ^ 208)
              (checkpointsOf (Registry.reg w) d) Hcp) as [trace Htrace].
  unfold Registry.undelegate. rewrite Hst. simpl.
  rewrite (proj2 (N.eqb_neq d 0) Hd0). simpl.
  rewrite (proj2 (N.eqb_neq a 0)) by lia. simpl.
  unfold Registry.getDelegation. rewrite (proj2 (N.leb_le _ _) Hle). simpl.
  unfold sub_checked.
  rewrite (proj2 (N.leb_le a (getN (Registry._totalDelegated (Registry.reg w)) d))) by lia.
  simpl.
  rewrite (proj2 (N.leb_le a (getN (Registry._totalDelegatedBy (Registry.reg w))
                                (msg_sender env)))) by lia.
  simpl. unfold Registry._updateVotingPowerCheckpoint.
  unfold checkpointsOf in Htrace. rewrite Htrace. simpl.
  unfold Ledger.transfer, Ledger._transfer. rewrite Ht'.
  rewrite (proj2 (N.eqb_neq self 0) Hself), (proj2 (N.eqb_neq (msg_sender env) 0) Hs). simpl.
  rewrite Ht' in Hbal.
  rewrite (proj2 (N.leb_le a (Ledger.balanceOf (Registry.vTON w) self))) by lia. simpl.
  eexists. split; [reflexivity|]. simpl. split.
  - unfold Ledger.balanceOf. simpl. rewrite getN_insert_eq.
    by rewrite getN_insert_ne by done.
  - fold (withdrawn (msg_sender env, d) a (Registry._delegations (Registry.reg w))).
    apply withdrawn_amount.
Qed.

Lemma undelegate_always_possible_witness :
  ∃ w', Registry.undelegate (env_at 31 1700000) 41 (400 * ether)
          (Registry.run (registry_setup ++ take 1 owner_moves) registry_fresh) = Ok w' ∧
        Ledger.balanceOf (Registry.vTON w') 31
        = Ledger.balanceOf
            (Registry.vTON (Registry.run (registry_setup ++ take 1 owner_moves) registry_fresh))
            31 + 400 * ether ∧
        Registry.amount (Registry.getDelegation (Registry.reg w') 31 41)
        = Registry.amount
            (Registry.getDelegation
               (Registry.reg (Registry.run (registry_setup ++ take 1 owner_moves) registry_fresh))
               31 41)
          - 400 * ether.
Proof.
  apply (undelegate_always_possible 100 50 1 Ledger.empty registry_fresh
           (registry_setup ++ take 1 owner_moves) (env_at 31 1700000) 41 (400 * ether)).
  - exact registry_fresh_deployed.
  - vm_compute. discriminate.
  - intros sp. reflexivity.
  - unfold registry_setup, owner_moves. simpl. repeat (constructor; [done|]). constructor.
  - discriminate.
  - discriminate.
  - discriminate.
  - discriminate.
  - reflexivity.
  - vm_compute. discriminate.
  - intros k x Hk. vm_compute in Hk. injection Hk as <- <-. vm_compute. discriminate.
Defined.

(** *** Deactivation *)

Lemma deactivated_not_registered s d :
  deactivated s d → Registry.isRegisteredDelegator s d = false.
Proof.
  intros [_ Ha]. unfold Registry.isRegisteredDelegator. by rewrite Ha, andb_false_r.
Qed.

Lemma getDelegatorInfo_insert_ne s a info l d :
  a ≠ d →
  Registry.getDelegatorInfo (Registry.set_delegators (<[a := info]> (Registry._delegators s)) l s) d
  = Registry.getDelegatorInfo s d.
Proof. intros Hne. unfold Registry.getDelegatorInfo. simpl. by rewrite lookup_insert_ne. Qed.

Lemma getDelegatorInfo_insert_eq s a info l :
  Registry.getDelegatorInfo (Registry.set_delegators (<[a := info]> (Registry._delegators s)) l s) a
  = info.
Proof. unfold Registry.getDelegatorInfo. simpl. by rewrite lookup_insert_eq. Qed.

Lemma deactivated_step env c w w' d :
  deactivated (Registry.reg w) d → Registry.exec env c w = Ok w' →
  deactivated (Registry.reg w') d ∧
  Registry.getTotalDelegated (Registry.reg w') d
  <= Registry.getTotalDelegated (Registry.reg w) d.
Proof.
  intros Hd H. pose proof (deactivated_not_registered _ _ Hd) as Hnr.
  destruct Hd as [Hr Ha]. unfold deactivated, Registry.getTotalDelegated.
  destruct c; simpl in H.
  - unfold Registry.on_reg, Registry.registerDelegator in H. unroll H. unroll Hcall.
    injection Hcall as <-. injection H as <-. simpl. split; [|done].
    apply N.eqb_eq in Hreq0.
    destruct (decide (msg_sender env = d)) as [<-|Hne]; [done|].
    by rewrite getDelegatorInfo_insert_ne.
  - unfold Registry.on_reg, Registry.updateDelegator in H. unroll H. unroll Hcall.
    injection Hcall as <-. injection H as <-. simpl. split; [|done].
    destruct (decide (msg_sender env = d)) as [<-|Hne].
    + by rewrite getDelegatorInfo_insert_eq.
    + by rewrite getDelegatorInfo_insert_ne.
  - unfold Registry.on_reg, Registry.deactivateDelegator in H. unroll H. unroll Hcall.
    injection Hcall as <-. injection H as <-. simpl. split; [|done].
    destruct (decide (msg_sender env = d)) as [<-|Hne].
    + by rewrite getDelegatorInfo_insert_eq.
    + by rewrite getDelegatorInfo_insert_ne.
  - apply delegate_effect in H as (tok & rec & cps & _ & _ & _ & Hact & _ & _ & _ & _ & ->).
    simpl. split; [done|].
    destruct (decide (delegator_ = d)) as [->|Hne]; [congruence|].
    by rewrite getN_insert_ne.
  - apply undelegate_effect in H as (tok & cps & _ & _ & _ & _ & _ & _ & _ & _ & ->).
    simpl. split; [done|].
    destruct (decide (delegator_ = d)) as [->|Hne].
    + rewrite getN_insert_eq. lia.
    + by rewrite getN_insert_ne.
  - apply redelegate_effect in H
      as (rec & cps1 & cps2 & _ & _ & _ & _ & Hact & _ & _ & _ & _ & _ & _ & ->).
    simpl. split; [done|].
    destruct (decide (toDelegator = d)) as [->|Hne]; [congruence|].
    rewrite getN_insert_ne by done.
    destruct (decide (fromDelegator = d)) as [->|Hne'].
    + rewrite getN_insert_eq. lia.
    + by rewrite getN_insert_ne.
  - unfold Registry.on_reg, Registry.setDelegationCap in H. unroll H. unroll Hcall.
    injection Hcall as <-. by injection H as <-.
  - unfold Registry.on_reg, Registry.setDelegationPeriodRequirement in H. unroll H.
    unroll Hcall. injection Hcall as <-. by injection H as <-.
  - unfold Registry.on_reg, Registry.setAutoExpiryPeriod in H. unroll H.
    unroll Hcall. injection Hcall as <-. by injection H as <-.
  - unfold Registry.on_token in H. unroll H. by injection H as <-.
  - unfold Registry.on_token in H. unroll H. by injection H as <-.
  - unfold Registry.on_token in H. unroll H. by injection H as <-.
  - unfold Registry.on_token in H. unroll H. by injection H as <-.
Qed.

Lemma deactivated_run txs w d :
  deactivated (Registry.reg w) d →
  deactivated (Registry.reg (Registry.run txs w)) d ∧
  Registry.getTotalDelegated (Registry.reg (Registry.run txs w)) d
  <= Registry.getTotalDelegated (Registry.reg w) d.
Proof.
  revert w. induction txs as [|[env c] txs IH]; simpl; intros w Hd; [done|].
  destruct (Registry.exec env c w) as [w'|e] eqn:Hex; simpl; [|by apply IH].
  destruct (deactivated_step _ _ _ _ _ Hd Hex) as [Hd' Hle].
  destruct (IH w' Hd') as [Hd'' Hle']. split; [done|lia].
Qed.

(** X15.  Deactivation cannot be undone.  After [deactivateDelegator], and
    whatever is sent to the registry afterwards, the account is not a
    registered delegator, it cannot register again, no [delegate] or
    [redelegate] to it succeeds, and the total delegated to it does not
    grow. *)
Theorem deactivation_is_permanent env w w1 txs :
  Registry.exec env Registry.DeactivateDelegator w = Ok w1 →
  Registry.isRegisteredDelegator (Registry.reg (Registry.run txs w1)) (msg_sender env) = false ∧
  Registry.getTotalDelegated (Registry.reg (Registry.run txs w1)) (msg_sender env)
  <= Registry.getTotalDelegated (Registry.reg w1) (msg_sender env) ∧
  (∀ env' p v i, msg_sender env' = msg_sender env →
     ∃ e, Registry.registerDelegator env' p v i (Registry.reg (Registry.run txs w1)) = Revert e) ∧
  (∀ env' a, ∃ e, Registry.delegate env' (msg_sender env) a (Registry.run txs w1) = Revert e) ∧
  (∀ env' f a,
     ∃ e, Registry.redelegate env' f (msg_sender env) a (Registry.run txs w1) = Revert e).
Proof.
  intros H.
  assert (Hd : deactivated (Registry.reg w1) (msg_sender env)).
  { simpl in H. unfold Registry.on_reg, Registry.deactivateDelegator in H. unroll H.
    unroll Hcall. injection Hcall as <-. injection H as <-. simpl.
    apply negb_true_iff, N.eqb_neq in Hreq.
    unfold deactivated. by rewrite getDelegatorInfo_insert_eq. }
  destruct (deactivated_run txs w1 _ Hd) as [Hd' Hle].
  pose proof (deactivated_not_registered _ _ Hd') as Hnr.
  set (w' := Registry.run txs w1) in *.
  split_and!; [done..| | |].
  - intros env' p v i Hs. unfold Registry.registerDelegator.
    destruct (negb _); simpl; [|eauto].
    rewrite Hs. destruct Hd' as [Hr _]. apply N.eqb_neq in Hr. rewrite Hr. simpl. eauto.
  - intros env' a.
    destruct (Registry.delegate env' (msg_sender env) a w') as [w2|e] eqn:Hex; [|eauto].
    apply delegate_effect in Hex as (? & ? & ? & _ & _ & _ & Hact & _). congruence.
  - intros env' f a.
    destruct (Registry.redelegate env' f (msg_sender env) a w') as [w2|e] eqn:Hex; [|eauto].
    apply redelegate_effect in Hex as (? & ? & ? & _ & _ & _ & _ & Hact & _). congruence.
Qed.

Lemma deactivation_is_permanent_witness :
  Registry.isRegisteredDelegator
    (Registry.reg
       (Registry.run [(env_at 41 1300000, Registry.RegisterDelegator "Alice" "P" "I")]
          (Registry.run [(env_at 41 1100000, Registry.DeactivateDelegator)] registry_ready)))
    (msg_sender (env_at 41 1100000)) = false ∧
  ∀ env' a,
    ∃ e, Registry.delegate env' (msg_sender (env_at 41 1100000)) a
           (Registry.run [(env_at 41 1300000, Registry.RegisterDelegator "Alice" "P" "I")]
              (Registry.run [(env_at 41 1100000, Registry.DeactivateDelegator)] registry_ready))
         = Revert e.
Proof.
  destruct (deactivation_is_permanent (env_at 41 1100000) registry_ready
              (Registry.run [(env_at 41 1100000, Registry.DeactivateDelegator)] registry_ready)
              [(env_at 41 1300000, Registry.RegisterDelegator "Alice" "P" "I")])
    as (Hreg & _ & _ & Hdel & _).
  - vm_compute. reflexivity.
  - split; [exact Hreg|exact Hdel].
Defined.

(** *** Checkpoints *)

Lemma checkpoint_push_latest key v trace trace' :
  Registry.checkpoint_push key v trace = Ok trace' → latest trace' = v.
Proof.
  unfold Registry.checkpoint_push, latest.
  destruct (last trace) as [[k x]|].
  - destruct (key <? k); [done|].
    destruct (k =? key); intros [= <-]; by rewrite last_snoc.
  - by intros [= <-].
Qed.

Lemma updateCheckpoint_latest env d total cps cps' :
  Registry._updateVotingPowerCheckpoint env d total cps = Ok cps' →
  ∃ trace, cps' = <[d := trace]> cps ∧ latest trace = getN total d `mod` 2 ^ 208.
Proof.
  unfold Registry._updateVotingPowerCheckpoint. intros H. unroll H. injection H as <-.
  eexists. split; [done|]. by eapply checkpoint_push_latest.
Qed.

Lemma supply_fits_uint208 n : n <= Ledger.MAX_SUPPLY → n `mod` 2 ^ 208 = n.
Proof. intros Hn. apply N.mod_small. unfold Ledger.MAX_SUPPLY in Hn. lia. Qed.

Lemma checkpoints_step env c w w' :
  registry_inv w →
  (∀ d, latest (checkpointsOf (Registry.reg w) d) = Registry.getTotalDelegated (Registry.reg w) d) →
  Registry.exec env c w = Ok w' →
  ∀ d, latest (checkpointsOf (Registry.reg w') d) = Registry.getTotalDelegated (Registry.reg w') d.
Proof.
  intros Hinv Hcp H.
  pose proof (registry_inv_step _ _ _ _ Hinv H) as (_ & Hsup & Htot & _).
  assert (Hfit : ∀ x, Registry.getTotalDelegated (Registry.reg w') x `mod` 2 ^ 208
                      = Registry.getTotalDelegated (Registry.reg w') x).
  { intros x. apply supply_fits_uint208. specialize (Htot x). lia. }
  unfold checkpointsOf, Registry.getTotalDelegated in *.
  destruct (registry_exec_cases _ _ _ _ H)
    as [(s' & -> & _ & _ & _ & Ht & _ & Hc & _)|[(d & a & Hc)|[(d & a & Hc)|
        [(f & t & a & Hc)|(l & -> & _)]]]].
  - simpl. by rewrite Ht, Hc.
  - apply delegate_effect in Hc as (tok & rec & cps & _ & _ & _ & _ & _ & _ & _ & Hup & ->).
    apply updateCheckpoint_latest in Hup as (trace & -> & Hlat).
    simpl in *. intros x. destruct (decide (d = x)) as [<-|Hne].
    + rewrite lookup_insert_eq. simpl. rewrite Hlat. apply Hfit.
    + rewrite lookup_insert_ne by done. rewrite getN_insert_ne by done. apply Hcp.
  - apply undelegate_effect in Hc as (tok & cps & _ & _ & _ & _ & _ & _ & _ & Hup & ->).
    apply updateCheckpoint_latest in Hup as (trace & -> & Hlat).
    simpl in *. intros x. destruct (decide (d = x)) as [<-|Hne].
    + rewrite lookup_insert_eq. simpl. rewrite Hlat. apply Hfit.
    + rewrite lookup_insert_ne by done. rewrite getN_insert_ne by done. apply Hcp.
  - apply redelegate_effect in Hc
      as (rec & cps1 & cps2 & _ & _ & _ & _ & _ & _ & _ & _ & _ & Hup1 & Hup2 & ->).
    apply updateCheckpoint_latest in Hup1 as (trace1 & -> & Hlat1).
    apply updateCheckpoint_latest in Hup2 as (trace2 & -> & Hlat2).
    simpl in *. intros x. destruct (decide (t = x)) as [<-|Hne].
    + rewrite lookup_insert_eq. simpl. rewrite Hlat2. apply Hfit.
    + rewrite lookup_insert_ne by done. rewrite (getN_insert_ne _ t x) by done.
      destruct (decide (f = x)) as [<-|Hne'].
      * rewrite lookup_insert_eq. simpl. rewrite Hlat1.
        rewrite (Hfit f). by rewrite (getN_insert_ne _ t f) by done.
      * rewrite lookup_insert_ne by done. rewrite getN_insert_ne by done. apply Hcp.
  - done.
Qed.

(** X16.  The checkpoints follow the totals: in every state reached from a
    deployment, the last voting-power checkpoint of a delegator holds
    exactly the total delegated to it (zero when there is no checkpoint);
    the narrowing to [uint208] never cuts the value. *)
Theorem checkpoint_tracks_total self tok o l w0 txs d :
  Registry.deployed self tok o l w0 →
  Ledger.totalSupply l <= Ledger.MAX_SUPPLY →
  latest (checkpointsOf (Registry.reg (Registry.run txs w0)) d)
  = Registry.getTotalDelegated (Registry.reg (Registry.run txs w0)) d.
Proof.
  intros Hd Hl. pose proof (registry_inv_deployed _ _ _ _ _ Hd Hl) as Hinv.
  assert (Hcp : ∀ x, latest (checkpointsOf (Registry.reg w0) x)
                     = Registry.getTotalDelegated (Registry.reg w0) x).
  { destruct Hd as (s & Hc & ->). unfold Registry.constructor in Hc. unroll Hc.
    by injection Hc as <-. }
  clear Hd. revert w0 Hinv Hcp d.
  induction txs as [|[env c] txs IH]; simpl; intros w Hinv Hcp d; [done|].
  destruct (Registry.exec env c w) as [w'|e] eqn:Hex; simpl; [|by apply IH].
  apply IH.
  - by eapply registry_inv_step.
  - by eapply checkpoints_step.
Qed.

Lemma checkpoint_tracks_total_witness :
  latest (checkpointsOf
            (Registry.reg (Registry.run (registry_setup ++ owner_moves) registry_fresh)) 41)
  = Registry.getTotalDelegated
      (Registry.reg (Registry.run (registry_setup ++ owner_moves) registry_fresh)) 41.
Proof.
  apply (checkpoint_tracks_total 100 50 1 Ledger.empty).
  - exact registry_fresh_deployed.
  - vm_compute. discriminate.
Defined.

(** *** Voting power against the total *)

Lemma owner_amounts_le_sum (d : address) (owners : list address)
    (m : gmap (address * address) Registry.DelegationInfo) :
  NoDup owners →
  foldr (λ o acc, Registry.amount (default Registry.noDelegation (m !! (o, d))) + acc) 0 owners
  <= Registry.delegatedToSum d m.
Proof.
  revert m. induction owners as [|o owners IH]; intros m Hnd; simpl; [lia|].
  apply NoDup_cons in Hnd as [Ho Hnd].
  pose proof (amountSum_delete (λ k, k.2 = d) (o, d) m eq_refl) as Hdel.
  specialize (IH (delete (o, d) m) Hnd).
  assert (Hsame :
    foldr (λ o' acc, Registry.amount (default Registry.noDelegation
                                        (delete (o, d) m !! (o', d))) + acc) 0 owners
    = foldr (λ o' acc, Registry.amount (default Registry.noDelegation (m !! (o', d))) + acc)
        0 owners).
  { clear IH Hnd Hdel. induction owners as [|o' owners IH']; simpl; [done|].
    apply not_elem_of_cons in Ho as [Hne Ho].
    rewrite lookup_delete_ne by congruence. by rewrite IH'. }
  unfold Registry.delegatedToSum in *. lia.
Qed.

Lemma votingSum_le_amounts now cutoff s d owners :
  votingSum now cutoff s d owners
  <= foldr (λ o acc, Registry.amount
                       (default Registry.noDelegation (Registry._delegations s !! (o, d))) + acc)
       0 owners.
Proof.
  induction owners as [|o owners IH]; simpl; [lia|].
  pose proof (votingTerm_le_amount now cutoff s d o) as Hle.
  unfold Registry.getDelegation in Hle. lia.
Qed.

(** X17.  Voting power is bounded by the total: in a state reached from a
    deployment, when no owner appears twice in the owner list of a
    delegator, the voting power that [getVotingPower] returns for it is at
    most the total delegated to it. *)
Theorem voting_power_within_total self tok o l w0 txs env d blockNumber snapshotBlock v :
  Registry.deployed self tok o l w0 →
  Ledger.totalSupply l <= Ledger.MAX_SUPPLY →
  NoDup (Registry.ownersOf (Registry.reg (Registry.run txs w0)) d) →
  Registry.getVotingPower env d blockNumber snapshotBlock (Registry.reg (Registry.run txs w0))
  = Ok v →
  v <= Registry.getTotalDelegated (Registry.reg (Registry.run txs w0)) d.
Proof.
  intros Hd Hl Hnd H.
  pose proof (registry_inv_run txs _ (registry_inv_deployed _ _ _ _ _ Hd Hl)) as (_ & _ & _ & Hto).
  set (s := Registry.reg (Registry.run txs w0)) in *.
  unfold Registry.getVotingPower in H. unroll H.
  rewrite votingPowerLoop_sum in H by (vm_compute; discriminate).
  destruct (_ <=? MAX_UINT256); [|done]. injection H as <-.
  pose proof (votingSum_le_amounts (block_timestamp env) a s d (Registry.ownersOf s d)).
  pose proof (owner_amounts_le_sum d _ (Registry._delegations s) Hnd).
  rewrite <- Hto. lia.
Qed.

Lemma voting_power_within_total_witness :
  300 * ether
  <= Registry.getTotalDelegated
       (Registry.reg (Registry.run (registry_setup ++ owner_moves) registry_fresh)) 41.
Proof.
  apply (voting_power_within_total 100 50 1 Ledger.empty registry_fresh
           (registry_setup ++ owner_moves) (env_at 9 2000000) 41 0 0).
  - exact registry_fresh_deployed.
  - vm_compute. discriminate.
  - apply (bool_decide_unpack _). vm_compute. exact I.
  - vm_compute. reflexivity.
Defined.

(** *** The list of delegators *)

Lemma delegator_list_step env c w w' :
  block_timestamp env ≠ 0 →
  (NoDup (Registry.getAllDelegators (Registry.reg w)) ∧
   ∀ a, a ∈ Registry.getAllDelegators (Registry.reg w) ↔
        Registry.registeredAt (Registry.getDelegatorInfo (Registry.reg w) a) ≠ 0) →
  Registry.exec env c w = Ok w' →
  NoDup (Registry.getAllDelegators (Registry.reg w')) ∧
  ∀ a, a ∈ Registry.getAllDelegators (Registry.reg w') ↔
       Registry.registeredAt (Registry.getDelegatorInfo (Registry.reg w') a) ≠ 0.
Proof.
  intros Hnow [Hnd Hin] H. unfold Registry.getAllDelegators in *.
  destruct c; simpl in H.
  - unfold Registry.on_reg, Registry.registerDelegator in H. unroll H. unroll Hcall.
    injection Hcall as <-. injection H as <-. simpl. apply N.eqb_eq in Hreq0.
    assert (Hout : msg_sender env ∉ Registry._delegatorList (Registry.reg w)).
    { intros Hx. by apply Hin in Hx. }
    split.
    + apply NoDup_app. split_and!; [done| |apply NoDup_singleton].
      by intros x Hx ->%list_elem_of_singleton.
    + intros x. rewrite elem_of_app, list_elem_of_singleton.
      destruct (decide (msg_sender env = x)) as [<-|Hne].
      * rewrite getDelegatorInfo_insert_eq. simpl. split; [done|by right].
      * rewrite getDelegatorInfo_insert_ne by done. rewrite Hin.
        split; [intros [?|?]; [done|congruence]|by left].
  - unfold Registry.on_reg, Registry.updateDelegator in H. unroll H. unroll Hcall.
    injection Hcall as <-. injection H as <-. simpl. split; [done|].
    intros x. rewrite Hin. destruct (decide (msg_sender env = x)) as [<-|Hne].
    + by rewrite getDelegatorInfo_insert_eq.
    + by rewrite getDelegatorInfo_insert_ne.
  - unfold Registry.on_reg, Registry.deactivateDelegator in H. unroll H. unroll Hcall.
    injection Hcall as <-. injection H as <-. simpl. split; [done|].
    intros x. rewrite Hin. destruct (decide (msg_sender env = x)) as [<-|Hne].
    + by rewrite getDelegatorInfo_insert_eq.
    + by rewrite getDelegatorInfo_insert_ne.
  - by apply delegate_effect in H as (? & ? & ? & _ & _ & _ & _ & _ & _ & _ & _ & ->).
  - by apply undelegate_effect in H as (? & ? & _ & _ & _ & _ & _ & _ & _ & _ & ->).
  - by apply redelegate_effect in H
      as (? & ? & ? & _ & _ & _ & _ & _ & _ & _ & _ & _ & _ & _ & ->).
  - unfold Registry.on_reg, Registry.setDelegationCap in H. unroll H. unroll Hcall.
    injection Hcall as <-. by injection H as <-.
  - unfold Registry.on_reg, Registry.setDelegationPeriodRequirement in H. unroll H.
    unroll Hcall. injection Hcall as <-. by injection H as <-.
  - unfold Registry.on_reg, Registry.setAutoExpiryPeriod in H. unroll H.
    unroll Hcall. injection Hcall as <-. by injection H as <-.
  - unfold Registry.on_token in H. unroll H. by injection H as <-.
  - unfold Registry.on_token in H. unroll H. by injection H as <-.
  - unfold Registry.on_token in H. unroll H. by injection H as <-.
  - unfold Registry.on_token in H. unroll H. by injection H as <-.
Qed.

(** X18.  The list of delegators is exact: when no transaction carries the
    timestamp zero, [getAllDelegators] lists, without repetition, exactly
    the accounts that have registered (whether still active or not); a
    registered account cannot register again. *)
Theorem delegator_list_exact self tok o l w0 txs :
  Registry.deployed self tok o l w0 →
  Forall (λ tx : Env * Registry.call, block_timestamp tx.1 ≠ 0) txs →
  NoDup (Registry.getAllDelegators (Registry.reg (Registry.run txs w0))) ∧
  (∀ a, a ∈ Registry.getAllDelegators (Registry.reg (Registry.run txs w0)) ↔
        Registry.registeredAt (Registry.getDelegatorInfo (Registry.reg (Registry.run txs w0)) a)
        ≠ 0) ∧
  (∀ env p v i,
     msg_sender env ∈ Registry.getAllDelegators (Registry.reg (Registry.run txs w0)) →
     ∃ e, Registry.registerDelegator env p v i (Registry.reg (Registry.run txs w0))
          = Revert e).
Proof.
  intros Hd Hall.
  assert (Hinv : NoDup (Registry.getAllDelegators (Registry.reg (Registry.run txs w0))) ∧
    ∀ a, a ∈ Registry.getAllDelegators (Registry.reg (Registry.run txs w0)) ↔
         Registry.registeredAt (Registry.getDelegatorInfo (Registry.reg (Registry.run txs w0)) a)
         ≠ 0).
  { assert (H0 : NoDup (Registry.getAllDelegators (Registry.reg w0)) ∧
      ∀ a, a ∈ Registry.getAllDelegators (Registry.reg w0) ↔
           Registry.registeredAt (Registry.getDelegatorInfo (Registry.reg w0) a) ≠ 0).
    { destruct Hd as (s & Hc & ->). unfold Registry.constructor in Hc. unroll Hc.
      injection Hc as <-. unfold Registry.getAllDelegators, Registry.getDelegatorInfo. simpl.
      split; [constructor|]. intros x. rewrite lookup_empty. simpl.
      split; [by intros ?%elem_of_nil|done]. }
    clear Hd. revert w0 H0.
    induction Hall as [|[env c] txs Hnow _ IH]; intros w H0; [done|].
    simpl in *. destruct (Registry.exec env c w) as [w'|e] eqn:Hex; simpl; [|by apply IH].
    apply IH. by eapply delegator_list_step. }
  destruct Hinv as [Hnd Hin]. split_and!; [done..|].
  intros env p v i Hx. apply Hin in Hx. unfold Registry.registerDelegator.
  destruct (negb _); simpl; [|eauto].
  apply N.eqb_neq in Hx. rewrite Hx. simpl. eauto.
Qed.

Lemma delegator_list_exact_witness :
  NoDup (Registry.getAllDelegators
           (Registry.reg (Registry.run (registry_setup ++ owner_moves) registry_fresh))) ∧
  (∀ a, a ∈ Registry.getAllDelegators
              (Registry.reg (Registry.run (registry_setup ++ owner_moves) registry_fresh)) ↔
        Registry.registeredAt
          (Registry.getDelegatorInfo
             (Registry.reg (Registry.run (registry_setup ++ owner_moves) registry_fresh)) a)
        ≠ 0) ∧
  (∀ env p v i,
     msg_sender env ∈ Registry.getAllDelegators
                        (Registry.reg (Registry.run (registry_setup ++ owner_moves)
                                         registry_fresh)) →
     ∃ e, Registry.registerDelegator env p v i
            (Registry.reg (Registry.run (registry_setup ++ owner_moves) registry_fresh))
          = Revert e).
Proof.
  apply (delegator_list_exact 100 50 1 Ledger.empty).
  - exact registry_fresh_deployed.
  - unfold registry_setup, owner_moves. simpl. repeat (constructor; [done|]). constructor.
Defined.

(** ** vTON and the faucet: where tokens come from *)

Lemma vton_lift_inv {A} (r : result Ledger.error A) a : VTON.lift r = Ok a → r = Ok a.
Proof. destruct r; simpl; congruence. Qed.

(** What a successful [mint] did. *)
Lemma mint_effect env to amount st st' evs :
  VTON.mint env to amount st = Ok (st', evs) →
  let adjusted := amount * VTON.emissionRatio st / VTON.MAX_EMISSION_RATIO in
  VTON.isMinter st (msg_sender env) = true ∧ to ≠ 0 ∧
  VTON.owner st' = VTON.owner st ∧
  VTON.emissionRatio st' = VTON.emissionRatio st ∧
  VTON._minters st' = VTON._minters st ∧
  VTON.totalSupply st' = VTON.totalSupply st + adjusted ∧
  (adjusted ≠ 0 → VTON.totalSupply st' <= Ledger.MAX_SUPPLY) ∧
  VTON.balanceOf st' to = VTON.balanceOf st to + adjusted ∧
  (∀ a, a ≠ to → VTON.balanceOf st' a = VTON.balanceOf st a).
Proof.
  intros H adjusted. unfold VTON.mint in H. unroll H.
  apply mul_checked_inv in Hcall as [-> _]. fold adjusted in H.
  apply negb_true_iff, N.eqb_neq in Hreq0.
  destruct (adjusted =? 0) eqn:Hz.
  - injection H as <- <-. apply N.eqb_eq in Hz. rewrite Hz.
    split_and!; try done; try lia.
  - unroll H. injection H as <- <-. apply vton_lift_inv in Hcall.
    pose proof (ledger_mint_bound _ _ _ _ Hcall) as Hb.
    pose proof (ledger_mint_supply _ _ _ _ Hcall) as Hs.
    unfold Ledger._mint in Hcall. unroll Hcall. injection Hcall as <-.
    unfold VTON.totalSupply, VTON.balanceOf, Ledger.balanceOf in *. simpl in *.
    split_and!; try done; try lia.
    + apply getN_insert_eq.
    + intros x Hx. by apply getN_insert_ne.
Qed.

Lemma vton_exec_supply env c st st' evs :
  VTON.exec env c st = Ok (st', evs) →
  (∀ to amount, c ≠ VTON.Mint to amount) →
  VTON.totalSupply st' = VTON.totalSupply st.
Proof.
  intros H Hc. unfold VTON.totalSupply.
  destruct c as [to amount | ratio | m a | to v | f t v | sp v]; simpl in H.
  - by destruct (Hc to amount).
  - unfold VTON.setEmissionRatio in H. unroll H. by injection H as <- _.
  - unfold VTON.setMinter in H. unroll H. by injection H as <- _.
  - unfold VTON.transfer in H. unroll H. injection H as <- _.
    apply vton_lift_inv in Hcall. simpl. by eapply ledger_transfer_supply.
  - unfold VTON.transferFrom in H. unroll H. injection H as <- _.
    apply vton_lift_inv in Hcall. simpl. by eapply ledger_transferFrom_supply.
  - unfold VTON.approve in H. by injection H as <- _.
Qed.

Lemma vton_supply_bounded st :
  VTON.reachable st → VTON.totalSupply st <= Ledger.MAX_SUPPLY.
Proof.
  induction 1 as [o st Hc | env c st st' evs _ IH Hex].
  - unfold VTON.constructor in Hc. unroll Hc. injection Hc as <-. by vm_compute.
  - destruct c as [to amount | ratio | m a | to v | f t v | sp v];
      try (by rewrite (vton_exec_supply _ _ _ _ _ Hex)).
    apply mint_effect in Hex as (_ & _ & _ & _ & _ & Hs & Hb & _).
    destruct (decide (amount * VTON.emissionRatio st / VTON.MAX_EMISSION_RATIO = 0))
      as [Hz|Hnz]; [|by apply Hb].
    rewrite Hs, Hz. lia.
Qed.

(** X19.  Tokens come from minters only.  A successful call on a reachable
    token leaves the supply within the ceiling, and either leaves it as it
    was or is a [mint] by an account that is a minter at that moment, which
    raises the supply by at most the amount asked for.  No call lowers the
    supply. *)
Theorem supply_changes_only_by_minting env c st st' evs :
  VTON.reachable st →
  VTON.exec env c st = Ok (st', evs) →
  VTON.totalSupply st' <= Ledger.MAX_SUPPLY ∧
  (VTON.totalSupply st' = VTON.totalSupply st ∨
   ∃ to amount,
     c = VTON.Mint to amount ∧
     VTON.isMinter st (msg_sender env) = true ∧
     VTON.totalSupply st < VTON.totalSupply st' ∧
     VTON.totalSupply st' <= VTON.totalSupply st + amount).
Proof.
  intros Hr H. split.
  - apply vton_supply_bounded. by eapply VTON.reach_step.
  - destruct c as [to amount | ratio | m a | to v | f t v | sp v];
      try (left; by eapply vton_exec_supply).
    simpl in H. apply mint_effect in H as (Hm & _ & _ & _ & _ & Hs & _).
    pose proof (vton_ratio_bounded st Hr) as Hratio.
    assert (amount * VTON.emissionRatio st / VTON.MAX_EMISSION_RATIO <= amount) as Hle.
    { apply N.Div0.div_le_upper_bound. unfold VTON.MAX_EMISSION_RATIO in *. nia. }
    destruct (decide (amount * VTON.emissionRatio st / VTON.MAX_EMISSION_RATIO = 0))
      as [Hz|Hnz].
    + left. rewrite Hs, Hz. apply N.add_0_r.
    + right. exists to, amount.
      set (x := amount * VTON.emissionRatio st / VTON.MAX_EMISSION_RATIO) in *.
      clearbody x. split_and!; [done|done|lia|lia].
Qed.

Lemma supply_changes_only_by_minting_witness :
  VTON.totalSupply vton_minted <= Ledger.MAX_SUPPLY ∧
  (VTON.totalSupply vton_minted = VTON.totalSupply vton_with_minter ∨
   ∃ to amount,
     VTON.Mint 31 (1000 * ether) = VTON.Mint to amount ∧
     VTON.isMinter vton_with_minter (msg_sender (env_at 2 1100)) = true ∧
     VTON.totalSupply vton_with_minter < VTON.totalSupply vton_minted ∧
     VTON.totalSupply vton_minted <= VTON.totalSupply vton_with_minter + amount).
Proof.
  apply (supply_changes_only_by_minting (env_at 2 1100) (VTON.Mint 31 (1000 * ether))
           vton_with_minter vton_minted
           [VTON.Transfer 0 31 (1000 * ether); VTON.Minted 31 (1000 * ether)]).
  - exact vton_with_minter_reachable.
  - vm_compute. reflexivity.
Defined.

Lemma faucet_lift_inv {A} (r : result VTON.error A) a : Faucet.lift r = Ok a → r = Ok a.
Proof. destruct r; simpl; congruence. Qed.

(** X20.  What a claim gives and what the faucet counts.  When [claim]
    succeeds next to a reachable token, the faucet is not paused and is a
    minter of the token; [totalClaimed] grows by the full claim amount,
    while the claimer's balance and the supply grow by the claim amount
    scaled by the emission ratio, which is at most the claim amount. *)
Theorem faucet_claim_accounting env w w' :
  VTON.reachable (Faucet.token w) →
  Faucet.claim env w = Ok w' →
  let s := Faucet.faucet w in
  let minted := Faucet.claimAmount s * VTON.emissionRatio (Faucet.token w)
                / VTON.MAX_EMISSION_RATIO in
  Faucet.canClaim s = true ∧
  VTON.isMinter (Faucet.token w) (Faucet.this s) = true ∧
  Faucet.totalClaimed (Faucet.faucet w') = Faucet.totalClaimed s + Faucet.claimAmount s ∧
  Faucet.claimAmount (Faucet.faucet w') = Faucet.claimAmount s ∧
  VTON.balanceOf (Faucet.token w') (msg_sender env)
  = VTON.balanceOf (Faucet.token w) (msg_sender env) + minted ∧
  VTON.totalSupply (Faucet.token w') = VTON.totalSupply (Faucet.token w) + minted ∧
  minted <= Faucet.claimAmount s.
Proof.
  intros Hr H s minted. unfold Faucet.claim in H. fold s in H. unroll H.
  apply add_checked_inv in Hcall as [-> _]. apply faucet_lift_inv in Hcall0.
  destruct a0 as [tok evs]. injection H as <-.
  apply mint_effect in Hcall0 as (Hm & _ & _ & _ & _ & Hs & _ & Hb & _).
  pose proof (vton_ratio_bounded _ Hr) as Hratio.
  simpl in *. split_and!; try done.
  subst minted. apply N.Div0.div_le_upper_bound.
  unfold VTON.MAX_EMISSION_RATIO in *. nia.
Qed.

Lemma faucet_claim_accounting_witness :
  let w := Faucet.run (take 2 faucet_history) faucet_fresh in
  let w' := Faucet.run (take 3 faucet_history) faucet_fresh in
  Faucet.canClaim (Faucet.faucet w) = true ∧
  VTON.isMinter (Faucet.token w) (Faucet.this (Faucet.faucet w)) = true ∧
  Faucet.totalClaimed (Faucet.faucet w')
  = Faucet.totalClaimed (Faucet.faucet w) + Faucet.claimAmount (Faucet.faucet w) ∧
  Faucet.claimAmount (Faucet.faucet w') = Faucet.claimAmount (Faucet.faucet w) ∧
  VTON.balanceOf (Faucet.token w') (msg_sender (env_at 31 1200))
  = VTON.balanceOf (Faucet.token w) (msg_sender (env_at 31 1200))
    + Faucet.claimAmount (Faucet.faucet w) * VTON.emissionRatio (Faucet.token w)
      / VTON.MAX_EMISSION_RATIO ∧
  VTON.totalSupply (Faucet.token w')
  = VTON.totalSupply (Faucet.token w)
    + Faucet.claimAmount (Faucet.faucet w) * VTON.emissionRatio (Faucet.token w)
      / VTON.MAX_EMISSION_RATIO ∧
  Faucet.claimAmount (Faucet.faucet w) * VTON.emissionRatio (Faucet.token w)
  / VTON.MAX_EMISSION_RATIO <= Faucet.claimAmount (Faucet.faucet w).
Proof.
  apply (faucet_claim_accounting (env_at 31 1200)
           (Faucet.run (take 2 faucet_history) faucet_fresh)
           (Faucet.run (take 3 faucet_history) faucet_fresh)).
  - eapply (VTON.reach_step (env_at 1 1100) (VTON.SetEmissionRatio (5 * 10 ^ 17))).
    + eapply (VTON.reach_step (env_at 1 1000) (VTON.SetMinter 60 true)).
      * by apply (VTON.reach_init 1).
      * reflexivity.
    + vm_compute. reflexivity.
  - vm_compute. reflexivity.
Defined.

Lemma faucet_step env c w w' :
  Faucet.claimAmount (Faucet.faucet w) ≠ 0 → VTON.reachable (Faucet.token w) →
  Faucet.exec env c w = Ok w' →
  Faucet.claimAmount (Faucet.faucet w') ≠ 0 ∧ VTON.reachable (Faucet.token w') ∧
  Faucet.this (Faucet.faucet w') = Faucet.this (Faucet.faucet w).
Proof.
  intros Hc Hr H. destruct c as [|a|p|c]; simpl in H.
  - unfold Faucet.claim in H. unroll H. apply faucet_lift_inv in Hcall0.
    destruct a0 as [tok evs]. injection H as <-. simpl. split_and!; [done| |done].
    by eapply (VTON.reach_step _ (VTON.Mint _ _)).
  - unroll H. injection H as <-. unfold Faucet.setClaimAmount in Hcall. unroll Hcall.
    injection Hcall as <-. simpl. apply negb_true_iff, N.eqb_neq in Hreq0. by split_and!.
  - unroll H. injection H as <-. unfold Faucet.setPaused in Hcall. unroll Hcall.
    injection Hcall as <-. simpl. by split_and!.
  - unroll H. injection H as <-. apply faucet_lift_inv in Hcall.
    destruct a as [tok evs]. simpl. split_and!; [done| |done].
    by eapply VTON.reach_step.
Qed.

Lemma faucet_run_inv txs w :
  Faucet.claimAmount (Faucet.faucet w) ≠ 0 → VTON.reachable (Faucet.token w) →
  Faucet.claimAmount (Faucet.faucet (Faucet.run txs w)) ≠ 0 ∧
  VTON.reachable (Faucet.token (Faucet.run txs w)) ∧
  Faucet.this (Faucet.faucet (Faucet.run txs w)) = Faucet.this (Faucet.faucet w).
Proof.
  revert w. induction txs as [|[e c] txs IH]; simpl; intros w Hc Hr; [done|].
  destruct (Faucet.exec e c w) as [w1|err] eqn:Hex; simpl; [|by apply IH].
  destruct (faucet_step _ _ _ _ Hc Hr Hex) as (Hc1 & Hr1 & Ht1).
  destruct (IH w1 Hc1 Hr1) as (? & ? & Ht). split_and!; [done..|congruence].
Qed.

(** X21.  When a claim goes through.  In any state reached from the
    constructor of the faucet, next to a reachable token, the claim amount
    is positive.  A claim reverts with [FaucetPaused] exactly when
    [canClaim] is false.  With [canClaim] true, the counter is raised before
    the token is called: the claim reverts with [Panic(0x11)] when
    [totalClaimed + claimAmount] overflows; when it does not, the claim
    reverts with [NotMinter] if the faucet is not a minter of the token, and
    succeeds for a non-zero caller if the faucet is a minter and neither the
    product with the emission ratio nor the supply ceiling overflows. *)
Theorem faucet_claim_gate self v o s0 t0 txs env :
  Faucet.constructor self v o = Ok s0 →
  VTON.reachable t0 →
  let w := Faucet.run txs {| Faucet.faucet := s0; Faucet.token := t0 |} in
  let s := Faucet.faucet w in
  0 < Faucet.claimAmount s ∧
  (Faucet.canClaim s = false ↔ Faucet.claim env w = Revert Faucet.FaucetPaused) ∧
  (Faucet.canClaim s = true →
   MAX_UINT256 < Faucet.totalClaimed s + Faucet.claimAmount s →
   Faucet.claim env w = Revert (Faucet.Panic 17)) ∧
  (Faucet.canClaim s = true →
   Faucet.totalClaimed s + Faucet.claimAmount s <= MAX_UINT256 →
   VTON.isMinter (Faucet.token w) self = false →
   Faucet.claim env w = Revert (Faucet.TokenError VTON.NotMinter)) ∧
  (Faucet.canClaim s = true →
   Faucet.totalClaimed s + Faucet.claimAmount s <= MAX_UINT256 →
   VTON.isMinter (Faucet.token w) self = true →
   msg_sender env ≠ 0 →
   Faucet.claimAmount s * VTON.emissionRatio (Faucet.token w) <= MAX_UINT256 →
   VTON.totalSupply (Faucet.token w) + Faucet.claimAmount s <= Ledger.MAX_SUPPLY →
   ∃ w', Faucet.claim env w = Ok w').
Proof.
  intros Hc Hr.
  assert (Hinv : Faucet.claimAmount (Faucet.faucet
                   (Faucet.run txs {| Faucet.faucet := s0; Faucet.token := t0 |})) ≠ 0 ∧
                 VTON.reachable (Faucet.token
                   (Faucet.run txs {| Faucet.faucet := s0; Faucet.token := t0 |})) ∧
                 Faucet.this (Faucet.faucet
                   (Faucet.run txs {| Faucet.faucet := s0; Faucet.token := t0 |})) = self).
  { assert (H0 : Faucet.claimAmount s0 ≠ 0 ∧ Faucet.this s0 = self).
    { unfold Faucet.constructor in Hc. unroll Hc. injection Hc as <-. simpl.
      split; [by vm_compute|done]. }
    destruct H0 as [Hc0 Ht0].
    destruct (faucet_run_inv txs {| Faucet.faucet := s0; Faucet.token := t0 |} Hc0 Hr)
      as (? & ? & Ht). by rewrite Ht. }
  destruct Hinv as (Hpos & Hreach & Hthis). intros w s. fold w in Hpos, Hreach, Hthis.
  fold s in Hpos, Hthis. split_and!.
  - lia.
  - unfold Faucet.claim, Faucet.canClaim. fold s. split.
    + by intros ->.
    + destruct (negb (Faucet.paused s)); [|done]. simpl.
      unfold add_checked. destruct (_ <=? MAX_UINT256); simpl; [|done].
      unfold Faucet.lift. by destruct (VTON.mint _ _ _ _).
  - intros Hcan Hbig. unfold Faucet.claim. fold s. unfold Faucet.canClaim in Hcan.
    rewrite Hcan. simpl. unfold add_checked. by rewrite (proj2 (N.leb_gt _ _) Hbig).
  - intros Hcan Hfit Hm. unfold Faucet.claim. fold s. unfold Faucet.canClaim in Hcan.
    rewrite Hcan. simpl. rewrite (add_checked_ok _ _ _ Hfit). simpl.
    unfold VTON.mint. simpl. unfold VTON.isMinter in Hm. by rewrite Hthis, Hm.
  - intros Hcan Hfit Hm Hs Hmul Hsup. unfold Faucet.claim. fold s.
    unfold Faucet.canClaim in Hcan. rewrite Hcan. simpl.
    rewrite (add_checked_ok _ _ _ Hfit). simpl.
    unfold VTON.mint. simpl. unfold VTON.isMinter in Hm. rewrite Hthis, Hm. simpl.
    rewrite (proj2 (N.eqb_neq _ _) Hs). simpl.
    unfold mul_checked. rewrite (proj2 (N.leb_le _ _) Hmul). simpl.
    destruct (_ =? 0) eqn:Hz; [simpl; eauto|].
    pose proof (vton_ratio_bounded _ Hreach) as Hratio.
    assert (Faucet.claimAmount s * VTON.emissionRatio (Faucet.token w)
            / VTON.MAX_EMISSION_RATIO <= Faucet.claimAmount s) as Hle.
    { apply N.Div0.div_le_upper_bound. unfold VTON.MAX_EMISSION_RATIO in *. nia. }
    unfold Ledger._mint. rewrite (proj2 (N.eqb_neq _ _) Hs). simpl.
    unfold VTON.totalSupply, Ledger.totalSupply in Hsup.
    set (x := _ / VTON.MAX_EMISSION_RATIO) in *. clearbody x.
    rewrite add_checked_ok.
    2:{ unfold Ledger.MAX_SUPPLY, MAX_UINT256 in *. lia. }
    simpl. rewrite (proj2 (N.leb_le _ Ledger.MAX_SUPPLY)) by lia. simpl. eauto.
Qed.

Lemma faucet_claim_gate_witness :
  Faucet.claim (env_at 32 1400)
    (Faucet.run faucet_history
       {| Faucet.faucet := Faucet.faucet faucet_fresh;
          Faucet.token := Faucet.token faucet_fresh |})
  = Revert Faucet.FaucetPaused ∧
  Faucet.claim (env_at 32 1500)
    (Faucet.run faucet_overflow_history
       {| Faucet.faucet := Faucet.faucet faucet_fresh;
          Faucet.token := Faucet.token faucet_fresh |})
  = Revert (Faucet.Panic 17).
Proof.
  split.
  - destruct (faucet_claim_gate 60 50 1 (Faucet.faucet faucet_fresh)
                (Faucet.token faucet_fresh) faucet_history (env_at 32 1400))
      as (_ & [Hp _] & _).
    + reflexivity.
    + by apply (VTON.reach_init 1).
    + apply Hp. vm_compute. reflexivity.
  - destruct (faucet_claim_gate 60 50 1 (Faucet.faucet faucet_fresh)
                (Faucet.token faucet_fresh) faucet_overflow_history (env_at 32 1500))
      as (_ & _ & Ho & _).
    + reflexivity.
    + by apply (VTON.reach_init 1).
    + apply Ho; vm_compute; reflexivity.
Defined.

(** ** SecurityCouncil: the pause flag *)

Lemma council_paused_frame enc env c st st' :
  Council.exec enc env c st = Ok st' →
  (∀ i ok, c ≠ Council.ExecuteEmergencyAction i ok) →
  Council._paused st' = Council._paused st.
Proof.
  intros H Hc.
  destruct c; simpl in H; try (by destruct (Hc actionId callSucceeds)).
  - unfold Council.addMember in H. unroll H. by injection H as <-.
  - apply removeMember_effect in H as (x & st1 & t & _ & _ & _ & _ & Hrm & ->).
    simpl. unfold Council._removeMember in Hrm. unroll Hrm. destruct a0.
    by injection Hrm as <-.
  - unfold Council.setThreshold in H. unroll H. by injection H as <-.
  - unfold Council.setDAOGovernor in H. unroll H. by injection H as <-.
  - unfold Council.setProtocolTarget in H. unroll H. by injection H as <-.
  - apply fmap_fst_inv in H as [i H]. unfold Council.proposeEmergencyAction in H.
    unroll H. unfold Council.newAction in H. unroll H. by injection H as <- _.
  - unfold Council.approveEmergencyAction in H. unroll H. by injection H as <-.
  - unfold Council.cancelEmergencyAction in H. unroll H. by injection H as <-.
  - apply fmap_fst_inv in H as [i H]. unfold Council.cancelProposal in H.
    unroll H. unfold Council.newAction in H. unroll H. by injection H as <- _.
  - apply fmap_fst_inv in H as [i H]. unfold Council.pauseProtocol in H.
    unroll H. unfold Council.newAction in H. unroll H. by injection H as <- _.
  - apply fmap_fst_inv in H as [i H]. unfold Council.unpauseProtocol in H.
    unroll H. unfold Council.newAction in H. unroll H. by injection H as <- _.
Qed.

(** X22.  The pause flag of the council changes in one way only: by the
    execution of a [PauseProtocol] action while not paused, or of an
    [UnpauseProtocol] action while paused, and the executed action has at
    least [threshold] distinct approvers.  Proposing, approving or
    canceling an action, and the calls of the DAO, leave the flag alone. *)
Theorem pause_changes_only_by_execution enc env c st st' :
  Council.reachable enc st →
  Council.exec enc env c st = Ok st' →
  Council._paused st' ≠ Council._paused st →
  ∃ i ok,
    c = Council.ExecuteEmergencyAction i ok ∧
    NoDup (Council.approvers (Council.getEmergencyAction st i)) ∧
    Council.threshold st
    <= N.of_nat (length (Council.approvers (Council.getEmergencyAction st i))) ∧
    ((Council.actionType (Council.getEmergencyAction st i) = Council.PauseProtocol ∧
      Council._paused st = false ∧ Council._paused st' = true) ∨
     (Council.actionType (Council.getEmergencyAction st i) = Council.UnpauseProtocol ∧
      Council._paused st = true ∧ Council._paused st' = false)).
Proof.
  intros Hr H Hp.
  destruct c as [| | | | | | |i ok| | | |];
    try (destruct Hp; eapply council_paused_frame; [done|]; intros ? ?; discriminate).
  exists i, ok. simpl in H.
  destruct (council_actions_reachable _ _ Hr) as [Hact _].
  pose proof H as He.
  apply executeEmergencyAction_effect in He as (_ & Hcr & _ & Hthr & _).
  apply stored_action in Hcr. destruct (Hact _ _ Hcr) as (_ & _ & Hnd & _).
  split_and!; [done..|].
  unfold Council.executeEmergencyAction in H. unroll H.
  destruct (Council.actionType (Council.getEmergencyAction st i));
    unroll H; injection H as <-; simpl in *; try done.
  - left. apply negb_true_iff in Hreq4. by split_and!.
  - right. by split_and!.
Qed.

Lemma pause_changes_only_by_execution_witness :
  ∃ i ok,
    Council.ExecuteEmergencyAction 0 true = Council.ExecuteEmergencyAction i ok ∧
    NoDup (Council.approvers
             (Council.getEmergencyAction
                (Council.run scenario_encode (take 2 council_pause_history) council_three) i)) ∧
    Council.threshold (Council.run scenario_encode (take 2 council_pause_history) council_three)
    <= N.of_nat (length (Council.approvers
                           (Council.getEmergencyAction
                              (Council.run scenario_encode (take 2 council_pause_history)
                                 council_three) i))) ∧
    ((Council.actionType
        (Council.getEmergencyAction
           (Council.run scenario_encode (take 2 council_pause_history) council_three) i)
      = Council.PauseProtocol ∧
      Council._paused (Council.run scenario_encode (take 2 council_pause_history) council_three)
      = false ∧
      Council._paused (Council.run scenario_encode council_pause_history council_three) = true) ∨
     (Council.actionType
        (Council.getEmergencyAction
           (Council.run scenario_encode (take 2 council_pause_history) council_three) i)
      = Council.UnpauseProtocol ∧
      Council._paused (Council.run scenario_encode (take 2 council_pause_history) council_three)
      = true ∧
      Council._paused (Council.run scenario_encode council_pause_history council_three)
      = false)).
Proof.
  apply (pause_changes_only_by_execution scenario_encode (env_at 12 1300)).
  - apply council_run_reachable, council_three_reachable.
  - vm_compute. reflexivity.
  - vm_compute. discriminate.
Defined.

(** ** DelegateRegistry: the owner list and the voting power *)

Lemma votingPowerLoop_ext now cutoff s s' d owners v :
  (∀ o, o ∈ owners →
     Registry.delegationTimestamp s' d o = Registry.delegationTimestamp s d o ∧
     Registry.getDelegation s' o d = Registry.getDelegation s o d) →
  Registry.votingPowerLoop now cutoff s' d owners v
  = Registry.votingPowerLoop now cutoff s d owners v.
Proof.
  revert v. induction owners as [|o owners IH]; intros v Hsame; simpl; [done|].
  destruct (Hsame o ltac:(by left)) as [Ht Hd].
  unfold Registry.votingPowerStep. rewrite Ht, Hd.
  match goal with |- mbind _ ?m = _ => destruct m as [v'|e] end; simpl; [|done].
  apply IH. intros o' Ho'. apply Hsame. by right.
Qed.

(** X23.  Moving a delegation in by [redelegate] gives the receiving
    delegator no voting power when the owner is not in its owner list,
    that is, when the owner never delegated to it directly: the call adds
    the amount to the total delegated to the delegator and leaves what
    [getVotingPower] returns for it unchanged, at every evaluation
    time. *)
Theorem redelegate_in_adds_no_power env f t a w w' env' b1 b2 :
  Registry.redelegate env f t a w = Ok w' →
  f ≠ t →
  msg_sender env ∉ Registry.ownersOf (Registry.reg w) t →
  Registry.getTotalDelegated (Registry.reg w') t
  = Registry.getTotalDelegated (Registry.reg w) t + a ∧
  Registry.ownersOf (Registry.reg w') t = Registry.ownersOf (Registry.reg w) t ∧
  Registry.getVotingPower env' t b1 b2 (Registry.reg w')
  = Registry.getVotingPower env' t b1 b2 (Registry.reg w).
Proof.
  intros H Hft Hout.
  apply redelegate_effect in H
    as (rec & cps1 & cps2 & _ & _ & _ & _ & _ & _ & _ & _ & _ & _ & _ & ->).
  unfold Registry.getTotalDelegated, Registry.ownersOf, Registry.getVotingPower. simpl.
  split_and!.
  - rewrite getN_insert_eq. by rewrite getN_insert_ne.
  - done.
  - destruct (sub_checked _ _ _) as [cutoff|]; simpl; [|done].
    apply votingPowerLoop_ext. intros o Ho.
    assert (Hne : o ≠ msg_sender env) by (intros ->; done).
    unfold Registry.delegationTimestamp, Registry.getDelegation, getN. simpl. split.
    + rewrite lookup_insert_ne by congruence.
      destruct (_ =? 0); [|done]. rewrite lookup_delete_ne; [done|congruence].
    + rewrite lookup_insert_ne by congruence.
      rewrite withdrawn_other; [done|congruence].
Qed.

Lemma redelegate_in_adds_no_power_witness :
  let w := Registry.run [(env_at 31 1000000, Registry.Delegate 42 (100 * ether))] registry_ready in
  let w' := Registry.run [(env_at 31 1000000, Registry.Delegate 42 (100 * ether));
                          (env_at 31 1000100, Registry.Redelegate 42 41 (100 * ether))]
              registry_ready in
  Registry.getTotalDelegated (Registry.reg w') 41
  = Registry.getTotalDelegated (Registry.reg w) 41 + 100 * ether ∧
  Registry.ownersOf (Registry.reg w') 41 = Registry.ownersOf (Registry.reg w) 41 ∧
  Registry.getVotingPower (env_at 99 1700000) 41 0 0 (Registry.reg w')
  = Registry.getVotingPower (env_at 99 1700000) 41 0 0 (Registry.reg w).
Proof.
  apply (redelegate_in_adds_no_power (env_at 31 1000100) 42 41 (100 * ether)).
  - vm_compute. reflexivity.
  - discriminate.
  - vm_compute. by intros ?%elem_of_nil.
Defined.

Lemma votingSum_twice now cutoff s d l1 o l2 :
  2 * votingTerm now cutoff s d o <= votingSum now cutoff s d (l1 ++ o :: l2 ++ [o]).
Proof.
  rewrite votingSum_app. simpl. rewrite votingSum_app. simpl. lia.
Qed.

(** X24.  An owner who comes back is counted twice.  When an owner who is
    already in the owner list of a delegator, but whose timestamp for it
    was cleared by a full withdrawal, delegates to it again, the owner is
    appended a second time; once the new delegation is mature and while it
    has not expired, [getVotingPower] counts its amount at least twice. *)
Theorem returning_owner_counts_twice env d a w w' env' b1 b2 v :
  Registry.delegate env d a w = Ok w' →
  msg_sender env ∈ Registry.ownersOf (Registry.reg w) d →
  Registry.delegationTimestamp (Registry.reg w) d (msg_sender env) = 0 →
  0 < block_timestamp env →
  block_timestamp env + Registry.delegationPeriodRequirement (Registry.reg w')
  <= block_timestamp env' →
  Registry.expiresAt (Registry.getDelegation (Registry.reg w') (msg_sender env) d) = 0
  ∨ block_timestamp env'
    < Registry.expiresAt (Registry.getDelegation (Registry.reg w') (msg_sender env) d) →
  Registry.getVotingPower env' d b1 b2 (Registry.reg w') = Ok v →
  Registry.ownersOf (Registry.reg w') d
  = Registry.ownersOf (Registry.reg w) d ++ [msg_sender env] ∧
  2 * Registry.amount (Registry.getDelegation (Registry.reg w') (msg_sender env) d) <= v.
Proof.
  intros H Hin Hz Hnow Hmature Hexp Hv.
  pose proof H as He.
  apply delegate_effect in He
    as (tok & rec & cps & _ & _ & Ha & _ & _ & Hamt & _ & _ & Hw).
  assert (Hown : Registry.ownersOf (Registry.reg w') d
                 = Registry.ownersOf (Registry.reg w) d ++ [msg_sender env]).
  { rewrite Hw. unfold Registry.ownersOf at 1. simpl. rewrite Hz. simpl.
    by rewrite lookup_insert_eq. }
  split; [done|].
  assert (Hstamp : Registry.delegationTimestamp (Registry.reg w') d (msg_sender env)
                   = block_timestamp env).
  { rewrite Hw. unfold Registry.delegationTimestamp. simpl. apply getN_insert_eq. }
  assert (Hrec : Registry.amount (Registry.getDelegation (Registry.reg w') (msg_sender env) d)
                 = Registry.amount rec).
  { rewrite Hw. unfold Registry.getDelegation. simpl. by rewrite lookup_insert_eq. }
  unfold Registry.getVotingPower in Hv. unroll Hv.
  apply sub_checked_inv in Hcall as [-> Hle].
  rewrite votingPowerLoop_sum in Hv by (vm_compute; discriminate).
  destruct (_ <=? MAX_UINT256); [|done]. injection Hv as <-.
  rewrite Hown. apply list_elem_of_split in Hin as (l1 & l2 & ->).
  rewrite <- app_assoc. simpl.
  pose proof (votingSum_twice (block_timestamp env')
                (block_timestamp env' - Registry.delegationPeriodRequirement (Registry.reg w'))
                (Registry.reg w') d l1 (msg_sender env) l2) as Htwice.
  rewrite votingTerm_mature in Htwice; [lia|rewrite Hstamp; lia..| |done].
  rewrite Hrec. lia.
Qed.

Lemma returning_owner_counts_twice_witness :
  Registry.ownersOf (Registry.reg registry_redeposited) 41
  = Registry.ownersOf
      (Registry.reg
         (Registry.run [(env_at 31 1000000, Registry.Delegate 41 (1000 * ether));
                        (env_at 31 1000100, Registry.Undelegate 41 (1000 * ether))]
            registry_ready)) 41 ++ [msg_sender (env_at 31 1000200)] ∧
  2 * Registry.amount
        (Registry.getDelegation (Registry.reg registry_redeposited)
           (msg_sender (env_at 31 1000200)) 41)
  <= 2000 * ether.
Proof.
  apply (returning_owner_counts_twice (env_at 31 1000200) 41 (1000 * ether)
           (Registry.run [(env_at 31 1000000, Registry.Delegate 41 (1000 * ether));
                          (env_at 31 1000100, Registry.Undelegate 41 (1000 * ether))]
              registry_ready)
           registry_redeposited (env_at 99 1700000) 0 0).
  - vm_compute. reflexivity.
  - vm_compute. left.
  - vm_compute. reflexivity.
  - reflexivity.
  - vm_compute. discriminate.
  - left. vm_compute. reflexivity.
  - vm_compute. reflexivity.
Defined.

(** ** DelegateRegistry: maturity and totality of the voting power *)

(** *** The owner list and the timestamp of a pair *)

Lemma registry_run_app txs1 txs2 w :
  Registry.run (txs1 ++ txs2) w = Registry.run txs2 (Registry.run txs1 w).
Proof. revert w. induction txs1 as [|[env c] txs1 IH]; intros w; simpl; [done|]. apply IH. Qed.




(** The successful calls of the registry, by the function they run; the
    calls other than [delegate], [undelegate] and [redelegate] leave the
    delegation records, the timestamps and the owner lists alone. *)
Lemma registry_call_kinds env c w w' :
  Registry.exec env c w = Ok w' →
  (∃ d a, c = Registry.Delegate d a ∧ Registry.delegate env d a w = Ok w') ∨
  (∃ d a, c = Registry.Undelegate d a ∧ Registry.undelegate env d a w = Ok w') ∨
  (∃ f t a, c = Registry.Redelegate f t a ∧ Registry.redelegate env f t a w = Ok w') ∨
  ((∀ f t a, c ≠ Registry.Redelegate f t a) ∧ (∀ d a, c ≠ Registry.Delegate d a) ∧
   Registry._delegations (Registry.reg w') = Registry._delegations (Registry.reg w) ∧
   Registry._delegationTimestamps (Registry.reg w')
   = Registry._delegationTimestamps (Registry.reg w) ∧
   Registry._delegatorsToOwners (Registry.reg w')
   = Registry._delegatorsToOwners (Registry.reg w)).
Proof.
  intros H. destruct c; simpl in H;
    try (do 3 right; unfold Registry.on_reg in H; unroll H; injection H as <-;
         unfold Registry.registerDelegator, Registry.updateDelegator,
           Registry.deactivateDelegator, Registry.setDelegationCap,
           Registry.setDelegationPeriodRequirement, Registry.setAutoExpiryPeriod in Hcall;
         unroll Hcall; injection Hcall as <-; by split_and!);
    try (do 3 right; unfold Registry.on_token in H; unroll H; injection H as <-;
         by split_and!).
  - left. eauto.
  - right. left. eauto.
  - do 2 right. left. eauto.
Qed.

Section Pair.

Variables o d : address.



End Pair.












(** The two scenarios of the slips are histories in which a call mislists
    the owner: the amended claim says nothing about them. *)
Lemma slips_mislist :
  listed_in_step 31 41
    (registry_setup
     ++ [ (env_at 31 1000000, Registry.Delegate 41 (1000 * ether));
          (env_at 31 1000100, Registry.Undelegate 41 (1000 * ether));
          (env_at 31 1000200, Registry.Delegate 41 (1000 * ether)) ])
    registry_fresh = false ∧
  listed_in_step 31 41
    (registry_setup
     ++ [ (env_at 31 1000000, Registry.Delegate 42 (100 * ether));
          (env_at 31 1000100, Registry.Redelegate 42 41 (100 * ether));
          (env_at 31 1000200, Registry.Delegate 41 (50 * ether)) ])
    registry_fresh = false.
Proof. split; by vm_compute. Qed.

(** *** Totality of [getVotingPower] *)

(** A call appends at most one owner to the owner list of a delegator. *)
Lemma owners_length_step env c w w' d :
  Registry.exec env c w = Ok w' →
  (length (Registry.ownersOf (Registry.reg w') d)
   <= S (length (Registry.ownersOf (Registry.reg w) d)))%nat.
Proof.
  intros Hex.
  destruct (registry_call_kinds _ _ _ _ Hex)
    as [(d' & a & -> & H)|[(d' & a & -> & H)|[(f & t & a & -> & H)|(_ & _ & _ & _ & Ho)]]];
    clear Hex.
  - apply delegate_effect in H as (tok & rec & cps & _ & _ & _ & _ & _ & _ & _ & _ & ->).
    unfold Registry.ownersOf. simpl.
    destruct (Registry.delegationTimestamp _ d' _ =? 0); [|lia].
    destruct (decide (d' = d)) as [->|Hd].
    + rewrite lookup_insert_eq. simpl. rewrite length_app. simpl. lia.
    + rewrite lookup_insert_ne by done. lia.
  - apply undelegate_effect in H as (tok & cps & _ & _ & _ & _ & _ & _ & _ & _ & ->).
    unfold Registry.ownersOf. simpl. lia.
  - apply redelegate_effect in H
      as (rec & cps1 & cps2 & _ & _ & _ & _ & _ & _ & _ & _ & _ & _ & _ & ->).
    unfold Registry.ownersOf. simpl. lia.
  - unfold Registry.ownersOf. rewrite Ho. lia.
Qed.

Lemma owners_length_run txs w d :
  (length (Registry.ownersOf (Registry.reg (Registry.run txs w)) d)
   <= length txs + length (Registry.ownersOf (Registry.reg w) d))%nat.
Proof.
  revert w. induction txs as [|[env c] txs IH]; simpl; intros w; [lia|].
  destruct (Registry.exec env c w) as [w'|e] eqn:Hex; simpl.
  - pose proof (owners_length_step env c w w' d Hex). specialize (IH w'). lia.
  - specialize (IH w). lia.
Qed.

(** Claim C10, amended: [setDelegationPeriodRequirement] accepts every
    uint256 from the owner; whenever the period requirement is larger than
    the block timestamp, [getVotingPower] reverts with the arithmetic panic
    for every delegator; and when it is not, in a state reached from a
    deployment, [getVotingPower] returns a value for every delegator whose
    owner list has no repeated owner or has at most 2^48 entries.  The
    owner list is never longer than the history that led to the state. *)
Theorem getVotingPower_totality :
  (∀ env period s,
     msg_sender env = Registry.owner s →
     ∃ s', Registry.setDelegationPeriodRequirement env period s = Ok s' ∧
           Registry.delegationPeriodRequirement s' = period) ∧
  (∀ env d b1 b2 s,
     block_timestamp env < Registry.delegationPeriodRequirement s →
     Registry.getVotingPower env d b1 b2 s = Revert (Registry.Panic 17)) ∧
  (∀ self tok o l w0 txs env d b1 b2,
     Registry.deployed self tok o l w0 →
     Ledger.totalSupply l <= Ledger.MAX_SUPPLY →
     let s := Registry.reg (Registry.run txs w0) in
     NoDup (Registry.ownersOf s d) ∨ N.of_nat (length (Registry.ownersOf s d)) <= 2 ^ 48 →
     Registry.delegationPeriodRequirement s <= block_timestamp env →
     ∃ v, Registry.getVotingPower env d b1 b2 s = Ok v) ∧
  (∀ self tok o l w0 txs d,
     Registry.deployed self tok o l w0 →
     (length (Registry.ownersOf (Registry.reg (Registry.run txs w0)) d) <= length txs)%nat).
Proof.
  split_and!.
  - intros env period s Ho. unfold Registry.setDelegationPeriodRequirement.
    rewrite Ho, N.eqb_refl. simpl. eauto.
  - intros env d b1 b2 s Hlt. unfold Registry.getVotingPower, sub_checked.
    by rewrite (proj2 (N.leb_gt _ _) Hlt).
  - intros self tok o l w0 txs env d b1 b2 Hdep Hl s Hlist Hper.
    assert (Hinv : registry_inv (Registry.run txs w0)).
    { apply registry_inv_run. by eapply registry_inv_deployed. }
    unfold Registry.getVotingPower, sub_checked.
    rewrite (proj2 (N.leb_le _ _) Hper). simpl.
    rewrite votingPowerLoop_sum by lia. rewrite N.add_0_l.
    rewrite (proj2 (N.leb_le _ _)); [eauto|].
    destruct Hlist as [Hnd|Hlen].
    + destruct Hinv as (_ & Hsup & Hle & Hto).
      pose proof (votingSum_le_amounts (block_timestamp env)
                    (block_timestamp env - Registry.delegationPeriodRequirement s)
                    s d (Registry.ownersOf s d)) as H1.
      pose proof (owner_amounts_le_sum d _ (Registry._delegations s) Hnd) as H2.
      specialize (Hle d). specialize (Hto d). fold s in Hle, Hto.
      unfold Ledger.MAX_SUPPLY, MAX_UINT256 in *. lia.
    + pose proof (votingSum_bound (block_timestamp env)
                    (block_timestamp env - Registry.delegationPeriodRequirement s)
                    s d (Registry.ownersOf s d) Ledger.MAX_SUPPLY
                    (λ o', registry_inv_amount _ o' d Hinv)) as Hsum.
      etrans; [exact Hsum|]. etrans; [apply N.mul_le_mono_r, Hlen|]. by vm_compute.
  - intros self tok o l w0 txs d (s0 & Hc & ->).
    pose proof (owners_length_run txs {| Registry.reg := s0; Registry.vTON := l |} d) as H.
    unfold Registry.constructor in Hc. unroll Hc. injection Hc as <-.
    unfold Registry.ownersOf in H at 2. simpl in H. rewrite lookup_empty in H.
    simpl in H. lia.
Qed.

Lemma getVotingPower_totality_witness :
  (∃ s', Registry.setDelegationPeriodRequirement (env_at 1 1000000) MAX_UINT256
           (Registry.reg registry_fresh) = Ok s' ∧
         Registry.delegationPeriodRequirement s' = MAX_UINT256) ∧
  Registry.getVotingPower (env_at 99 1000) 41 0 0 (Registry.reg registry_fresh)
  = Revert (Registry.Panic 17) ∧
  (∃ v, Registry.getVotingPower (env_at 99 1700000) 41 0 0
          (Registry.reg (Registry.run (registry_setup ++ owner_moves) registry_fresh))
        = Ok v) ∧
  (∃ v, Registry.getVotingPower (env_at 99 1700000) 41 0 0
          (Registry.reg registry_redeposited) = Ok v).
Proof.
  destruct getVotingPower_totality as (Hset & Hrev & Htot & _).
  split_and!.
  - apply Hset. reflexivity.
  - apply Hrev. by vm_compute.
  - apply (Htot 100 50 1 Ledger.empty registry_fresh (registry_setup ++ owner_moves)
             (env_at 99 1700000)).
    + exact registry_fresh_deployed.
    + by vm_compute.
    + left. apply (bool_decide_unpack _). vm_compute. exact I.
    + by vm_compute.
  - apply (Htot 100 50 1 Ledger.empty registry_fresh
             (registry_setup
              ++ [ (env_at 31 1000000, Registry.Delegate 41 (1000 * ether));
                   (env_at 31 1000100, Registry.Undelegate 41 (1000 * ether));
                   (env_at 31 1000200, Registry.Delegate 41 (1000 * ether)) ])
             (env_at 99 1700000)).
    + exact registry_fresh_deployed.
    + by vm_compute.
    + right. by vm_compute.
    + by vm_compute.
Defined.

Lemma relisted_start :
  Registry.run (relisting_setup ++ relisting_cycle) registry_fresh = relisted [31].
Proof. vm_compute. reflexivity. Qed.

Lemma relisted_step l :
  Registry.run relisting_cycle (relisted l) = relisted (l ++ [31]).
Proof. vm_compute. reflexivity. Qed.

Lemma relisted_steps n l :
  Registry.run (concat (replicate n relisting_cycle)) (relisted l)
  = relisted (l ++ replicate n 31).
Proof.
  revert l. induction n as [|n IH]; intros l.
  - simpl. by rewrite app_nil_r.
  - change (replicate (S n) relisting_cycle) with (relisting_cycle :: replicate n relisting_cycle).
    change (concat (relisting_cycle :: replicate n relisting_cycle))
      with (relisting_cycle ++ concat (replicate n relisting_cycle)).
    rewrite registry_run_app, relisted_step, IH. by rewrite <- app_assoc.
Qed.

Lemma votingSum_replicate now cutoff s d o n :
  votingSum now cutoff s d (replicate n o) = N.of_nat n * votingTerm now cutoff s d o.
Proof. induction n as [|n IH]; simpl; [lia|]. rewrite IH. lia. Qed.

Lemma relisted_delegate_owners l :
  Registry.ownersOf
    (Registry.reg (Registry.run [(env_at 31 1000000, Registry.Delegate 41 Ledger.MAX_SUPPLY)]
                     (relisted l))) 41
  = l ++ [31].
Proof. vm_compute. reflexivity. Qed.

Lemma relisted_delegate_term l :
  votingTerm 1700000 (1700000 - Registry.DEFAULT_PERIOD)
    (Registry.reg (Registry.run [(env_at 31 1000000, Registry.Delegate 41 Ledger.MAX_SUPPLY)]
                     (relisted l))) 41 31
  = Ledger.MAX_SUPPLY.
Proof. vm_compute. reflexivity. Qed.

Lemma relisted_delegate_period l :
  Registry.delegationPeriodRequirement
    (Registry.reg (Registry.run [(env_at 31 1000000, Registry.Delegate 41 Ledger.MAX_SUPPLY)]
                     (relisted l)))
  = Registry.DEFAULT_PERIOD.
Proof. vm_compute. reflexivity. Qed.

Lemma relisting_history_power n :
  MAX_UINT256 < (N.of_nat n + 2) * Ledger.MAX_SUPPLY →
  Registry.delegationPeriodRequirement
    (Registry.reg (Registry.run (relisting_history n) registry_fresh))
  <= block_timestamp (env_at 99 1700000) ∧
  Registry.getVotingPower (env_at 99 1700000) 41 0 0
    (Registry.reg (Registry.run (relisting_history n) registry_fresh))
  = Revert (Registry.Panic 17).
Proof.
  intros Hbig. unfold relisting_history.
  rewrite app_assoc, registry_run_app, relisted_start.
  rewrite registry_run_app, relisted_steps.
  unfold Registry.getVotingPower. rewrite relisted_delegate_period.
  split; [by vm_compute|].
  change (block_timestamp (env_at 99 1700000)) with 1700000.
  change (sub_checked (Registry.Panic 17) 1700000 Registry.DEFAULT_PERIOD)
    with (Ok (1700000 - Registry.DEFAULT_PERIOD) : result Registry.error N).
  change (mbind ?f (Ok ?a)) with (f a). cbv beta.
  rewrite votingPowerLoop_sum by (vm_compute; discriminate).
  rewrite relisted_delegate_owners.
  change ([31] ++ replicate n 31) with (replicate (S n) 31).
  rewrite votingSum_app, votingSum_replicate.
  change (votingSum ?a ?b ?s ?d [?o]) with (votingTerm a b s d o + 0).
  rewrite relisted_delegate_term.
  rewrite (proj2 (N.leb_gt _ _)); [done|].
  rewrite N.add_0_l, N.add_0_r, Nat2N.inj_succ.
  set (k := N.of_nat n) in *. clearbody k.
  unfold MAX_UINT256, Ledger.MAX_SUPPLY in *. lia.
Qed.

(** Claim C10 as stated fails: user 31, who holds the whole supply,
    delegates it to 41 and withdraws it in full 2^48 + 1 times, and
    delegates it once more.  Every [delegate] finds the timestamp cleared
    and appends the owner again, so the owner list of 41 holds the owner
    2^48 + 2 times; the period requirement is below the evaluation time,
    and [getVotingPower] reverts with the arithmetic panic, on the running
    sum. *)
Lemma owner_list_overflow_counterexample :
  Registry.deployed 100 50 1 Ledger.empty registry_fresh ∧
  Registry.delegationPeriodRequirement
    (Registry.reg (Registry.run (relisting_history (N.to_nat (2 ^ 48))) registry_fresh))
  <= block_timestamp (env_at 99 1700000) ∧
  Registry.getVotingPower (env_at 99 1700000) 41 0 0
    (Registry.reg (Registry.run (relisting_history (N.to_nat (2 ^ 48))) registry_fresh))
  = Revert (Registry.Panic 17).
Proof.
  split; [exact registry_fresh_deployed|].
  apply (relisting_history_power (N.to_nat (2 ^ 48))).
  rewrite N2Nat.id. by vm_compute.
Qed.
